(** * Placeholder Replace & Restore: a shallow embedding of the plugin's
      substitution and restoration engines, and the properties of its
      specification.

    Two evolutions of the engine live in the repository: the whole-text
    variant ([src/code.js], module [WholeText] below) and the offset-tracked,
    font-preserving variant ([src/unnamed/part_000], module [Tracked]), the
    one the specification follows.  Functions that are the same in both files
    are embedded once, before the two modules.

    The plugin is single-threaded: every [await] is modelled as the call it
    waits for, in program order.  A pass is a computation in the monad [M]:
    it threads the host state and may throw, and what it mutated before a
    throw stays mutated.

    Host model.  The Figma host is an external collaborator, known to the
    plugin through the interface of section 6 of the specification; the part
    of it the engines call is modelled as follows.
    - A text node holds a list of characters, each with its font, and one
      plugin-data slot.  Characters are [ascii] code units; offsets and
      lengths are integers, as in the persisted records.
    - [insertCharacters start s "BEFORE"] throws when [start] is outside
      [0 .. length]; the inserted characters take the font of the character
      before [start] (of the character at [start] when [start = 0], of the
      node's base font in an empty node).
    - [deleteCharacters start end] throws unless [0 <= start <= end <= length];
      an empty range deletes nothing.
    - [getRangeFontName start end] throws unless [0 <= start < end <= length]
      and returns [figma.mixed] when the range holds several fonts.
    - [setRangeFontName start end f] throws unless [0 <= start < end <= length]
      and [f] has been loaded.
    - [loadFontAsync f] succeeds exactly for the fonts the host can provide.
    - Writing characters does not depend on which fonts are loaded: a font
      that could not be loaded is only unavailable for styling.
    - Plugin data is kept as the parsed payload ([JSON.stringify] followed by
      [JSON.parse] gives the payload back); the empty string is [None].  The
      key-value snapshot, a JS object used as a dictionary, is a finite map of
      its own properties; an assignment to the name [__proto__] reaches the
      setter inherited from [Object.prototype], which ignores a string, and
      creates no property.

    The plugin around the engines (the manual commands of the UI, the
    document-wide settings and the debounced selection handler) follows the
    two modules, with what it needs of the host:
    - the page is a tree of nodes, and [findAll] lists the descendants of a
      node that satisfy a predicate, a parent before its children;
    - a timer runs its callback when it is due, unless it was cleared; timers
      run in the order they are due;
    - the selection handler, like every pass, runs to its end before the
      next event is handled. *)

From Stdlib Require Import ZArith Ascii String Lia.
From stdpp Require Import base option list strings gmap.

Local Open Scope Z_scope.

(** ** Strings as the code sees them *)

Definition chars (s : string) : list ascii := list_ascii_of_string s.
Definition str (l : list ascii) : string := string_of_list_ascii l.

Definition zlen {A} (l : list A) : Z := Z.of_nat (List.length l).

Definition ascii_between (lo hi c : ascii) : bool :=
  (nat_of_ascii lo <=? nat_of_ascii c)%nat && (nat_of_ascii c <=? nat_of_ascii hi)%nat.

Definition ascii_is (a c : ascii) : bool := Ascii.eqb a c.

(** The character class [[a-zA-Z0-9_\-\/]] of the tracked variant. *)
Definition segChar (c : ascii) : bool :=
  ascii_between "a" "z" c || ascii_between "A" "Z" c || ascii_between "0" "9" c
  || ascii_is "_" c || ascii_is "-" c || ascii_is "/" c.

(** The character class [[a-zA-Z0-9_.\-\/]] of the whole-text variant. *)
Definition keyChar (c : ascii) : bool := segChar c || ascii_is "." c.

(** Greedy [[cls]*]: the longest prefix in the class, and what follows. *)
Fixpoint spanClass (cls : ascii -> bool) (s : list ascii) : list ascii * list ascii :=
  match s with
  | c :: s' =>
      if cls c then let '(p, r) := spanClass cls s' in (c :: p, r) else ([], s)
  | [] => ([], [])
  end.

(** ** Placeholder matches *)

Record PMatch := mkMatch {
  m_key : string;        (* m[1] *)
  m_start : Z;           (* m.index *)
  m_len : Z;             (* m[0].length *)
  m_text : list ascii    (* m[0] *)
}.

#[global] Instance PMatch_eq_dec : EqDecision PMatch.
Proof. solve_decision. Defined.

(** The [g]-flagged [exec] loop: the leftmost match from [lastIndex], then
    [lastIndex] moves to the end of the match.  [matchAt s] is the regular
    expression tried at the head of [s]: the key and the number of characters
    consumed.  [skip] counts the characters of the last match still to pass. *)
Fixpoint execLoop (matchAt : list ascii -> option (list ascii * nat))
    (skip : nat) (pos : Z) (s : list ascii) : list PMatch :=
  match s with
  | [] => []
  | _ :: s' =>
      match skip with
      | S k => execLoop matchAt k (pos + 1) s'
      | O =>
          match matchAt s with
          | Some (key, n) =>
              mkMatch (str key) pos (Z.of_nat n) (take n s)
                :: execLoop matchAt (pred n) (pos + 1) s'
          | None => execLoop matchAt 0 (pos + 1) s'
          end
      end
  end.

(** ** The host: fonts, text nodes, variables *)

Record Font := mkFont { family : string; style : string }.

#[global] Instance Font_eq_dec : EqDecision Font.
Proof. solve_decision. Defined.

(** A character of a text node with the font of its run. *)
Definition Styled : Type := list (ascii * Font).

Definition plain (cs : Styled) : list ascii := map fst cs.
Definition styled (f : Font) (s : list ascii) : Styled := map (fun c => (c, f)) s.

(** One entry of [replacements] in the persisted payload. *)
Record RestoreRecord := mkRecord {
  r_start : Z;
  r_len : Z;
  r_originalText : list ascii;
  r_originalFont : option Font    (* [null] when no font was captured *)
}.

#[global] Instance RestoreRecord_eq_dec : EqDecision RestoreRecord.
Proof. solve_decision. Defined.

(** The payload under ["prr:backup"].  The whole-text variant writes no
    [replacements] field; [ts] is written and never read, and is left out. *)
Record Backup := mkBackup {
  b_original : list ascii;
  b_snapshot : gmap string (list ascii);
  b_collection : string;
  b_replacements : option (list RestoreRecord)
}.

Record TextNode := mkNode {
  n_chars : Styled;
  n_base : Font;                  (* the font an empty node types in *)
  n_data : option Backup          (* [None]: the empty plugin-data string *)
}.

(** JavaScript values a STRING variable can hand back. *)
Inductive JsVal :=
| JUndefined
| JNull
| JStr (s : list ascii)
| JObj.                           (* a variable alias or another object *)

Definition truthy (v : JsVal) : bool :=
  match v with
  | JStr [] | JUndefined | JNull => false
  | JStr _ | JObj => true
  end.

(** [String(v)] *)
Definition toStr (v : JsVal) : list ascii :=
  match v with
  | JUndefined => chars "undefined"
  | JNull => chars "null"
  | JStr s => s
  | JObj => chars "[object Object]"
  end.

(** What [variable.resolveForConsumer(consumer)] does. *)
Inductive Resolution :=
| ResThrows                       (* the call throws *)
| ResNoObject                     (* it returns null or undefined *)
| ResValue (v : JsVal).           (* it returns an object whose [value] is [v] *)

Record StringVariable := mkVariable {
  v_name : string;
  v_collectionId : nat;
  v_resolveForConsumer : option Resolution;   (* [None]: not a function *)
  v_valuesByMode : list (string * JsVal)      (* in key order; [[]] also for a missing field *)
}.

Record Collection := mkCollection { c_id : nat; c_name : string }.

(** The part of the host one engine pass works on. *)
Record Env := mkEnv {
  e_node : TextNode;
  e_loaded : list Font;            (* fonts loaded so far *)
  e_available : list Font;         (* fonts [loadFontAsync] can provide *)
  e_collections : list Collection;
  e_variables : list StringVariable
}.

Definition withNode (e : Env) (n : TextNode) : Env :=
  mkEnv n (e_loaded e) (e_available e) (e_collections e) (e_variables e).
Definition withChars (e : Env) (cs : Styled) : Env :=
  withNode e (mkNode cs (n_base (e_node e)) (n_data (e_node e))).
Definition withData (e : Env) (d : option Backup) : Env :=
  withNode e (mkNode (n_chars (e_node e)) (n_base (e_node e)) d).
Definition withLoaded (e : Env) (fs : list Font) : Env :=
  mkEnv (e_node e) fs (e_available e) (e_collections e) (e_variables e).
Definition withCollections (e : Env) (cs : list Collection) : Env :=
  mkEnv (e_node e) (e_loaded e) (e_available e) cs (e_variables e).

(** ** Host calls: state passing with exceptions.  A thrown exception keeps
    the mutations made before it. *)

Inductive Outcome (A : Type) :=
| Ok (a : A)
| Throw.
Arguments Ok {A} a.
Arguments Throw {A}.

Definition M (A : Type) : Type := Env -> Outcome A * Env.

Definition ret {A} (a : A) : M A := fun e => (Ok a, e).
Definition throw {A} : M A := fun e => (Throw, e).
Definition bind {A B} (c : M A) (k : A -> M B) : M B :=
  fun e => match c e with
           | (Ok a, e') => k a e'
           | (Throw, e') => (Throw, e')
           end.
(** [try { c } catch (e) { h }] *)
Definition tryCatch {A} (c : M A) (h : M A) : M A :=
  fun e => match c e with
           | (Ok a, e') => (Ok a, e')
           | (Throw, e') => h e'
           end.
Definition get : M Env := fun e => (Ok e, e).
Definition put (e : Env) : M unit := fun _ => (Ok tt, e).

Notation "'let!' x ':=' c 'in' k" := (bind c (fun x => k))
  (at level 10, x name, c at level 100, k at level 200).
Notation "'do!' c 'in' k" := (bind c (fun _ => k))
  (at level 10, c at level 100, k at level 200).

(** [for (const x of l) { step(x) }] *)
Fixpoint forEach {X} (step : X -> M unit) (l : list X) : M unit :=
  match l with
  | [] => ret tt
  | x :: rest => do! step x in forEach step rest
  end.

Definition inRange (start stop len : Z) : bool :=
  (0 <=? start) && (start <=? stop) && (stop <=? len).

(** The font a ["BEFORE"] insertion at [i] inherits. *)
Definition styleBefore (base : Font) (cs : Styled) (i : nat) : Font :=
  match i with
  | O => match cs with (_, f) :: _ => f | [] => base end
  | S j => match cs !! j with Some (_, f) => f | None => base end
  end.

Definition insertCharacters (start : Z) (s : list ascii) : M unit := fun e =>
  let cs := n_chars (e_node e) in
  if inRange start start (zlen cs) then
    let i := Z.to_nat start in
    (Ok tt, withChars e (take i cs ++ styled (styleBefore (n_base (e_node e)) cs i) s ++ drop i cs))
  else (Throw, e).

Definition deleteCharacters (start stop : Z) : M unit := fun e =>
  let cs := n_chars (e_node e) in
  if inRange start stop (zlen cs) then
    (Ok tt, withChars e (take (Z.to_nat start) cs ++ drop (Z.to_nat stop) cs))
  else (Throw, e).

Definition slice {A} (start stop : Z) (l : list A) : list A :=
  take (Z.to_nat stop - Z.to_nat start) (drop (Z.to_nat start) l).

(** [None] stands for [figma.mixed]. *)
Definition getRangeFontName (start stop : Z) : M (option Font) := fun e =>
  let cs := n_chars (e_node e) in
  if inRange start stop (zlen cs) && (start <? stop) then
    match map snd (slice start stop cs) with
    | f :: fs => (Ok (if forallb (fun g => bool_decide (g = f)) fs then Some f else None), e)
    | [] => (Throw, e)
    end
  else (Throw, e).

Definition setRangeFontName (start stop : Z) (f : Font) : M unit := fun e =>
  let cs := n_chars (e_node e) in
  if inRange start stop (zlen cs) && (start <? stop) && bool_decide (f ∈ e_loaded e) then
    (Ok tt, withChars e (take (Z.to_nat start) cs
                          ++ styled f (plain (slice start stop cs))
                          ++ drop (Z.to_nat stop) cs))
  else (Throw, e).

Definition loadFontAsync (f : Font) : M unit := fun e =>
  if bool_decide (f ∈ e_available e) then
    (Ok tt, if bool_decide (f ∈ e_loaded e) then e else withLoaded e (f :: e_loaded e))
  else (Throw, e).

Definition getPluginData : M (option Backup) := fun e => (Ok (n_data (e_node e)), e).
Definition setPluginData (d : option Backup) : M unit := fun e => (Ok tt, withData e d).
Definition getCharacters : M (list ascii) := fun e => (Ok (plain (n_chars (e_node e))), e).

(** [node.characters = s]: the new text takes the font of the first
    character. *)
Definition setCharacters (s : list ascii) : M unit := fun e =>
  let cs := n_chars (e_node e) in
  (Ok tt, withChars e (styled (styleBefore (n_base (e_node e)) cs 0) s)).

(** ** Utilities common to both variants *)

(** The configuration constants and lines 12-93 of both files. *)
Definition DEFAULT_COLLECTION_NAME : string := "Keywords".

Definition freshId (cs : list Collection) : nat := S (foldr Nat.max O (map c_id cs)).

(** [createVariableCollection] gives the new collection an id no other has. *)
Definition getOrCreateCollection (name : string) : M Collection := fun e =>
  match find (fun c => bool_decide (c_name c = name)) (e_collections e) with
  | Some c => (Ok c, e)
  | None =>
      let c := mkCollection (freshId (e_collections e)) name in
      (Ok c, withCollections e (e_collections e ++ [c]))
  end.

(** The first STRING variable of that name in the collection, or [null]. *)
Definition findStringVariable (name : string) (collection : Collection)
  : M (option StringVariable) := fun e =>
  (Ok (find (fun v => bool_decide (v_name v = name)
                      && bool_decide (v_collectionId v = c_id collection))
            (e_variables e)), e).

(** [typeof v === "string" ? v : String(v ? v : "")] *)
Definition stringOrEmpty (v : JsVal) : list ascii :=
  match v with
  | JStr s => s
  | _ => toStr (if truthy v then v else JStr [])
  end.

(** [consumer] tells whether a consumer node was passed. *)
Definition resolveVariableValue (variable : StringVariable) (consumer : bool) : M JsVal :=
  tryCatch
    (match consumer, v_resolveForConsumer variable with
     | true, Some r =>
         match r with
         | ResThrows => throw
         | ResNoObject => throw          (* reading [value] of null *)
         | ResValue v => ret (if truthy v then v else JStr [])
         end
     | _, _ =>
         let v := match v_valuesByMode variable with
                  | (_, v) :: _ => v
                  | [] => JUndefined
                  end in
         ret (JStr (stringOrEmpty v))
     end)
    (ret (JStr [])).

Definition readNodeBackup : M (option Backup) :=
  tryCatch getPluginData (ret None).

Definition clearNodeBackup : M unit :=
  tryCatch (setPluginData None) (ret tt).

(** [safeLoadFonts]: the fonts are deduplicated by the key
    [family__style], and each load swallows its own failure. *)
Definition fontKey (f : Font) : string := family f +:+ "__" +:+ style f.

Fixpoint uniqueFonts (seen : list string) (fonts : list Font) : list Font :=
  match fonts with
  | [] => []
  | f :: fs =>
      if bool_decide (fontKey f ∈ seen) then uniqueFonts seen fs
      else f :: uniqueFonts (fontKey f :: seen) fs
  end.

Definition safeLoadFonts (fonts : list Font) : M unit :=
  tryCatch
    (forEach (fun f => tryCatch (loadFontAsync f) (ret tt)) (uniqueFonts [] fonts))
    (ret tt).

(** [font.family && font.style]: both names are non-empty.  A segment's
    [fontName] is always an object. *)
Definition namedFont (font : Font) : bool :=
  negb (bool_decide (family font = ""%string)) && negb (bool_decide (style font = ""%string)).

(** [getStyledTextSegments(["fontName"])]: the fonts of the styled segments
    are the fonts of the characters, in the order of the text. *)
Definition segmentFonts (n : TextNode) : list Font := map snd (n_chars n).

(** [safeLoadFontsForNode]: the fonts of the segments that have a family and
    a style go to [safeLoadFonts]. *)
Definition safeLoadFontsForNode : M unit :=
  tryCatch
    (let! e := get in safeLoadFonts (List.filter namedFont (segmentFonts (e_node e))))
    (ret tt).

(** [snapshot[key] = value] on the object literal [{}]: the value becomes an
    own property, except under the name [__proto__], where the assignment
    goes to the setter inherited from [Object.prototype]; that setter ignores
    a string, so the object stays as it was. *)
Definition setProperty (key : string) (value : list ascii)
    (object : gmap string (list ascii)) : gmap string (list ascii) :=
  if bool_decide (key = "__proto__"%string) then object else <[key := value]> object.

(** [s || d] on strings. *)
Definition orDefault (d s : string) : string := if bool_decide (s = ""%string) then d else s.

(** The value returned by a substitution pass. *)
Record ReplaceResult := mkReplaceResult {
  changed : bool;
  snapshot : option (gmap string (list ascii))
}.

(** ** The plugin runtime and the selection handler *)

Inductive SceneNode :=
| TextN (n : TextNode)             (* [type === "TEXT"] *)
| OtherN.

Record World := mkWorld {
  w_nodes : gmap string SceneNode;           (* the document, by node id *)
  w_selection : list string;                 (* [figma.currentPage.selection] *)
  w_loaded : list Font;
  w_available : list Font;
  w_collections : list Collection;
  w_variables : list StringVariable;
  featureEnabled : bool;
  chosenCollection : string;
  lastSelectedNodeId : option string;        (* [None] is [null] *)
  processing : bool
}.

Definition setProcessing (b : bool) (w : World) : World :=
  mkWorld (w_nodes w) (w_selection w) (w_loaded w) (w_available w) (w_collections w)
          (w_variables w) (featureEnabled w) (chosenCollection w) (lastSelectedNodeId w) b.

Definition setLastSelected (i : option string) (w : World) : World :=
  mkWorld (w_nodes w) (w_selection w) (w_loaded w) (w_available w) (w_collections w)
          (w_variables w) (featureEnabled w) (chosenCollection w) i (processing w).

(** Run an engine pass on the text node [i]; whatever it mutated stays. *)
Definition runOnNode {A} (i : string) (n : TextNode) (c : M A) (w : World) : World :=
  let e := mkEnv n (w_loaded w) (w_available w) (w_collections w) (w_variables w) in
  let e' := snd (c e) in
  mkWorld (<[i := TextN (e_node e')]> (w_nodes w)) (w_selection w) (e_loaded e')
          (w_available w) (e_collections e') (w_variables w) (featureEnabled w)
          (chosenCollection w) (lastSelectedNodeId w) (processing w).

(** [sel.length === 1 && sel[0].type === "TEXT" ? sel[0] : null], as an id. *)
Definition newSelectedNode (w : World) : option string :=
  match w_selection w with
  | [i] => match w_nodes w !! i with
           | Some (TextN _) => Some i
           | _ => None
           end
  | _ => None
  end.

(** A node id in a condition: [null] and the empty string are falsy. *)
Definition truthyId (i : option string) : bool :=
  match i with
  | Some s => negb (bool_decide (s = ""%string))
  | None => false
  end.

(** [try { processing = true; ... } catch { } finally { processing = false }]
    around a pass on the node with id [i], when that node is a text node. *)
Definition guardedPass {A} (i : string) (c : M A) (w : World) : World :=
  let w := setProcessing true w in
  let w := match w_nodes w !! i with
           | Some (TextN n) => runOnNode i n c w
           | _ => w
           end in
  setProcessing false w.

(** The handler of both variants; [replace] and [restore] are the variant's
    engine passes. *)
Definition handleSelectionChangeWith (replace : string -> M ReplaceResult)
    (restore : M bool) (w : World) : World :=
  if negb (featureEnabled w) then w
  else if processing w then w
  else
    let newId := newSelectedNode w in
    let last := lastSelectedNodeId w in
    let w1 :=
      if truthyId last && negb (bool_decide (last = newId)) then
        match last with
        | Some i => guardedPass i (replace (chosenCollection w)) w
        | None => w
        end
      else w in
    let w2 :=
      match newId with
      | Some i =>
          if negb (bool_decide (newId = lastSelectedNodeId w1)) then guardedPass i restore w1
          else w1
      | None => w1
      end in
    setLastSelected newId w2.

(** ** The whole-text variant ([src/code.js]) *)

Module WholeText.

(** [PLACEHOLDER_REGEX] (line 6), [/@([a-zA-Z0-9_.\-\/]+)/g], tried at the
    head of [s]. *)
Definition matchAt (s : list ascii) : option (list ascii * nat) :=
  match s with
  | c :: s' =>
      if ascii_is "@" c then
        match spanClass keyChar s' with
        | ([], _) => None
        | (key, _) => Some (key, S (List.length key))
        end
      else None
  | [] => None
  end.

(** Lines 91-95: the matches of the text, in order. *)
Definition scan (text : list ascii) : list PMatch := execLoop matchAt 0 0 text.

(** Lines 53-65; no [replacements] field is written. *)
Definition saveNodeBackup (originalText : list ascii)
    (snapshot : gmap string (list ascii)) (collectionName : string) : M unit :=
  let payload :=
    mkBackup originalText snapshot (orDefault DEFAULT_COLLECTION_NAME collectionName) None in
  tryCatch (setPluginData (Some payload)) (ret tt).

(** Lines 105-122: the loop that builds the new text left to right; the
    state is [(out, lastIndex, snapshot)]. *)
Fixpoint buildLoop (text : list ascii) (collection : Collection) (matches : list PMatch)
    (out : list ascii) (lastIndex : Z) (snapshot : gmap string (list ascii))
  : M (list ascii * Z * gmap string (list ascii)) :=
  match matches with
  | [] => ret (out, lastIndex, snapshot)
  | mm :: rest =>
      let out := out ++ slice lastIndex (m_start mm) text in
      let! variable := findStringVariable (m_key mm) collection in
      match variable with
      | Some v =>
          let! resolved := resolveVariableValue v true in
          let replacement := stringOrEmpty resolved in
          buildLoop text collection rest (out ++ replacement)
            (m_start mm + m_len mm) (setProperty (m_key mm) replacement snapshot)
      | None =>
          buildLoop text collection rest
            (out ++ slice (m_start mm) (m_start mm + m_len mm) text)
            (m_start mm + m_len mm) snapshot
      end
  end.

(** Lines 89-134. *)
Definition replacePlaceholdersInNode (collectionName : string) : M ReplaceResult :=
  let! text := getCharacters in
  let matches := scan text in
  match matches with
  | [] => ret (mkReplaceResult false None)
  | _ =>
      let! collection :=
        getOrCreateCollection (orDefault DEFAULT_COLLECTION_NAME collectionName) in
      let! built := buildLoop text collection matches [] 0 ∅ in
      let '(out, lastIndex, snapshot) := built in
      let out := out ++ slice lastIndex (zlen text) text in
      do! safeLoadFontsForNode in
      do! saveNodeBackup text snapshot (c_name collection) in
      do! setCharacters out in
      ret (mkReplaceResult true (Some snapshot))
  end.

(** Lines 137-145; the backup is kept. *)
Definition restorePlaceholdersInNode : M bool :=
  let! backup := readNodeBackup in
  match backup with
  | None => ret false
  | Some b =>
      match b_original b with
      | [] => ret false
      | original =>
          do! safeLoadFontsForNode in
          do! setCharacters original in
          ret true
      end
  end.

(** Lines 226-266. *)
Definition handleSelectionChange : World -> World :=
  handleSelectionChangeWith replacePlaceholdersInNode restorePlaceholdersInNode.

End WholeText.

(** ** The offset-tracked variant ([src/unnamed/part_000]) *)

Module Tracked.

(** [PLACEHOLDER_REGEX] (line 6): an at-sign, a segment, then dotted
    segments.  [dotSegments] is the starred group: each round takes a dot and
    a non-empty greedy run of segment characters, and the star stops at the
    first dot that no segment character follows.  A round consumes input, so
    [fuel], the length of the input, is never used up ([dotSegments_fuel]). *)
Fixpoint dotSegments (fuel : nat) (s : list ascii) : list ascii :=
  match fuel with
  | O => []
  | S fuel' =>
      match s with
      | c :: s' =>
          if ascii_is "." c then
            match spanClass segChar s' with
            | ([], _) => []
            | (seg, rest) => c :: seg ++ dotSegments fuel' rest
            end
          else []
      | [] => []
      end
  end.

(** The tracked placeholder expression at the head of [s]: an at-sign, a
    non-empty greedy segment, then the dotted segments. *)
Definition matchAt (s : list ascii) : option (list ascii * nat) :=
  match s with
  | c :: s' =>
      if ascii_is "@" c then
        match spanClass segChar s' with
        | ([], _) => None
        | (seg, rest) =>
            let key := seg ++ dotSegments (List.length rest) rest in
            Some (key, S (List.length key))
        end
      else None
  | [] => None
  end.

(** Lines 98-102: the matches of the text, in order. *)
Definition scan (text : list ascii) : list PMatch := execLoop matchAt 0 0 text.

(** Lines 53-72. *)
Definition saveNodeBackup (originalText : list ascii)
    (snapshot : gmap string (list ascii)) (collectionName : string)
    (replacements : list RestoreRecord) : M unit :=
  let payload :=
    mkBackup originalText snapshot (orDefault DEFAULT_COLLECTION_NAME collectionName)
             (Some replacements) in
  tryCatch (setPluginData (Some payload)) (ret tt).

(** The runtime settings the pass reads: [iconFontFamily], [iconFontStyle]
    (lines 354-355). *)
Record IconSettings := mkIcon { iconFontFamily : string; iconFontStyle : string }.

Definition iconFont (cfg : IconSettings) : Font :=
  mkFont (iconFontFamily cfg) (orDefault "Regular" (iconFontStyle cfg)).

(** An entry of [ops] (lines 160-166). *)
Record Op := mkOp {
  o_start : Z;
  o_removeLen : Z;
  o_insertText : list ascii;
  o_isIcon : bool;
  o_originalFont : option Font
}.

(** What the resolution loop accumulates (lines 113-117). *)
Record Pass := mkPass {
  p_snapshot : gmap string (list ascii);
  p_replacements : list RestoreRecord;
  p_ops : list Op;
  p_runningDelta : Z;
  p_hasIconReplacement : bool
}.

Definition emptyPass : Pass := mkPass ∅ [] [] 0 false.

(** Lines 120-126, the value for one match: [None] is JavaScript's [null],
    the variable was not found. *)
Definition resolveMatch (mm : PMatch) (collection : Collection) : M (option (list ascii)) :=
  let! variable := findStringVariable (m_key mm) collection in
  match variable with
  | Some v =>
      let! val := resolveVariableValue v true in
      ret (Some (stringOrEmpty val))
  | None => ret None
  end.

(** [mm.key.startsWith("icon/")] *)
Definition isIconKey (key : string) : bool := String.prefix "icon/" key.

(** Lines 140-148. *)
Definition captureFont (mm : PMatch) : M (option Font) :=
  tryCatch (getRangeFontName (m_start mm) (m_start mm + 1)) (ret None).

(** Lines 119-169: one round per match. *)
Fixpoint resolveLoop (collection : Collection) (matches : list PMatch) (acc : Pass) : M Pass :=
  match matches with
  | [] => ret acc
  | mm :: rest =>
      let! resolvedValue := resolveMatch mm collection in
      match resolvedValue with
      | None => resolveLoop collection rest acc
      | Some value =>
          let isIcon := isIconKey (m_key mm) in
          let! originalFont := captureFont mm in
          let finalStart := m_start mm + p_runningDelta acc in
          resolveLoop collection rest
            (mkPass (setProperty (m_key mm) value (p_snapshot acc))
                    (p_replacements acc
                       ++ [mkRecord finalStart (zlen value) (m_text mm) originalFont])
                    (p_ops acc
                       ++ [mkOp (m_start mm) (m_len mm) value isIcon originalFont])
                    (p_runningDelta acc + (zlen value - m_len mm))
                    (isIcon || p_hasIconReplacement acc))
      end
  end.

(** Lines 198-222: the body of the replacement loop. *)
Definition applyOp (cfg : IconSettings) (iconFontLoaded : bool) (op : Op) : M unit :=
  do! (if 0 <? zlen (o_insertText op) then
         do! insertCharacters (o_start op) (o_insertText op) in
         let insertEnd := o_start op + zlen (o_insertText op) in
         if o_isIcon op && iconFontLoaded then
           setRangeFontName (o_start op) insertEnd (iconFont cfg)
         else
           match o_originalFont op with
           | Some f => tryCatch (setRangeFontName (o_start op) insertEnd f) (ret tt)
           | None => ret tt
           end
       else ret tt) in
  let delStart := o_start op + zlen (o_insertText op) in
  deleteCharacters delStart (delStart + o_removeLen op).

(** [for (i = ops.length - 1; i >= 0; i--) { ... ops[i] ... }] *)
Definition applyOps (cfg : IconSettings) (iconFontLoaded : bool) (ops : list Op) : M unit :=
  forEach (applyOp cfg iconFontLoaded) (rev ops).

(** Lines 179-190. *)
Definition loadIconFont (cfg : IconSettings) (hasIconReplacement : bool) : M bool :=
  if hasIconReplacement && negb (bool_decide (iconFontFamily cfg = ""%string)) then
    tryCatch (do! loadFontAsync (iconFont cfg) in ret true) (ret false)
  else ret false.

(** Lines 96-226. *)
Definition replacePlaceholdersInNode (cfg : IconSettings) (collectionName : string)
  : M ReplaceResult :=
  let! text := getCharacters in
  let matches := scan text in
  match matches with
  | [] => do! clearNodeBackup in ret (mkReplaceResult false None)
  | _ =>
      let! collection :=
        getOrCreateCollection (orDefault DEFAULT_COLLECTION_NAME collectionName) in
      let! acc := resolveLoop collection matches emptyPass in
      match p_ops acc with
      | [] => do! clearNodeBackup in ret (mkReplaceResult false None)
      | _ =>
          do! safeLoadFontsForNode in
          let! iconFontLoaded := loadIconFont cfg (p_hasIconReplacement acc) in
          do! saveNodeBackup text (p_snapshot acc) (c_name collection) (p_replacements acc) in
          do! applyOps cfg iconFontLoaded (p_ops acc) in
          ret (mkReplaceResult true (Some (p_snapshot acc)))
      end
  end.

(** [[...replacements].sort((a, b) => b.start - a.start)]: a stable sort,
    descending by [start]. *)
Fixpoint insertDesc (r : RestoreRecord) (l : list RestoreRecord) : list RestoreRecord :=
  match l with
  | [] => [r]
  | x :: l' => if r_start x <? r_start r + 1 then r :: l else x :: insertDesc r l'
  end.

Definition sortDesc (l : list RestoreRecord) : list RestoreRecord := foldr insertDesc [] l.

(** Lines 249-271: the body of the restoration loop. *)
Definition restoreOne (rep : RestoreRecord) : M unit :=
  do! insertCharacters (r_start rep) (r_originalText rep) in
  do! match r_originalFont rep with
      | Some f =>
          tryCatch
            (setRangeFontName (r_start rep) (r_start rep + zlen (r_originalText rep)) f)
            (ret tt)
      | None => ret tt
      end in
  let delStart := r_start rep + zlen (r_originalText rep) in
  deleteCharacters delStart (delStart + r_len rep).

(** Lines 229-285. *)
Definition restorePlaceholdersInNode : M bool :=
  let! backup := readNodeBackup in
  match backup with
  | None => ret false
  | Some b =>
      do! safeLoadFontsForNode in
      match b_replacements b with
      | Some replacements =>
          let reps := sortDesc replacements in
          do! safeLoadFonts (omap r_originalFont reps) in
          do! forEach restoreOne reps in
          do! clearNodeBackup in
          ret true
      | None =>
          match b_original b with
          | [] => ret false
          | original =>
              do! setCharacters original in
              do! clearNodeBackup in
              ret true
          end
      end
  end.

(** Lines 378-418. *)
Definition handleSelectionChange (cfg : IconSettings) : World -> World :=
  handleSelectionChangeWith (replacePlaceholdersInNode cfg) restorePlaceholdersInNode.

End Tracked.

(** * Vocabulary of the properties *)

(** ** Splicing right to left and building left to right

    A [Splice] replaces [sp_remove] elements at [sp_start] by [sp_insert].
    Both engines apply a list of them, ascending and disjoint: the tracked
    variant in place, from the last to the first; the whole-text variant by
    building the output from the first to the last. *)

Record Splice (A : Type) := mkSplice {
  sp_start : Z;
  sp_remove : Z;
  sp_insert : list A
}.
Arguments mkSplice {A}.
Arguments sp_start {A}.
Arguments sp_remove {A}.
Arguments sp_insert {A}.

Definition spliceList {A} (it : Splice A) (l : list A) : list A :=
  take (Z.to_nat (sp_start it)) l ++ sp_insert it
    ++ drop (Z.to_nat (sp_start it + sp_remove it)) l.

(** The output built from [lastIndex] on, as the whole-text loop builds it. *)
Fixpoint rebuildFrom {A} (text : list A) (lastIndex : Z) (items : list (Splice A)) : list A :=
  match items with
  | [] => slice lastIndex (zlen text) text
  | it :: rest =>
      slice lastIndex (sp_start it) text ++ sp_insert it
        ++ rebuildFrom text (sp_start it + sp_remove it) rest
  end.

Definition span {A} (it : Splice A) : Z * Z := (sp_start it, sp_remove it).

(** Spans [(start, length)] ascending, disjoint, within a text of length
    [len], from offset [q] on. *)
Fixpoint Ascending (q : Z) (spans : list (Z * Z)) (len : Z) : Prop :=
  match spans with
  | [] => 0 <= q <= len
  | (s, r) :: rest => 0 <= q <= s /\ 0 <= r /\ Ascending (s + r) rest len
  end.

(** Strictly ascending numbers. *)
Fixpoint StrictAsc (l : list Z) : Prop :=
  match l with
  | [] => True
  | x :: rest => Forall (fun y => x < y) rest /\ StrictAsc rest
  end.

Definition sumZ (l : list Z) : Z := foldr Z.add 0 l.

(** The length change a splice makes. *)
Definition spliceDelta {A} (it : Splice A) : Z := zlen (sp_insert it) - sp_remove it.

(** The net length change of the splices strictly before the [i]-th. *)
Definition shiftBefore {A} (items : list (Splice A)) (i : nat) : Z :=
  sumZ (map spliceDelta (take i items)).

(** The splices that undo [items] on the text they produced: the [i]-th one
    sits where the [i]-th insertion went ([off] is the length change so far),
    removes it and puts [news !! i] in its place. *)
Fixpoint undoItems {A} (off : Z) (items : list (Splice A)) (news : list (list A))
  : list (Splice A) :=
  match items, news with
  | it :: rest, n :: ns =>
      mkSplice (sp_start it + off) (zlen (sp_insert it)) n
        :: undoItems (off + (zlen (sp_insert it) - sp_remove it)) rest ns
  | _, _ => []
  end.

(** The same span with another insertion. *)
Definition reinsert {A} (it : Splice A) (n : list A) : Splice A :=
  mkSplice (sp_start it) (sp_remove it) n.

Definition mapSplice {A B} (f : A -> B) (it : Splice A) : Splice B :=
  mkSplice (sp_start it) (sp_remove it) (map f (sp_insert it)).

(** ** The host around a pass *)

(** A computation that always returns and leaves the node as it was. *)
Definition keepsNode {A} (c : M A) : Prop :=
  forall e, exists a e', c e = (Ok a, e') /\ e_node e' = e_node e
                         /\ e_available e' = e_available e
                         /\ e_collections e' = e_collections e
                         /\ e_variables e' = e_variables e
                         /\ (forall f, f ∈ e_loaded e -> f ∈ e_loaded e').

(** The fonts [safeLoadFontsForNode] asks the host for: the fonts of the
    segments that have a family and a style, one for each key. *)
Definition fontsToLoad (n : TextNode) : list Font :=
  uniqueFonts [] (List.filter namedFont (segmentFonts n)).

(** Every font of the node's text is loaded. *)
Definition fontsReady (e : Env) : Prop :=
  forall c f, (c, f) ∈ n_chars (e_node e) -> f ∈ e_loaded e.

(** The font an inserted text ends up with: the icon font for an icon match
    when it was loaded, else the captured font when the host has it loaded,
    else the font the insertion inherited. *)
Definition opFont (icon : Font) (iconFontLoaded : bool) (loaded : list Font)
    (inherit : Font) (isIcon : bool) (originalFont : option Font) : Font :=
  if isIcon && iconFontLoaded then icon
  else match originalFont with
       | Some f => if bool_decide (f ∈ loaded) then f else inherit
       | None => inherit
       end.

(** The splice a pass applies for the item [x]: its span, and its text in
    the font chosen from the loaded fonts and the inherited font. *)
Definition hostSplice {X} (spanOf : X -> Z * Z) (insOf : X -> list ascii)
    (choose : list Font -> Font -> X -> Font) (loaded : list Font)
    (x : X) (inherit : Font) : Splice (ascii * Font) :=
  mkSplice (fst (spanOf x)) (snd (spanOf x)) (styled (choose loaded inherit x) (insOf x)).

(** ** A pass of the tracked variant, read off the host state *)

(** The span of a match in the scanned text. *)
Definition mspan (m : PMatch) : Z * Z := (m_start m, m_len m).

(** A match with nothing but its key: resolution looks at the key alone. *)
Definition keyOnly (k : string) : PMatch := mkMatch k 0 0 [].

(** The collection a pass works against. *)
Definition chosenCollectionOf (name : string) (e : Env) : Collection :=
  match fst (getOrCreateCollection (orDefault DEFAULT_COLLECTION_NAME name) e) with
  | Ok c => c
  | Throw => mkCollection O name
  end.

(** The variable the lookup of a key finds in a collection, if any. *)
Definition foundVariable (c : Collection) (e : Env) (key : string) : option StringVariable :=
  find (fun v => bool_decide (v_name v = key) && bool_decide (v_collectionId v = c_id c))
       (e_variables e).

(** The value a match resolves to and the font captured for it, as the pass
    computes them in the state [e]. *)
Definition resolveIn (collection : Collection) (e : Env) (mm : PMatch) : option (list ascii) :=
  match fst (Tracked.resolveMatch mm collection e) with
  | Ok r => r
  | Throw => None
  end.

Definition capturedFont (e : Env) (mm : PMatch) : option Font :=
  match fst (Tracked.captureFont mm e) with
  | Ok f => f
  | Throw => None
  end.

(** The actionable matches, in scan order, each with its resolved value. *)
Definition actionable (collection : Collection) (e : Env) (ms : list PMatch)
  : list (PMatch * list ascii) :=
  omap (fun mm => (fun v => (mm, v)) <$> resolveIn collection e mm) ms.

(** The actionable matches of a pass started in [e] with collection [name]. *)
Definition actionableIn (name : string) (e : Env) : list (PMatch * list ascii) :=
  actionable (chosenCollectionOf name e) e (Tracked.scan (plain (n_chars (e_node e)))).

(** [resolvedValue.length - matchedLength] *)
Definition netDelta (a : PMatch * list ascii) : Z := zlen a.2 - m_len a.1.

(** The net length change of the actionable matches strictly before the
    [i]-th. *)
Definition deltaBefore (acts : list (PMatch * list ascii)) (i : nat) : Z :=
  sumZ (map netDelta (take i acts)).

(** What the resolution loop accumulates over the actionable matches. *)
Definition opOf (e : Env) (a : PMatch * list ascii) : Tracked.Op :=
  Tracked.mkOp (m_start a.1) (m_len a.1) a.2 (Tracked.isIconKey (m_key a.1))
               (capturedFont e a.1).

Fixpoint recordsFrom (e : Env) (delta : Z) (acts : list (PMatch * list ascii))
  : list RestoreRecord :=
  match acts with
  | [] => []
  | a :: rest =>
      mkRecord (m_start a.1 + delta) (zlen a.2) (m_text a.1) (capturedFont e a.1)
        :: recordsFrom e (delta + netDelta a) rest
  end.

Definition snapshotOf (acc : gmap string (list ascii)) (acts : list (PMatch * list ascii))
  : gmap string (list ascii) :=
  foldl (fun s a => setProperty (m_key a.1) a.2 s) acc acts.

Definition hasIconOf (acc : bool) (acts : list (PMatch * list ascii)) : bool :=
  foldl (fun h a => Tracked.isIconKey (m_key a.1) || h) acc acts.

(** Whether the pass ends up with the icon font loaded. *)
Definition iconLoadedIn (cfg : Tracked.IconSettings) (e : Env)
    (acts : list (PMatch * list ascii)) : bool :=
  hasIconOf false acts
  && negb (bool_decide (Tracked.iconFontFamily cfg = ""%string))
  && bool_decide (Tracked.iconFont cfg ∈ e_available e).

Definition opSpan (op : Tracked.Op) : Z * Z := (Tracked.o_start op, Tracked.o_removeLen op).
Definition recSpan (rep : RestoreRecord) : Z * Z := (r_start rep, r_len rep).

Definition chooseOp (icon : Font) (iconFontLoaded : bool) (loaded : list Font)
    (inherit : Font) (op : Tracked.Op) : Font :=
  opFont icon iconFontLoaded loaded inherit (Tracked.o_isIcon op) (Tracked.o_originalFont op).

Definition chooseRec (loaded : list Font) (inherit : Font) (rep : RestoreRecord) : Font :=
  opFont inherit false loaded inherit false (r_originalFont rep).

(** The splices of a substitution pass over the actionable matches. *)
Definition passSplices (icon : Font) (iconFontLoaded : bool) (loaded : list Font)
    (e : Env) (acts : list (PMatch * list ascii)) (inhs : list Font)
  : list (Splice (ascii * Font)) :=
  zip_with (hostSplice opSpan Tracked.o_insertText (chooseOp icon iconFontLoaded) loaded)
           (map (opOf e) acts) inhs.

(** The text restoration puts back for the actionable match [a]: its
    placeholder in the captured font when the host has it loaded, else in the
    inherited font. *)
Definition restoredSpan (loaded : list Font) (e : Env) (a : PMatch * list ascii)
    (inherit : Font) : Styled :=
  styled (opFont inherit false loaded inherit false (capturedFont e a.1)) (m_text a.1).

(** ** The fonts of a pass *)





(** ** The text of a pass *)

(** An actionable match as a splice of plain text. *)
Definition valueSplice (a : PMatch * list ascii) : Splice ascii :=
  mkSplice (m_start a.1) (m_len a.1) a.2.

(** What a scanned match contributes to the output: its value, or its own
    text when the key is absent. *)
Definition renderSplice (c : Collection) (e : Env) (mm : PMatch) : Splice ascii :=
  mkSplice (m_start mm) (m_len mm) (default (m_text mm) (resolveIn c e mm)).

(** What a scanned match contributes to the output of the whole-text
    variant: its value, or the slice of the text it covers. *)
Definition renderWhole (c : Collection) (e : Env) (text : list ascii) (mm : PMatch)
  : Splice ascii :=
  mkSplice (m_start mm) (m_len mm)
           (default (slice (m_start mm) (m_start mm + m_len mm) text) (resolveIn c e mm)).

(** The node after a substitution pass and after the restoration that
    follows it, and the characters the pass leaves. *)
Definition afterReplace (cfg : Tracked.IconSettings) (name : string) (e : Env) : Env :=
  snd (Tracked.replacePlaceholdersInNode cfg name e).
Definition afterRoundTrip (cfg : Tracked.IconSettings) (name : string) (e : Env) : Env :=
  snd (Tracked.restorePlaceholdersInNode (afterReplace cfg name e)).
Definition textAfter (cfg : Tracked.IconSettings) (name : string) (e : Env) : list ascii :=
  plain (n_chars (e_node (afterReplace cfg name e))).

(** ** Conditions on the input *)

(** No actionable match with an empty value is immediately followed by
    another actionable match. *)
Fixpoint noEmptyAdjacent (acts : list (PMatch * list ascii)) : Prop :=
  match acts with
  | a :: rest =>
      match rest with
      | b :: _ => 0 < zlen a.2 \/ m_start a.1 + m_len a.1 < m_start b.1
      | [] => True
      end /\ noEmptyAdjacent rest
  | [] => True
  end.




(** ** Sample host states *)

Definition Inter : Font := mkFont "Inter" "Regular".
Definition InterBold : Font := mkFont "Inter" "Bold".
Definition Glyphs : Font := mkFont "Material Icons" "Regular".

(** A font the host has neither loaded nor can load. *)
Definition Missing : Font := mkFont "Custom Sans" "Regular".

Definition keywords : Collection := mkCollection 1 "Keywords".

(** A STRING variable of the collection [keywords] with one value. *)
Definition stringVar (name value : string) : StringVariable :=
  mkVariable name 1 (Some (ResValue (JStr (chars value)))) [("1:0"%string, JStr (chars value))].

(** A node with the characters [cs] and no backup; [Inter] and [InterBold]
    are loaded, the icon font [Glyphs] can be loaded. *)
Definition sampleEnv (cs : Styled) (vars : list StringVariable) : Env :=
  mkEnv (mkNode cs Inter None) [Inter; InterBold] [Inter; InterBold; Glyphs] [keywords] vars.

Definition noIcon : Tracked.IconSettings := Tracked.mkIcon "" "Regular".
Definition withIcon : Tracked.IconSettings := Tracked.mkIcon "Material Icons" "".

(** A backup left by an earlier pass. *)
Definition staleBackup : Backup :=
  mkBackup (chars "@old") {[ "old"%string := chars "value" ]} "Keywords"
           (Some [mkRecord 0 5 (chars "@old") (Some Inter)]).

(** A document with one text node and the plugin runtime around it. *)
Definition sampleWorld (enabled : bool) (last : option string) : World :=
  mkWorld {[ "1:2"%string := TextN (mkNode (styled Inter (chars "@a")) Inter None) ]}
          ["1:2"%string] [Inter] [Inter] [keywords] [stringVar "a" "X"]
          enabled "Keywords" last false.

(** * The plugin around the engines *)

(** ** The document around the selection handler *)

(** The host as a pass on the text node [n] sees it. *)
Definition envOf (w : World) (n : TextNode) : Env :=
  mkEnv n (w_loaded w) (w_available w) (w_collections w) (w_variables w).

(** The user changes the selection. *)
Definition select (sel : list string) (w : World) : World :=
  mkWorld (w_nodes w) sel (w_loaded w) (w_available w) (w_collections w)
          (w_variables w) (featureEnabled w) (chosenCollection w) (lastSelectedNodeId w)
          (processing w).

(** ** The page, the manual commands and the settings ([src/unnamed/part_000],
    lines 323-371 and 423-515)

    A node of the page tree has an id and, when it is a container, its
    children in document order; a node that is no container has no
    [findAll].  The type and the text of a node are the document's, by id:
    [figma.currentPage.selection] holds the nodes of the page with the
    selected ids. *)

#[warnings="-register-all"] Inductive PageNode :=
  PNode (id : string) (children : option (list PageNode)).

Definition nodeId (n : PageNode) : string := match n with PNode i _ => i end.

(** [typeof n.findAll === "function"] *)
Definition hasFindAll (n : PageNode) : bool :=
  match n with PNode _ (Some _) => true | PNode _ None => false end.

(** [n.findAll(p)]: the descendants of [n] that satisfy [p], a parent before
    its children and the children in their order. *)
Fixpoint findAll (p : PageNode -> bool) (n : PageNode) : list PageNode :=
  match n with
  | PNode _ (Some children) =>
      flat_map (fun c => (if p c then [c] else []) ++ findAll p c) children
  | PNode _ None => []
  end.

(** The first node with the id [i] in the tree under [n], [n] included. *)
Fixpoint nodeById (i : string) (n : PageNode) : option PageNode :=
  if bool_decide (nodeId n = i) then Some n
  else match n with
       | PNode _ (Some children) =>
           (fix first (cs : list PageNode) : option PageNode :=
              match cs with
              | [] => None
              | c :: rest =>
                  match nodeById i c with
                  | Some r => Some r
                  | None => first rest
                  end
              end) children
       | PNode _ None => None
       end.

(** [n.type === "TEXT"] *)
Definition isText (nodes : gmap string SceneNode) (n : PageNode) : bool :=
  match nodes !! nodeId n with
  | Some (TextN _) => true
  | _ => false
  end.

(** [figma.currentPage.selection]; a selected node the tree does not hold
    counts as a node without children. *)
Definition selectionNodes (page : PageNode) (w : World) : list PageNode :=
  map (fun i => default (PNode i None) (nodeById i page)) (w_selection w).

(** Lines 324-340. *)
Definition gatherTextNodesFromSelectionOrPage (page : PageNode) (w : World)
    (useSelectionOnly : bool) : list PageNode :=
  let selection := selectionNodes page w in
  if useSelectionOnly && negb (Nat.eqb (List.length selection) 0) then
    flat_map (fun item =>
                (if isText (w_nodes w) item then [item] else [])
                ++ (if hasFindAll item then findAll (isText (w_nodes w)) item else []))
             selection
  else findAll (isText (w_nodes w)) page.

(** What the plugin posts to its UI. *)
Inductive RunResult :=
| Changed (id : string) (changed : bool)       (* [{ id, changed }] *)
| Restored (id : string) (restored : bool).    (* [{ id, restored }] *)

Inductive UiMessage :=
| InitMsg (collections : list string) (enabled : bool)
          (collection iconFontFamily iconFontStyle : string)
| StatusMsg (text : string)
| RunResultMsg (results : list RunResult).

(** What the UI sends: [msg.type] and the fields read from [msg]; a field of
    [SetSettings] is [None] when it is missing or not of the type tested. *)
Inductive PluginMessage :=
| Init
| SetSettings (enabled : option bool) (collection iconFontFamily iconFontStyle : option string)
| RunOnSelection
| RestoreOnSelection
| Resize (width height : Z)
| Hide
| Close
| OtherMessage.

(** The document-wide settings under ["prr:settings"], as parsed: a field
    that is missing is [None]. *)
Record SavedSettings := mkSaved {
  s_collection : option string;
  s_iconFontFamily : option string;
  s_iconFontStyle : option string
}.

Inductive DocData :=
| NoData                      (* the empty string *)
| Unreadable                  (* [JSON.parse] throws *)
| SavedData (s : SavedSettings).

(** The plugin at run time: the document and the runtime variables
    ([pl_world]), the icon settings, the page, the document-wide plugin data
    and the UI. *)
Record Plugin := mkPlugin {
  pl_world : World;
  pl_icon : Tracked.IconSettings;
  pl_page : PageNode;
  pl_settings : DocData;
  pl_posted : list UiMessage;          (* [figma.ui.postMessage], oldest first *)
  pl_uiSize : Z * Z;
  pl_uiVisible : bool;
  pl_closed : bool
}.

Definition withWorld (w : World) (p : Plugin) : Plugin :=
  mkPlugin w (pl_icon p) (pl_page p) (pl_settings p) (pl_posted p) (pl_uiSize p)
           (pl_uiVisible p) (pl_closed p).

Definition postMessage (m : UiMessage) (p : Plugin) : Plugin :=
  mkPlugin (pl_world p) (pl_icon p) (pl_page p) (pl_settings p) (pl_posted p ++ [m])
           (pl_uiSize p) (pl_uiVisible p) (pl_closed p).

Definition setFeatureEnabled (b : bool) (w : World) : World :=
  mkWorld (w_nodes w) (w_selection w) (w_loaded w) (w_available w) (w_collections w)
          (w_variables w) b (chosenCollection w) (lastSelectedNodeId w) (processing w).

Definition setChosenCollection (c : string) (w : World) : World :=
  mkWorld (w_nodes w) (w_selection w) (w_loaded w) (w_available w) (w_collections w)
          (w_variables w) (featureEnabled w) c (lastSelectedNodeId w) (processing w).

(** Lines 430-437 and 507-514. *)
Definition initMessage (p : Plugin) : UiMessage :=
  InitMsg (map c_name (w_collections (pl_world p))) (featureEnabled (pl_world p))
          (chosenCollection (pl_world p))
          (Tracked.iconFontFamily (pl_icon p)) (Tracked.iconFontStyle (pl_icon p)).

(** The template string of line 460. *)
Definition statusText (enabled : bool) (collection : string) : string :=
  "Feature " +:+ (if enabled then "ON" else "OFF") +:+ ", collection: " +:+ collection.

(** The loops of lines 468-471 and 478-481: one pass for each node, in order;
    an exception ends the loop and leaves what was done.  The nodes come from
    [gatherTextNodesFromSelectionOrPage], so each is a text node of the
    document. *)
Fixpoint forNodes {A} (pass : M A) (result : string -> A -> RunResult)
    (nodes : list PageNode) (results : list RunResult) (w : World)
  : Outcome (list RunResult) * World :=
  match nodes with
  | [] => (Ok results, w)
  | n :: rest =>
      match w_nodes w !! nodeId n with
      | Some (TextN t) =>
          let w' := runOnNode (nodeId n) t pass w in
          match fst (pass (envOf w t)) with
          | Ok r => forNodes pass result rest (results ++ [result (nodeId n) r]) w'
          | Throw => (Throw, w')
          end
      | _ => (Throw, w)
      end
  end.

(** Lines 426-497; an exception in the handler leaves the message that was
    to follow unposted. *)
Definition onmessage (msg : PluginMessage) (p : Plugin) : Plugin :=
  match msg with
  | Init => postMessage (initMessage p) p
  | SetSettings enabled collection fontFamily fontStyle =>
      let w := pl_world p in
      let w := match enabled with Some b => setFeatureEnabled b w | None => w end in
      let w := match collection with Some c => setChosenCollection c w | None => w end in
      let icon :=
        Tracked.mkIcon (default (Tracked.iconFontFamily (pl_icon p)) fontFamily)
                       (default (Tracked.iconFontStyle (pl_icon p)) fontStyle) in
      let saved :=
        mkSaved (Some (chosenCollection w)) (Some (Tracked.iconFontFamily icon))
                (Some (Tracked.iconFontStyle icon)) in
      postMessage (StatusMsg (statusText (featureEnabled w) (chosenCollection w)))
        (mkPlugin w icon (pl_page p) (SavedData saved) (pl_posted p) (pl_uiSize p)
                  (pl_uiVisible p) (pl_closed p))
  | RunOnSelection =>
      let nodes := gatherTextNodesFromSelectionOrPage (pl_page p) (pl_world p) true in
      match forNodes (Tracked.replacePlaceholdersInNode (pl_icon p)
                        (chosenCollection (pl_world p)))
                     (fun i r => Changed i (changed r)) nodes [] (pl_world p) with
      | (Ok results, w) => postMessage (RunResultMsg results) (withWorld w p)
      | (Throw, w) => withWorld w p
      end
  | RestoreOnSelection =>
      let nodes := gatherTextNodesFromSelectionOrPage (pl_page p) (pl_world p) true in
      match forNodes Tracked.restorePlaceholdersInNode Restored nodes [] (pl_world p) with
      | (Ok results, w) => postMessage (RunResultMsg results) (withWorld w p)
      | (Throw, w) => withWorld w p
      end
  | Resize width height =>
      mkPlugin (pl_world p) (pl_icon p) (pl_page p) (pl_settings p) (pl_posted p)
               (width, height) (pl_uiVisible p) (pl_closed p)
  | Hide =>
      mkPlugin (pl_world p) (pl_icon p) (pl_page p) (pl_settings p) (pl_posted p)
               (pl_uiSize p) false (pl_closed p)
  | Close =>
      mkPlugin (pl_world p) (pl_icon p) (pl_page p) (pl_settings p) (pl_posted p)
               (pl_uiSize p) (pl_uiVisible p) true
  | OtherMessage => p
  end.

(** [if (saved.x) v = saved.x]: a field that is missing or empty leaves the
    default. *)
Definition savedOr (d : string) (field : option string) : string :=
  match field with
  | Some s => orDefault d s
  | None => d
  end.

(** Lines 352-368: the runtime variables start from their defaults, then from
    the saved settings when these can be read. *)
Definition loadSettings (d : DocData) : string * Tracked.IconSettings :=
  match d with
  | SavedData s =>
      (savedOr DEFAULT_COLLECTION_NAME (s_collection s),
       Tracked.mkIcon (savedOr "" (s_iconFontFamily s)) (savedOr "Regular" (s_iconFontStyle s)))
  | _ => (DEFAULT_COLLECTION_NAME, Tracked.mkIcon "" "Regular")
  end.

(** The top level of the plugin on the document and the host of [p] (lines
    352-371, 424 and 505-515): the feature is on, nothing was selected
    before, the UI is shown and told the initial state. *)
Definition startup (p : Plugin) : Plugin :=
  let w := pl_world p in
  let '(collection, icon) := loadSettings (pl_settings p) in
  let w0 := mkWorld (w_nodes w) (w_selection w) (w_loaded w) (w_available w)
                    (w_collections w) (w_variables w) true collection None false in
  let p0 := mkPlugin w0 icon (pl_page p) (pl_settings p) [] (420, 450) true false in
  postMessage (initMessage p0) p0.

(** ** Debouncing ([debounce], lines 343-349 of [src/unnamed/part_000], the
    same in [src/code.js])

    The host's timers: a timer set at the time [now] with the delay [wait]
    is due at [now + wait]; the host runs the callbacks of the timers that
    are due, the earliest first, each at its due time, and a timer that was
    cleared never runs.  Timer ids are positive and never used twice. *)

Record Timer (A : Type) := mkTimer {
  tm_id : nat;
  tm_due : Z;
  tm_args : A                      (* what the callback was set up with *)
}.
Arguments mkTimer {A}.
Arguments tm_id {A}.
Arguments tm_due {A}.
Arguments tm_args {A}.

Record Clock (A : Type) := mkClock {
  clk_now : Z;
  clk_lastId : nat;                   (* the id given out last *)
  clk_pending : list (Timer A)        (* by due time, the earliest first *)
}.
Arguments mkClock {A}.
Arguments clk_now {A}.
Arguments clk_lastId {A}.
Arguments clk_pending {A}.

Fixpoint insertTimer {A} (t : Timer A) (l : list (Timer A)) : list (Timer A) :=
  match l with
  | [] => [t]
  | x :: l' => if tm_due x <=? tm_due t then x :: insertTimer t l' else t :: l
  end.

Definition setTimeout {A} (wait : Z) (a : A) (c : Clock A) : nat * Clock A :=
  let id := S (clk_lastId c) in
  (id, mkClock (clk_now c) id
              (insertTimer (mkTimer id (clk_now c + wait) a) (clk_pending c))).

Definition clearTimeout {A} (id : nat) (c : Clock A) : Clock A :=
  mkClock (clk_now c) (clk_lastId c)
          (List.filter (fun x => negb (Nat.eqb (tm_id x) id)) (clk_pending c)).

(** Time passes until [time]: the timers due by then, in the order they run,
    each with its due time, and the clock after them. *)
Definition runTimers {A} (time : Z) (c : Clock A) : list (Z * A) * Clock A :=
  (map (fun x => (tm_due x, tm_args x))
       (List.filter (fun x => tm_due x <=? time) (clk_pending c)),
   mkClock time (clk_lastId c)
           (List.filter (fun x => negb (tm_due x <=? time)) (clk_pending c))).

(** The closure [debounce(fn, wait)] returns: its variable [t] ([None] is
    [undefined]) and the clock it sets its timers on. *)
Record Debounced (A : Type) := mkDebounced {
  db_t : option nat;
  db_clock : Clock A
}.
Arguments mkDebounced {A}.
Arguments db_t {A}.
Arguments db_clock {A}.

(** A call of the debounced function with the arguments [a]; the callback of
    its timer is [fn.apply(this, a)]. *)
Definition debounced {A} (wait : Z) (a : A) (d : Debounced A) : Debounced A :=
  let c := match db_t d with
           | Some id => if Nat.eqb id 0 then db_clock d else clearTimeout id (db_clock d)
           | None => db_clock d
           end in
  let '(id, c') := setTimeout wait a c in
  mkDebounced (Some id) c'.

(** [debounce(fn, wait)] on a clock that shows the time [start]. *)
Definition debounce {A} (start : Z) : Debounced A := mkDebounced None (mkClock start 0 []).

(** ** The debounced selection handler (lines 421 and 500-502 of
    [src/unnamed/part_000], 269 and 338-340 of [src/code.js]) *)

Record Session := mkSession {
  ss_world : World;
  ss_handler : Debounced unit      (* [debouncedSelectionHandler] *)
}.

Definition startSession (start : Z) (w : World) : Session := mkSession w (debounce start).

(** Time passes until [time]: each timer due by then runs the handler. *)
Definition idle (handler : World -> World) (time : Z) (s : Session) : Session :=
  let '(ran, c) := runTimers time (db_clock (ss_handler s)) in
  mkSession (foldl (fun w _ => handler w) (ss_world s) ran)
            (mkDebounced (db_t (ss_handler s)) c).

(** The selection changes at [time]: the host sets it and fires
    [selectionchange], which calls the debounced handler. *)
Definition selectionChanged (handler : World -> World) (time : Z) (sel : list string)
    (s : Session) : Session :=
  let s1 := idle handler time s in
  mkSession (select sel (ss_world s1)) (debounced 200 tt (ss_handler s1)).

(** * Vocabulary of the further properties *)

(** ** The shape of a key *)

(** The runs of a key between its dots. *)
Fixpoint segments (key : list ascii) : list (list ascii) :=
  match key with
  | [] => [[]]
  | c :: rest =>
      if ascii_is "." c then [] :: segments rest
      else match segments rest with
           | seg :: segs => (c :: seg) :: segs
           | [] => [[c]]
           end
  end.

(** Non-empty runs of segment characters, separated by single dots. *)
Definition dottedKey (key : list ascii) : Prop :=
  Forall (fun seg => seg <> [] /\ Forall (fun c => segChar c = true) seg) (segments key).

(** The segments of a key after the first, each behind its dot. *)
Definition dotTail (segs : list (list ascii)) : list ascii :=
  concat (map (cons "."%char) segs).

(** Every key of the matches is a dotted key. *)
Definition dottedKeys (ms : list PMatch) : Prop :=
  Forall (fun m => dottedKey (chars (m_key m))) ms.

(** ** What a pass leaves in place *)

(** The net length change of the splices that end at or before [p]. *)
Definition shiftUpTo {A} (items : list (Splice A)) (p : Z) : Z :=
  sumZ (map spliceDelta (filter (fun it => sp_start it + sp_remove it <= p) items)).

(** The net length change of the actionable matches that end at or before
    the offset [p]. *)
Definition deltaUpTo (acts : list (PMatch * list ascii)) (p : Z) : Z :=
  sumZ (map netDelta (filter (fun a => m_start a.1 + m_len a.1 <= p) acts)).

(** ** The order of restoration *)

(** Numbers in non-increasing order. *)
Fixpoint NonIncreasing (l : list Z) : Prop :=
  match l with
  | [] => True
  | x :: rest => Forall (fun y => y <= x) rest /\ NonIncreasing rest
  end.

(** ** The nodes of a manual command *)

(** All the descendants of a node, in document order. *)
Definition descendants (n : PageNode) : list PageNode := findAll (fun _ => true) n.

(** The nodes the manual commands choose from: the selected nodes and their
    descendants, or every node of the page when nothing is selected or the
    selection is not to be used. *)
Definition candidates (page : PageNode) (w : World) (useSelectionOnly : bool)
  : list PageNode :=
  if useSelectionOnly && negb (Nat.eqb (List.length (w_selection w)) 0) then
    flat_map (fun item => item :: descendants item) (selectionNodes page w)
  else descendants page.

(** A pass on the text node of the page node [n], in the world [w]; a node
    that is no text node is left alone. *)
Definition passOn {A} (pass : M A) (w : World) (n : PageNode) : World :=
  match w_nodes w !! nodeId n with
  | Some (TextN t) => runOnNode (nodeId n) t pass w
  | _ => w
  end.

(** The world after the passes on the nodes, one after the other. *)
Definition afterPasses {A} (pass : M A) (nodes : list PageNode) (w : World) : World :=
  foldl (passOn pass) w nodes.

(** ** Calls of a debounced function *)

(** The debounced function called at the given times with the given
    arguments; [fired] collects the calls of [fn] the timers make, each with
    its time. *)
Fixpoint callsAt {A} (wait : Z) (calls : list (Z * A)) (d : Debounced A)
    (fired : list (Z * A)) : Debounced A * list (Z * A) :=
  match calls with
  | [] => (d, fired)
  | (time, a) :: rest =>
      let '(ran, c) := runTimers time (db_clock d) in
      callsAt wait rest (debounced wait a (mkDebounced (db_t d) c)) (fired ++ ran)
  end.

(** The calls of [fn] up to the time [horizon]. *)
Definition firedBy {A} (wait : Z) (calls : list (Z * A)) (start horizon : Z) : list (Z * A) :=
  let '(d, fired) := callsAt wait calls (debounce start) [] in
  fired ++ fst (runTimers horizon (db_clock d)).

(** A call goes through when the next call, or the horizon, comes no earlier
    than [wait] after it. *)
Fixpoint settled {A} (wait : Z) (calls : list (Z * A)) (horizon : Z) : list (Z * A) :=
  match calls with
  | [] => []
  | (time, a) :: rest =>
      let next := match rest with (time', _) :: _ => time' | [] => horizon end in
      (if time + wait <=? next then [(time + wait, a)] else []) ++ settled wait rest horizon
  end.

(** At most one timer of the closure is pending, and [t] holds its id. *)
Definition oneTimer {A} (d : Debounced A) : Prop :=
  clk_pending (db_clock d) = []
  \/ exists x, clk_pending (db_clock d) = [x] /\ db_t d = Some (tm_id x) /\ tm_id x <> O.

(** The time of the next call, or the horizon after the last. *)
Definition nextTime {A} (calls : list (Z * A)) (horizon : Z) : Z :=
  match calls with
  | (time, _) :: _ => time
  | [] => horizon
  end.

(** The selection changes of a session, in their order. *)
Fixpoint selectionsAt (handler : World -> World) (changes : list (Z * list string))
    (s : Session) : Session :=
  match changes with
  | [] => s
  | (time, sel) :: rest => selectionsAt handler rest (selectionChanged handler time sel s)
  end.

(** ** What a pass leaves of the host *)

(** A computation that changes nothing of the host but the characters of
    the node. *)
Definition charsOnly {A} (c : M A) : Prop :=
  forall e, exists cs, snd (c e) = withChars e cs.

(** * Properties *)

Example scan_tracked_1 :
  Tracked.scan (chars "hi @a.b. @icon/x") =
  [mkMatch "a.b" 3 4 (chars "@a.b"); mkMatch "icon/x" 9 7 (chars "@icon/x")].
Proof. reflexivity. Qed.

Example scan_whole_1 :
  WholeText.scan (chars "hi @a.b. @icon/x") =
  [mkMatch "a.b." 3 5 (chars "@a.b."); mkMatch "icon/x" 9 7 (chars "@icon/x")].
Proof. reflexivity. Qed.



(** ** Passes that never touch the node *)

Ltac unfold_m :=
  repeat progress
    (unfold readNodeBackup, clearNodeBackup, bind, ret, throw, tryCatch, get, put,
       getPluginData, setPluginData, getCharacters in *; cbv beta in * ).

Lemma loadEach_keeps fs :
  keepsNode (forEach (fun f => tryCatch (loadFontAsync f) (ret tt)) fs).
Proof.
  induction fs as [|f fs IH]; intros e.
  - exists tt, e. by repeat split.
  - cbn [forEach]. unfold bind at 1. unfold tryCatch at 1. unfold loadFontAsync at 1.
    destruct (bool_decide (f ∈ e_available e)); [|apply IH].
    destruct (bool_decide (f ∈ e_loaded e)) eqn:Hl; [apply IH|].
    destruct (IH (withLoaded e (f :: e_loaded e))) as (a & e' & -> & Hn & Ha & Hc & Hv & Hf).
    exists a, e'. repeat split; try done.
    intros g Hg. apply Hf. simpl. by apply list_elem_of_further.
Qed.

Lemma safeLoadFonts_keeps fs : keepsNode (safeLoadFonts fs).
Proof.
  intros e. unfold safeLoadFonts. unfold tryCatch at 1.
  destruct (loadEach_keeps (uniqueFonts [] fs) e) as (a & e' & -> & H). by exists a, e'.
Qed.

Lemma safeLoadFontsForNode_keeps : keepsNode safeLoadFontsForNode.
Proof.
  intros e. unfold safeLoadFontsForNode, tryCatch, bind, get.
  destruct (safeLoadFonts_keeps (List.filter namedFont (segmentFonts (e_node e))) e)
    as (a & e' & -> & H).
  by exists a, e'.
Qed.

(** ** What the font loaders load *)

Lemma uniqueFonts_gen fonts : forall seen,
  NoDup (map fontKey (uniqueFonts seen fonts))
  /\ sublist (uniqueFonts seen fonts) fonts
  /\ (forall f, f ∈ uniqueFonts seen fonts <->
        (fontKey f ∉ seen)
        /\ find (fun g => bool_decide (fontKey g = fontKey f)) fonts = Some f).
Proof.
  induction fonts as [|g fonts IH]; intros seen; cbn [uniqueFonts].
  - split; [constructor|]. split; [done|]. intros f. split; [by intros ?%elem_of_nil|].
    by intros [_ ?].
  - destruct (decide (fontKey g ∈ seen)) as [Hg|Hg].
    + rewrite bool_decide_eq_true_2 by done.
      destruct (IH seen) as (Hnd & Hsub & Hiff).
      split; [done|]. split; [by apply sublist_cons|].
      intros f. rewrite Hiff. cbn [find]. split.
      * intros [Hf Hfind]. split; [done|].
        rewrite bool_decide_eq_false_2; [done|]. by intros Heq; rewrite Heq in Hg.
      * intros [Hf Hfind]. split; [done|].
        rewrite bool_decide_eq_false_2 in Hfind; [done|]. by intros Heq; rewrite Heq in Hg.
    + rewrite bool_decide_eq_false_2 by done.
      destruct (IH (fontKey g :: seen)) as (Hnd & Hsub & Hiff).
      split; [|split; [by apply sublist_skip|]].
      * cbn [map]. constructor; [|done].
        rewrite list_elem_of_fmap. intros (f & Hk & Hf). apply Hiff in Hf as [Hf _].
        apply Hf. rewrite <- Hk. left.
      * intros f. rewrite elem_of_cons, Hiff. cbn [find]. split.
        -- intros [->|[Hf Hfind]].
           ++ split; [done|]. by rewrite bool_decide_eq_true_2.
           ++ apply not_elem_of_cons in Hf as [Hne Hf]. split; [done|].
              by rewrite bool_decide_eq_false_2.
        -- intros [Hf Hfind]. destruct (decide (fontKey g = fontKey f)) as [Heq|Hne].
           ++ rewrite bool_decide_eq_true_2 in Hfind by done. left. by injection Hfind.
           ++ rewrite bool_decide_eq_false_2 in Hfind by done. right.
              split; [|done]. apply not_elem_of_cons. split; [congruence|done].
Qed.

Lemma withLoaded_id e : withLoaded e (e_loaded e) = e.
Proof. by destruct e. Qed.

Lemma loadEach_spec us : forall e,
  exists e',
    forEach (fun f => tryCatch (loadFontAsync f) (ret tt)) us e = (Ok tt, e')
    /\ e' = withLoaded e (e_loaded e')
    /\ (forall f, f ∈ e_loaded e' <-> f ∈ e_loaded e \/ (f ∈ us /\ f ∈ e_available e)).
Proof.
  induction us as [|u us IH]; intros e.
  - exists e. split; [done|]. split; [by rewrite withLoaded_id|].
    intros f. split; [by left|]. intros [H|[H _]]; [done|by apply elem_of_nil in H].
  - cbn [forEach]. unfold bind at 1. unfold tryCatch at 1. unfold loadFontAsync at 1.
    destruct (decide (u ∈ e_available e)) as [Hu|Hu].
    + rewrite bool_decide_eq_true_2 by done.
      destruct (decide (u ∈ e_loaded e)) as [Hl|Hl].
      * rewrite bool_decide_eq_true_2 by done.
        destruct (IH e) as (e' & Hrun & He & Hiff). exists e'.
        split; [done|]. split; [done|]. intros f. rewrite Hiff, elem_of_cons.
        split; [intros [H|[H1 H2]]; auto|].
        intros [H|[[->|H1] H2]]; auto.
      * rewrite bool_decide_eq_false_2 by done.
        destruct (IH (withLoaded e (u :: e_loaded e))) as (e' & Hrun & He & Hiff).
        exists e'. split; [done|]. split; [by rewrite He at 1|].
        intros f. rewrite Hiff. cbn [withLoaded e_loaded e_available]. rewrite !elem_of_cons.
        split; [intros [[->|H]|[H1 H2]]; auto|].
        intros [H|[[->|H1] H2]]; auto.
    + rewrite bool_decide_eq_false_2 by done. unfold ret at 1.
      destruct (IH e) as (e' & Hrun & He & Hiff). exists e'.
      split; [done|]. split; [done|]. intros f. rewrite Hiff, elem_of_cons.
      split; [intros [H|[H1 H2]]; auto|].
      intros [H|[[->|H1] H2]]; auto. done.
Qed.

Lemma find_first {A} (f : A -> bool) l x :
  x ∈ l -> f x = true -> exists y, find f l = Some y /\ y ∈ l /\ f y = true.
Proof.
  intros Hin Hx. destruct (find f l) as [y|] eqn:Hfind.
  - destruct (find_some _ _ Hfind) as [Hy Hfy]. apply list_elem_of_In in Hy. by exists y.
  - apply list_elem_of_In in Hin. by rewrite (find_none _ _ Hfind x Hin) in Hx.
Qed.

Lemma safeLoadFonts_spec fonts e :
  exists e',
    safeLoadFonts fonts e = (Ok tt, e')
    /\ e' = withLoaded e (e_loaded e')
    /\ (forall f, f ∈ e_loaded e' <->
          f ∈ e_loaded e \/ (f ∈ e_available e /\ f ∈ uniqueFonts [] fonts)).
Proof.
  unfold safeLoadFonts. unfold tryCatch at 1.
  destruct (loadEach_spec (uniqueFonts [] fonts) e) as (e' & -> & He & Hiff).
  exists e'. split; [done|]. split; [done|]. intros f. rewrite Hiff. tauto.
Qed.

Lemma safeLoadFontsForNode_spec e :
  exists e',
    safeLoadFontsForNode e = (Ok tt, e')
    /\ e' = withLoaded e (e_loaded e')
    /\ (forall f, f ∈ e_loaded e' <->
          f ∈ e_loaded e \/ (f ∈ e_available e /\ f ∈ fontsToLoad (e_node e))).
Proof.
  unfold safeLoadFontsForNode. unfold tryCatch at 1. unfold bind, get.
  destruct (safeLoadFonts_spec (List.filter namedFont (segmentFonts (e_node e))) e)
    as (e' & -> & He & Hiff).
  by exists e'.
Qed.

(** A font is among the fonts asked for when no other font of the list has
    its key. *)
Lemma uniqueFonts_elem fonts f :
  f ∈ fonts -> (forall g, g ∈ fonts -> fontKey g = fontKey f -> g = f) ->
  f ∈ uniqueFonts [] fonts.
Proof.
  intros Hf Hinj. apply (uniqueFonts_gen fonts []). split; [apply not_elem_of_nil|].
  destruct (find_first (fun g => bool_decide (fontKey g = fontKey f)) fonts f Hf)
    as (g & -> & Hg & Hk); [by apply bool_decide_eq_true_2|].
  apply bool_decide_eq_true in Hk. f_equal. by apply Hinj.
Qed.

Lemma namedFont_true f :
  namedFont f = true <-> family f <> ""%string /\ style f <> ""%string.
Proof.
  unfold namedFont. rewrite andb_true_iff, !negb_true_iff, !bool_decide_eq_false. tauto.
Qed.

(** ** Facts on splicing *)

Section SpliceFacts.
Context {A : Type}.
Implicit Types (l cs : list A) (items : list (Splice A)) (spans : list (Z * Z)).

Lemma zlen_app l1 l2 : zlen (l1 ++ l2) = zlen l1 + zlen l2.
Proof. unfold zlen. rewrite length_app. lia. Qed.

Lemma zlen_nonneg l : 0 <= zlen l.
Proof. unfold zlen. lia. Qed.

Lemma Ascending_bound q spans len : Ascending q spans len -> 0 <= q <= len.
Proof.
  revert q. induction spans as [|[s r] rest IH]; simpl; intros q H; [done|].
  destruct H as (Hq & Hr & H). apply IH in H. lia.
Qed.

Lemma Ascending_weaken q q' spans len :
  0 <= q' <= q -> Ascending q spans len -> Ascending q' spans len.
Proof. destruct spans as [|[s r] rest]; simpl; intros; intuition lia. Qed.

Lemma slice_split (a b c : Z) cs :
  0 <= a <= b -> b <= c -> slice a c cs = slice a b cs ++ slice b c cs.
Proof.
  intros Hab Hbc. unfold slice.
  replace (Z.to_nat c - Z.to_nat a)%nat
    with ((Z.to_nat b - Z.to_nat a) + (Z.to_nat c - Z.to_nat b))%nat by lia.
  rewrite <- take_take_drop. f_equal. rewrite drop_drop.
  do 2 f_equal. lia.
Qed.

Lemma slice_from_0 (b : Z) cs : slice 0 b cs = take (Z.to_nat b) cs.
Proof. unfold slice. simpl. rewrite drop_0. f_equal. lia. Qed.

Lemma slice_to_end (a : Z) cs : 0 <= a -> slice a (zlen cs) cs = drop (Z.to_nat a) cs.
Proof.
  intros Ha. unfold slice, zlen. apply take_ge. rewrite length_drop. lia.
Qed.

(** Right-to-left splicing keeps the text before the first item and builds
    the rest as the left-to-right loop does. *)
Lemma foldr_splice_rebuild items : forall q cs,
  Ascending q (map span items) (zlen cs) ->
  foldr spliceList cs items = take (Z.to_nat q) cs ++ rebuildFrom cs q items.
Proof.
  induction items as [|it rest IH]; intros q cs H; simpl in *.
  - rewrite slice_to_end by lia. by rewrite take_drop.
  - destruct H as (Hq & Hr & H).
    pose proof (Ascending_bound _ _ _ H) as Hb.
    rewrite (IH _ _ H). unfold spliceList.
    assert (Hlen : List.length (take (Z.to_nat (sp_start it + sp_remove it)) cs)
                   = Z.to_nat (sp_start it + sp_remove it)).
    { rewrite length_take. unfold zlen in Hb. lia. }
    rewrite take_app_le by lia.
    rewrite take_take. rewrite drop_app_length' by done.
    replace (Z.to_nat (sp_start it) `min` Z.to_nat (sp_start it + sp_remove it))%nat
      with (Z.to_nat (sp_start it)) by lia.
    rewrite <- (slice_from_0 (sp_start it)).
    rewrite (slice_split 0 q (sp_start it)) by lia.
    rewrite slice_from_0. by rewrite <- app_assoc.
Qed.

Corollary foldr_splice_rebuild_0 items cs :
  Ascending 0 (map span items) (zlen cs) ->
  foldr spliceList cs items = rebuildFrom cs 0 items.
Proof. intros H. by rewrite (foldr_splice_rebuild _ 0 cs H). Qed.

Lemma foldr_splice_length items : forall q cs,
  Ascending q (map span items) (zlen cs) -> q <= zlen (foldr spliceList cs items).
Proof.
  intros q cs H. rewrite (foldr_splice_rebuild _ q cs H), zlen_app.
  pose proof (Ascending_bound _ _ _ H). pose proof (zlen_nonneg (rebuildFrom cs q items)).
  unfold zlen at 1. rewrite length_take. unfold zlen in *. lia.
Qed.

End SpliceFacts.

(** ** The host calls on a text split as [A ++ P ++ B] *)

Lemma zlen_styled f s : zlen (styled f s) = zlen s.
Proof. unfold zlen, styled. by rewrite length_map. Qed.

Lemma zlen_plain (cs : Styled) : zlen (plain cs) = zlen cs.
Proof. unfold zlen, plain. by rewrite length_map. Qed.

Lemma plain_styled f s : plain (styled f s) = s.
Proof.
  unfold plain, styled. rewrite map_map. simpl. apply map_id.
Qed.

Lemma plain_app (a b : Styled) : plain (a ++ b) = plain a ++ plain b.
Proof. apply map_app. Qed.

Lemma to_nat_zlen {A} (l : list A) : Z.to_nat (zlen l) = List.length l.
Proof. unfold zlen. lia. Qed.

Lemma inRange_true a b len : 0 <= a -> a <= b -> b <= len -> inRange a b len = true.
Proof. intros. unfold inRange. repeat (apply andb_true_intro; split); lia. Qed.

Lemma insert_at e (A B : Styled) start s :
  n_chars (e_node e) = A ++ B -> start = zlen A ->
  insertCharacters start s e
  = (Ok tt, withChars e (A ++ styled (styleBefore (n_base (e_node e)) (A ++ B)
                                        (List.length A)) s ++ B)).
Proof.
  intros Hc ->. unfold insertCharacters. rewrite Hc.
  rewrite inRange_true; [|apply zlen_nonneg|lia|rewrite zlen_app; pose proof (zlen_nonneg B); lia].
  rewrite to_nat_zlen, take_app_length, drop_app_length. done.
Qed.

Lemma setRange_at e (A V B : Styled) start stop f :
  n_chars (e_node e) = A ++ V ++ B -> start = zlen A -> stop = zlen A + zlen V ->
  V <> [] -> f ∈ e_loaded e ->
  setRangeFontName start stop f e = (Ok tt, withChars e (A ++ styled f (plain V) ++ B)).
Proof.
  intros Hc -> -> Hv Hf. unfold setRangeFontName. rewrite Hc.
  assert (0 < zlen V) by (destruct V; [done|unfold zlen; simpl; lia]).
  rewrite inRange_true;
    [|apply zlen_nonneg|lia|rewrite !zlen_app; pose proof (zlen_nonneg B); lia].
  replace (zlen A <? zlen A + zlen V) with true by (symmetry; apply Z.ltb_lt; lia).
  rewrite bool_decide_eq_true_2 by done. simpl.
  unfold slice.
  replace (Z.to_nat (zlen A + zlen V)) with (List.length A + List.length V)%nat
    by (unfold zlen; lia).
  rewrite to_nat_zlen, take_app_length, drop_app_length.
  replace (List.length A + List.length V - List.length A)%nat with (List.length V) by lia.
  rewrite take_app_length. rewrite (app_assoc A V B), drop_app_length'; [done|].
  by rewrite length_app.
Qed.

Lemma setRange_unloaded e start stop f :
  f ∉ e_loaded e -> setRangeFontName start stop f e = (Throw, e).
Proof.
  intros Hf. unfold setRangeFontName.
  rewrite (bool_decide_eq_false_2 _ Hf). by rewrite andb_false_r.
Qed.

Lemma setRange_empty e start stop f :
  stop <= start -> setRangeFontName start stop f e = (Throw, e).
Proof.
  intros H. unfold setRangeFontName.
  replace (start <? stop) with false by (symmetry; apply Z.ltb_ge; lia).
  by rewrite andb_false_r.
Qed.

Lemma delete_at e (A P B : Styled) start stop :
  n_chars (e_node e) = A ++ P ++ B -> start = zlen A -> stop = zlen A + zlen P ->
  deleteCharacters start stop e = (Ok tt, withChars e (A ++ B)).
Proof.
  intros Hc -> ->. unfold deleteCharacters. rewrite Hc.
  rewrite inRange_true;
    [|apply zlen_nonneg|pose proof (zlen_nonneg P); lia
     |rewrite !zlen_app; pose proof (zlen_nonneg B); lia].
  replace (Z.to_nat (zlen A + zlen P)) with (List.length A + List.length P)%nat
    by (unfold zlen; lia).
  rewrite to_nat_zlen, take_app_length.
  rewrite (app_assoc A P B), drop_app_length'; [done|]. by rewrite length_app.
Qed.

(** Splitting a text at a valid range. *)
Lemma split_range {A} (cs : list A) (start len : Z) :
  0 <= start -> 0 <= len -> start + len <= zlen cs ->
  cs = take (Z.to_nat start) cs ++ slice start (start + len) cs
         ++ drop (Z.to_nat (start + len)) cs
  /\ zlen (take (Z.to_nat start) cs) = start
  /\ zlen (slice start (start + len) cs) = len.
Proof.
  intros Hs Hl Hb. unfold zlen in *. split; [|split].
  - unfold slice.
    replace (Z.to_nat (start + len)) with (Z.to_nat start + Z.to_nat len)%nat by lia.
    replace (Z.to_nat start + Z.to_nat len - Z.to_nat start)%nat with (Z.to_nat len) by lia.
    rewrite <- (drop_drop cs (Z.to_nat len) (Z.to_nat start)).
    by rewrite !take_drop.
  - rewrite length_take. lia.
  - unfold slice. rewrite length_take, length_drop. lia.
Qed.

(** ** Restoration: one-shot, and the empty record list *)

Lemma withData_chars e d : n_chars (e_node (withData e d)) = n_chars (e_node e).
Proof. reflexivity. Qed.

(** C10. A backup whose [replacements] is an empty array takes the
    record-driven path even when [original] is present: the text stays as it
    is, the backup is cleared and the pass reports [restored = true]. *)
Theorem restore_empty_records (e : Env) (b : Backup) :
  n_data (e_node e) = Some b ->
  b_replacements b = Some [] ->
  exists e', Tracked.restorePlaceholdersInNode e = (Ok true, e')
             /\ n_chars (e_node e') = n_chars (e_node e)
             /\ n_data (e_node e') = None.
Proof.
  intros Hd Hr. unfold Tracked.restorePlaceholdersInNode.
  unfold_m. rewrite Hd.
  destruct (safeLoadFontsForNode_keeps e) as (a & e1 & -> & Hn & _).
  rewrite Hr. cbv beta iota.
  change (omap r_originalFont (Tracked.sortDesc [])) with (@nil Font).
  destruct (safeLoadFonts_keeps [] e1) as (a2 & e2 & -> & Hn2 & _).
  eexists. split; [reflexivity|]. simpl. by rewrite Hn2, Hn.
Qed.

Lemma restore_empty_records_witness :
  exists e',
    Tracked.restorePlaceholdersInNode
      (mkEnv (mkNode (styled Inter (chars "hello")) Inter
                     (Some (mkBackup (chars "@a") ∅ "Keywords" (Some []))))
             [Inter] [Inter] [keywords] [])
    = (Ok true, e')
    /\ n_chars (e_node e') = styled Inter (chars "hello")
    /\ n_data (e_node e') = None.
Proof.
  apply (restore_empty_records
           (mkEnv (mkNode (styled Inter (chars "hello")) Inter
                          (Some (mkBackup (chars "@a") ∅ "Keywords" (Some []))))
                  [Inter] [Inter] [keywords] [])
           (mkBackup (chars "@a") ∅ "Keywords" (Some []))); reflexivity.
Defined.


(** ** One replacement, one restoration *)

Lemma applyOp_at cfg il op e (A P B : Styled) :
  n_chars (e_node e) = A ++ P ++ B ->
  Tracked.o_start op = zlen A -> Tracked.o_removeLen op = zlen P ->
  (il = true -> Tracked.iconFont cfg ∈ e_loaded e) ->
  Tracked.applyOp cfg il op e
  = (Ok tt, withChars e
      (A ++ styled (chooseOp (Tracked.iconFont cfg) il (e_loaded e)
                      (styleBefore (n_base (e_node e)) (A ++ P ++ B) (List.length A)) op)
              (Tracked.o_insertText op) ++ B)).
Proof.
  intros Hc Hs Hr Hil. unfold Tracked.applyOp, chooseOp, opFont.
  set (v := Tracked.o_insertText op).
  set (f0 := styleBefore (n_base (e_node e)) (A ++ P ++ B) (List.length A)).
  destruct (0 <? zlen v) eqn:Hv.
  - assert (Hne : styled f0 v <> []).
    { apply Z.ltb_lt in Hv. destruct v; [unfold zlen in Hv; simpl in Hv; lia|done]. }
    unfold bind at 1. unfold bind at 1.
    rewrite (insert_at e A (P ++ B) _ v Hc Hs). fold f0.
    set (e1 := withChars e (A ++ styled f0 v ++ P ++ B)).
    assert (Hc1 : n_chars (e_node e1) = A ++ styled f0 v ++ P ++ B) by done.
    assert (Hdel : forall F (e2 : Env),
               n_chars (e_node e2) = A ++ styled F v ++ P ++ B ->
               deleteCharacters (Tracked.o_start op + zlen v) (Tracked.o_start op + zlen v + Tracked.o_removeLen op) e2
               = (Ok tt, withChars e2 (A ++ styled F v ++ B))).
    { intros F e2 H2.
      rewrite (delete_at e2 (A ++ styled F v) P B); [by rewrite <- app_assoc|
        by rewrite <- app_assoc|rewrite zlen_app, zlen_styled; lia
        |rewrite zlen_app, zlen_styled; lia]. }
    destruct (Tracked.o_isIcon op && il) eqn:Hicon.
    + apply andb_true_iff in Hicon as [_ ->].
      rewrite (setRange_at e1 A (styled f0 v) (P ++ B));
        [|done|done|rewrite zlen_styled; lia|done|by apply Hil].
      rewrite plain_styled. rewrite (Hdel (Tracked.iconFont cfg)) by done. done.
    + destruct (Tracked.o_originalFont op) as [f|].
      * unfold tryCatch. destruct (decide (f ∈ e_loaded e)) as [Hf|Hf].
        -- rewrite (setRange_at e1 A (styled f0 v) (P ++ B));
             [|done|done|rewrite zlen_styled; lia|done|done].
           rewrite plain_styled, bool_decide_eq_true_2 by done.
           unfold ret. rewrite (Hdel f) by done. done.
        -- rewrite setRange_unloaded by done.
           rewrite bool_decide_eq_false_2 by done.
           unfold ret. rewrite (Hdel f0) by done. done.
      * unfold ret. rewrite (Hdel f0) by done. done.
  - assert (v = []) as Hnil.
    { apply Z.ltb_ge in Hv. destruct v; [done|unfold zlen in Hv; simpl in Hv; lia]. }
    rewrite Hnil. unfold bind, ret.
    rewrite (delete_at e A P B); [|done|unfold zlen at 1; simpl; lia
                                 |unfold zlen at 1; simpl; lia].
    done.
Qed.

Lemma restoreOne_at rep e (A P B : Styled) :
  n_chars (e_node e) = A ++ P ++ B ->
  r_start rep = zlen A -> r_len rep = zlen P ->
  Tracked.restoreOne rep e
  = (Ok tt, withChars e
      (A ++ styled (chooseRec (e_loaded e)
                      (styleBefore (n_base (e_node e)) (A ++ P ++ B) (List.length A)) rep)
              (r_originalText rep) ++ B)).
Proof.
  intros Hc Hs Hr. unfold Tracked.restoreOne, chooseRec, opFont. cbn [andb].
  set (t := r_originalText rep).
  set (f0 := styleBefore (n_base (e_node e)) (A ++ P ++ B) (List.length A)).
  unfold bind at 1. rewrite (insert_at e A (P ++ B) _ t Hc Hs). fold f0.
  set (e1 := withChars e (A ++ styled f0 t ++ P ++ B)).
  assert (Hdel : forall F (e2 : Env),
             n_chars (e_node e2) = A ++ styled F t ++ P ++ B ->
             deleteCharacters (r_start rep + zlen t) (r_start rep + zlen t + r_len rep) e2
             = (Ok tt, withChars e2 (A ++ styled F t ++ B))).
  { intros F e2 H2.
    rewrite (delete_at e2 (A ++ styled F t) P B); [by rewrite <- app_assoc|
      by rewrite <- app_assoc|rewrite zlen_app, zlen_styled; lia
      |rewrite zlen_app, zlen_styled; lia]. }
  unfold bind at 1.
  destruct (r_originalFont rep) as [f|].
  - unfold tryCatch. destruct (decide (t = [])) as [Ht|Ht].
    + rewrite setRange_empty by (rewrite Ht; unfold zlen; simpl; lia).
      unfold ret. rewrite (Hdel f0) by done. rewrite Ht.
      by destruct (bool_decide _).
    + destruct (decide (f ∈ e_loaded e)) as [Hf|Hf].
      * rewrite (setRange_at e1 A (styled f0 t) (P ++ B));
          [|done|done|rewrite zlen_styled; lia|by destruct t|done].
        rewrite plain_styled, bool_decide_eq_true_2 by done.
        rewrite (Hdel f) by done. done.
      * rewrite setRange_unloaded by done.
        rewrite bool_decide_eq_false_2 by done.
        unfold ret. rewrite (Hdel f0) by done. done.
  - unfold ret. rewrite (Hdel f0) by done. done.
Qed.

(** ** A loop of replacements from the last item to the first *)

Lemma withChars_id e : withChars e (n_chars (e_node e)) = e.
Proof. by destruct e as [[] ? ? ? ?]. Qed.

Lemma forEach_app {X} (step : X -> M unit) l1 l2 e :
  forEach step (l1 ++ l2) e
  = match forEach step l1 e with
    | (Ok _, e') => forEach step l2 e'
    | (Throw, e') => (Throw, e')
    end.
Proof.
  revert e. induction l1 as [|x l1 IH]; intros e; simpl; [done|].
  unfold bind. destruct (step x e) as [[[]|] e']; [apply IH|done].
Qed.

Section RightToLeft.
Context {X : Type} (step : X -> M unit) (spanOf : X -> Z * Z) (insOf : X -> list ascii)
  (choose : list Font -> Font -> X -> Font) (pre : list Font -> Prop).

Hypothesis step_at : forall x e (A P B : Styled),
  n_chars (e_node e) = A ++ P ++ B ->
  fst (spanOf x) = zlen A -> snd (spanOf x) = zlen P -> pre (e_loaded e) ->
  exists inh,
    step x e = (Ok tt, withChars e (A ++ styled (choose (e_loaded e) inh x) (insOf x) ++ B)).

Lemma span_hostSplices loaded xs : forall inhs,
  List.length inhs = List.length xs ->
  map span (zip_with (hostSplice spanOf insOf choose loaded) xs inhs) = map spanOf xs.
Proof.
  induction xs as [|x xs IH]; intros [|i inhs] Hl; simpl in *; try done.
  rewrite IH by lia. unfold span at 1. simpl. by destruct (spanOf x).
Qed.

Lemma forEach_rev_splices xs : forall q e,
  Ascending q (map spanOf xs) (zlen (n_chars (e_node e))) ->
  pre (e_loaded e) ->
  exists inhs,
    List.length inhs = List.length xs
    /\ forEach step (rev xs) e
       = (Ok tt, withChars e
            (foldr spliceList (n_chars (e_node e))
               (zip_with (hostSplice spanOf insOf choose (e_loaded e)) xs inhs))).
Proof.
  induction xs as [|x xs IH]; intros q e Hasc Hpre.
  - exists []. split; [done|]. simpl. by rewrite withChars_id.
  - simpl in Hasc. destruct (spanOf x) as [s r] eqn:Hx.
    destruct Hasc as (Hq & Hr & Hasc).
    destruct (IH _ e Hasc Hpre) as (inhs & Hlen & Hrun).
    simpl. rewrite forEach_app, Hrun.
    set (cs := n_chars (e_node e)) in *.
    set (cs' := foldr spliceList cs _) in *.
    assert (Hb : s + r <= zlen cs').
    { apply foldr_splice_length. by rewrite span_hostSplices. }
    destruct (split_range cs' s r) as (Hsplit & HA & HP); [lia..|].
    destruct (step_at x (withChars e cs') _ _ _ Hsplit) as (inh & Hstep);
      [by rewrite Hx, HA|by rewrite Hx, HP|done|].
    exists (inh :: inhs). split; [simpl; lia|].
    simpl. unfold bind. rewrite Hstep. unfold ret.
    unfold hostSplice at 1, spliceList at 1. simpl. by rewrite Hx.
Qed.

End RightToLeft.

(** ** The scanner: matches ascend, do not overlap and quote the text *)

Lemma Ascending_all q spans len :
  Ascending q spans len ->
  forall s r, (s, r) ∈ spans -> q <= s /\ 0 <= r /\ s + r <= len.
Proof.
  revert q. induction spans as [|[s0 r0] rest IH]; intros q H s r Hin.
  - by apply elem_of_nil in Hin.
  - simpl in H. destruct H as (Hq & Hr & H).
    pose proof (Ascending_bound _ _ _ H).
    apply elem_of_cons in Hin as [[= -> ->]|Hin]; [lia|].
    destruct (IH _ H _ _ Hin). lia.
Qed.

Lemma Ascending_shift_eq q q' spans len len' :
  q = q' -> len = len' -> Ascending q spans len -> Ascending q' spans len'.
Proof. by intros -> ->. Qed.

Section ExecLoop.
Context (matchAt : list ascii -> option (list ascii * nat)).
Hypothesis matchAt_bound : forall s key n,
  matchAt s = Some (key, n) -> (1 <= n <= List.length s)%nat.

Lemma execLoop_ascending s : forall skip pos,
  0 <= pos -> (skip <= List.length s)%nat ->
  Ascending (pos + Z.of_nat skip) (map mspan (execLoop matchAt skip pos s)) (pos + zlen s).
Proof.
  induction s as [|c s IH]; intros skip pos Hpos Hskip.
  - simpl in *. unfold zlen. simpl. lia.
  - destruct skip as [|k].
    + cbn [execLoop]. destruct (matchAt (c :: s)) as [[key n]|] eqn:Hm.
      * apply matchAt_bound in Hm. simpl in Hm.
        cbn [map mspan m_start m_len Ascending]. split; [lia|]. split; [lia|].
        eapply Ascending_shift_eq; [| |apply (IH (pred n) (pos + 1))];
          [lia|unfold zlen; simpl; lia|lia|lia].
      * eapply Ascending_weaken; [|eapply Ascending_shift_eq; [| |apply (IH O (pos + 1))]];
          [| reflexivity |unfold zlen; simpl; lia|lia|simpl; lia]. lia.
    + cbn [execLoop].
      eapply Ascending_shift_eq; [| |apply (IH k (pos + 1))];
        [lia|unfold zlen; simpl; lia|lia|simpl in Hskip; lia].
Qed.

Lemma execLoop_text s : forall skip pos m,
  0 <= pos -> (skip <= List.length s)%nat ->
  m ∈ execLoop matchAt skip pos s ->
  m_text m = slice (m_start m - pos) (m_start m - pos + m_len m) s /\ 1 <= m_len m.
Proof.
  induction s as [|c s IH]; intros skip pos m Hpos Hskip Hin.
  - by apply elem_of_nil in Hin.
  - assert (Hrec : forall k, (k <= List.length s)%nat ->
               m ∈ execLoop matchAt k (pos + 1) s ->
               m_text m = slice (m_start m - pos) (m_start m - pos + m_len m) (c :: s)
               /\ 1 <= m_len m).
    { intros k Hk Hm. destruct (IH k (pos + 1) m) as [Ht Hl]; [lia|done|done|].
      split; [|done]. rewrite Ht.
      pose proof (execLoop_ascending s k (pos + 1) ltac:(lia) Hk) as Hasc.
      destruct (Ascending_all _ _ _ Hasc (m_start m) (m_len m)) as (Hge & _ & _).
      { apply (list_elem_of_fmap_2 mspan) in Hm. done. }
      unfold slice.
      replace (Z.to_nat (m_start m - pos)) with (S (Z.to_nat (m_start m - (pos + 1)))) by lia.
      simpl. f_equal. lia. }
    destruct skip as [|k].
    + cbn [execLoop] in Hin. destruct (matchAt (c :: s)) as [[key n]|] eqn:Hm.
      * apply matchAt_bound in Hm. simpl in Hm.
        apply elem_of_cons in Hin as [->|Hin].
        -- cbn [m_text m_start m_len]. split; [|lia]. unfold slice.
           replace (Z.to_nat (pos - pos)) with O by lia. rewrite drop_0. f_equal. lia.
        -- apply (Hrec (pred n)); [lia|done].
      * apply (Hrec O); [lia|done].
    + cbn [execLoop] in Hin. apply (Hrec k); [simpl in Hskip; lia|done].
Qed.

End ExecLoop.

Lemma spanClass_app cls s : fst (spanClass cls s) ++ snd (spanClass cls s) = s.
Proof.
  induction s as [|c s IH]; simpl; [done|].
  destruct (cls c); [|done]. destruct (spanClass cls s) as [p r]. simpl in *. by f_equal.
Qed.

Lemma spanClass_length cls s p r :
  spanClass cls s = (p, r) -> (List.length p + List.length r = List.length s)%nat.
Proof.
  intros H. pose proof (spanClass_app cls s) as Ha. rewrite H in Ha. simpl in Ha.
  rewrite <- Ha, length_app. done.
Qed.

Lemma dotSegments_length fuel : forall s,
  (List.length (Tracked.dotSegments fuel s) <= List.length s)%nat.
Proof.
  induction fuel as [|fuel IH]; intros s; cbn [Tracked.dotSegments]; [simpl; lia|].
  destruct s as [|c s]; [simpl; lia|].
  destruct (ascii_is "." c); [|simpl; lia].
  destruct (spanClass segChar s) as [seg rest] eqn:Hs.
  apply spanClass_length in Hs.
  destruct seg as [|a seg]; [simpl; lia|].
  specialize (IH rest). simpl in *. rewrite length_app. lia.
Qed.

(** More fuel than the length of the input changes nothing. *)
Lemma dotSegments_fuel f1 : forall f2 s,
  (List.length s <= f1)%nat -> (List.length s <= f2)%nat ->
  Tracked.dotSegments f1 s = Tracked.dotSegments f2 s.
Proof.
  induction f1 as [|f1 IH]; intros f2 s H1 H2.
  - destruct s; [|simpl in H1; lia]. by destruct f2.
  - destruct s as [|c s]; [by destruct f2|].
    destruct f2 as [|f2]; [simpl in H2; lia|].
    cbn [Tracked.dotSegments]. destruct (ascii_is "." c); [|done].
    destruct (spanClass segChar s) as [seg rest] eqn:Hs.
    apply spanClass_length in Hs. destruct seg as [|a seg]; [done|].
    simpl in H1, H2, Hs. do 2 f_equal. apply IH; lia.
Qed.

Lemma whole_matchAt_bound s key n :
  WholeText.matchAt s = Some (key, n) -> (1 <= n <= List.length s)%nat.
Proof.
  unfold WholeText.matchAt. destruct s as [|c s]; [done|].
  destruct (ascii_is "@" c); [|done].
  destruct (spanClass keyChar s) as [k r] eqn:Hs. apply spanClass_length in Hs.
  destruct k as [|a k]; [done|]. intros [= <- <-]. simpl in *. lia.
Qed.

Lemma tracked_matchAt_bound s key n :
  Tracked.matchAt s = Some (key, n) -> (1 <= n <= List.length s)%nat.
Proof.
  unfold Tracked.matchAt. destruct s as [|c s]; [done|].
  destruct (ascii_is "@" c); [|done].
  destruct (spanClass segChar s) as [k r] eqn:Hs. apply spanClass_length in Hs.
  destruct k as [|a k]; [done|]. intros [= <- <-].
  pose proof (dotSegments_length (List.length r) r).
  simpl in *. rewrite length_app. lia.
Qed.

Lemma tracked_scan_ascending text :
  Ascending 0 (map mspan (Tracked.scan text)) (zlen text).
Proof.
  unfold Tracked.scan.
  apply (execLoop_ascending _ tracked_matchAt_bound text O 0); [lia|simpl; lia].
Qed.

Lemma tracked_scan_text text m :
  m ∈ Tracked.scan text ->
  m_text m = slice (m_start m) (m_start m + m_len m) text /\ 1 <= m_len m.
Proof.
  intros Hin.
  destruct (execLoop_text _ tracked_matchAt_bound text O 0 m) as [Ht Hl];
    [lia|simpl; lia|done|].
  split; [|done]. rewrite Ht. f_equal; lia.
Qed.

Lemma whole_scan_ascending text :
  Ascending 0 (map mspan (WholeText.scan text)) (zlen text).
Proof.
  unfold WholeText.scan.
  apply (execLoop_ascending _ whole_matchAt_bound text O 0); [lia|simpl; lia].
Qed.

(** ** The resolution loop reads the host and never changes it *)

Lemma resolveVariableValue_pure v consumer e :
  exists val, resolveVariableValue v consumer e = (Ok val, e).
Proof.
  unfold resolveVariableValue, tryCatch, throw, ret.
  destruct consumer, (v_resolveForConsumer v) as [[| |x]|]; eauto.
Qed.

Lemma resolveMatch_pure mm c e :
  Tracked.resolveMatch mm c e = (Ok (resolveIn c e mm), e).
Proof.
  unfold resolveIn. unfold Tracked.resolveMatch, bind, findStringVariable, ret.
  destruct (find _ (e_variables e)) as [v|]; [|done].
  destruct (resolveVariableValue_pure v true e) as [val ->]. done.
Qed.

Lemma captureFont_pure mm e :
  Tracked.captureFont mm e = (Ok (capturedFont e mm), e).
Proof.
  unfold capturedFont. unfold Tracked.captureFont, tryCatch, getRangeFontName, ret.
  destruct (inRange _ _ _ && _); [|done].
  by destruct (map snd _).
Qed.

Lemma resolveLoop_spec c ms : forall acc e,
  Tracked.resolveLoop c ms acc e
  = (Ok (Tracked.mkPass
           (snapshotOf (Tracked.p_snapshot acc) (actionable c e ms))
           (Tracked.p_replacements acc
              ++ recordsFrom e (Tracked.p_runningDelta acc) (actionable c e ms))
           (Tracked.p_ops acc ++ map (opOf e) (actionable c e ms))
           (Tracked.p_runningDelta acc + sumZ (map netDelta (actionable c e ms)))
           (hasIconOf (Tracked.p_hasIconReplacement acc) (actionable c e ms))), e).
Proof.
  induction ms as [|mm ms IH]; intros acc e.
  - simpl. unfold ret. rewrite !app_nil_r, Z.add_0_r. by destruct acc.
  - cbn [Tracked.resolveLoop]. unfold bind at 1. rewrite resolveMatch_pure.
    unfold actionable. cbn [omap list_omap].
    destruct (resolveIn c e mm) as [value|] eqn:Hv; cbn [fmap option_fmap option_map].
    + unfold bind at 1. rewrite captureFont_pure. rewrite IH. cbn.
      rewrite <- !app_assoc.
      do 2 f_equal. f_equal; try done.
      unfold sumZ, netDelta, actionable. cbn. lia.
    + apply IH.
Qed.

(** ** Undoing a list of splices *)

Section UndoFacts.
Context {A : Type}.
Implicit Types (cs X : list A) (items : list (Splice A)) (news : list (list A)).

Lemma zlen_slice (a b : Z) cs : 0 <= a <= b -> b <= zlen cs -> zlen (slice a b cs) = b - a.
Proof.
  intros Ha Hb. unfold zlen, slice in *. rewrite length_take, length_drop. lia.
Qed.

Lemma slice_app_r (a b : Z) X cs :
  zlen X <= a -> a <= b -> slice a b (X ++ cs) = slice (a - zlen X) (b - zlen X) cs.
Proof.
  intros Ha Hb. pose proof (zlen_nonneg X). unfold slice, zlen in *.
  rewrite drop_app_ge by lia. f_equal; [lia|f_equal; lia].
Qed.

Lemma slice_app_l (b : Z) X cs : b = zlen X -> slice 0 b (X ++ cs) = X.
Proof.
  intros ->. rewrite slice_from_0. unfold zlen.
  replace (Z.to_nat (Z.of_nat (List.length X))) with (List.length X) by lia.
  apply take_app_length.
Qed.

Lemma slice_middle (a b : Z) X V cs :
  a = zlen X -> b = zlen X + zlen V -> slice a b (X ++ V ++ cs) = V.
Proof.
  intros -> ->. pose proof (zlen_nonneg X). pose proof (zlen_nonneg V).
  rewrite slice_app_r by lia.
  replace (zlen X - zlen X) with 0 by lia. apply slice_app_l. lia.
Qed.

Lemma slice_drop (a : Z) cs : 0 <= a -> slice a (zlen cs) cs = drop (Z.to_nat a) cs.
Proof. apply slice_to_end. Qed.

(** Undoing rebuilds the original with the new insertions at the old spans. *)
Lemma undo_rebuild items : forall q off X cs news,
  Ascending q (map span items) (zlen cs) ->
  zlen X = q + off ->
  List.length news = List.length items ->
  Ascending (q + off) (map span (undoItems off items news))
            (zlen (X ++ rebuildFrom cs q items))
  /\ rebuildFrom (X ++ rebuildFrom cs q items) (q + off) (undoItems off items news)
     = rebuildFrom cs q (zip_with reinsert items news).
Proof.
  induction items as [|it rest IH]; intros q off X cs news Hasc HX Hlen.
  - destruct news; [|done]. simpl in *.
    pose proof (zlen_nonneg X).
    rewrite zlen_app. pose proof (zlen_nonneg (slice q (zlen cs) cs)). split; [lia|].
    rewrite <- HX. rewrite slice_app_r by lia.
    replace (zlen X - zlen X) with 0 by lia.
    replace (zlen X + zlen (slice q (zlen cs) cs) - zlen X)
      with (zlen (slice q (zlen cs) cs)) by lia.
    rewrite slice_from_0, to_nat_zlen. by rewrite take_ge.
  - destruct news as [|n ns]; [done|]. simpl in Hlen.
    cbn [map] in Hasc. unfold span at 1 in Hasc. cbn [Ascending] in Hasc.
    destruct Hasc as (Hq & Hr & Hasc).
    pose proof (Ascending_bound _ _ _ Hasc) as Hb.
    pose proof (zlen_nonneg X).
    cbn [undoItems rebuildFrom zip_with map].
    unfold span at 1. cbn [sp_start sp_remove sp_insert reinsert Ascending].
    assert (HG : zlen (slice q (sp_start it) cs) = sp_start it - q)
      by (apply zlen_slice; lia).
    pose proof (zlen_nonneg (sp_insert it)).
    generalize dependent (slice q (sp_start it) cs). intros G HG.
    generalize dependent (sp_insert it). intros V HV.
    destruct (IH (sp_start it + sp_remove it) (off + (zlen V - sp_remove it))
                 (X ++ G ++ V) cs ns Hasc) as [IHa IHr].
    { rewrite !zlen_app. lia. }
    { lia. }
    rewrite <- !app_assoc in IHa, IHr.
    split.
    + split; [lia|]. split; [lia|].
      eapply Ascending_shift_eq; [| |exact IHa]; [lia|done].
    + rewrite (slice_middle (q + off) (sp_start it + off) X G) by lia.
      f_equal. f_equal.
      rewrite <- IHr. f_equal. lia.
Qed.

(** Re-inserting what each span held gives the text back. *)
Lemma rebuild_identity items : forall q cs,
  Ascending q (map span items) (zlen cs) ->
  Forall (fun it => sp_insert it = slice (sp_start it) (sp_start it + sp_remove it) cs) items ->
  rebuildFrom cs q items = drop (Z.to_nat q) cs.
Proof.
  induction items as [|it rest IH]; intros q cs Hasc Hid.
  - simpl in *. apply slice_to_end. lia.
  - cbn [map] in Hasc. unfold span at 1 in Hasc. cbn [Ascending] in Hasc.
    destruct Hasc as (Hq & Hr & Hasc).
    pose proof (Ascending_bound _ _ _ Hasc) as Hb.
    apply Forall_cons in Hid as [Hit Hid].
    cbn [rebuildFrom]. rewrite (IH _ _ Hasc Hid), Hit.
    rewrite <- (slice_to_end (sp_start it + sp_remove it)) by lia.
    rewrite <- !slice_split by lia. apply slice_to_end. lia.
Qed.

End UndoFacts.

(** ** The substitution pass of the tracked variant *)

Lemma getOrCreate_frame name e :
  exists e1, getOrCreateCollection (orDefault DEFAULT_COLLECTION_NAME name) e
             = (Ok (chosenCollectionOf name e), e1)
    /\ e_node e1 = e_node e /\ e_loaded e1 = e_loaded e
    /\ e_available e1 = e_available e /\ e_variables e1 = e_variables e.
Proof.
  unfold chosenCollectionOf, getOrCreateCollection.
  destruct (find _ (e_collections e)); simpl; eauto 10.
Qed.

Lemma resolveIn_ext c e1 e mm :
  e_variables e1 = e_variables e -> resolveIn c e1 mm = resolveIn c e mm.
Proof.
  intros Hv. unfold resolveIn, Tracked.resolveMatch, bind, findStringVariable, ret.
  rewrite Hv. destruct (find _ (e_variables e)) as [v|]; [|done].
  unfold resolveVariableValue, tryCatch, throw, ret.
  by destruct (v_resolveForConsumer v) as [[| |x]|].
Qed.

Lemma capturedFont_ext e1 e mm :
  e_node e1 = e_node e -> capturedFont e1 mm = capturedFont e mm.
Proof.
  intros Hn. unfold capturedFont, Tracked.captureFont, tryCatch, getRangeFontName, ret.
  rewrite Hn. destruct (inRange _ _ _ && _); [|done]. by destruct (map snd _).
Qed.

Lemma actionable_ext c e1 e ms :
  e_variables e1 = e_variables e -> actionable c e1 ms = actionable c e ms.
Proof.
  intros Hv. unfold actionable. induction ms as [|mm ms IH]; [done|].
  cbn [omap list_omap]. by rewrite IH, (resolveIn_ext c e1 e mm Hv).
Qed.

Lemma recordsFrom_ext e1 e acts : forall delta,
  e_node e1 = e_node e -> recordsFrom e1 delta acts = recordsFrom e delta acts.
Proof.
  induction acts as [|a acts IH]; intros delta Hn; [done|].
  cbn [recordsFrom]. by rewrite IH, (capturedFont_ext e1 e _ Hn).
Qed.

Lemma opOf_ext e1 e acts :
  e_node e1 = e_node e -> map (opOf e1) acts = map (opOf e) acts.
Proof.
  intros Hn. apply map_ext. intros a. unfold opOf. by rewrite (capturedFont_ext e1 e _ Hn).
Qed.

(** The actionable matches are a selection of the scanned ones. *)
Lemma actionable_ascending c e ms : forall q len,
  Ascending q (map mspan ms) len ->
  Ascending q (map opSpan (map (opOf e) (actionable c e ms))) len.
Proof.
  induction ms as [|mm ms IH]; intros q len H; [done|].
  cbn [map] in H. unfold mspan at 1 in H. cbn [Ascending] in H.
  destruct H as (Hq & Hr & H). unfold actionable. cbn [omap list_omap].
  destruct (resolveIn c e mm) as [v|]; cbn [fmap option_fmap option_map].
  - cbn [map]. unfold opSpan at 1, opOf at 1. cbn. split; [done|]. split; [done|].
    by apply IH.
  - apply (Ascending_weaken (m_start mm + m_len mm)); [lia|]. by apply IH.
Qed.

Lemma actionable_elem c e ms mm v :
  (mm, v) ∈ actionable c e ms -> mm ∈ ms /\ resolveIn c e mm = Some v.
Proof.
  unfold actionable. rewrite list_elem_of_omap. intros (m' & Hin & Heq).
  destruct (resolveIn c e m') as [v'|] eqn:Hr; [|done].
  simpl in Heq. by injection Heq as -> ->.
Qed.


Lemma loadIconFont_spec cfg has e :
  exists e1, Tracked.loadIconFont cfg has e
             = (Ok (has && negb (bool_decide (Tracked.iconFontFamily cfg = ""%string))
                    && bool_decide (Tracked.iconFont cfg ∈ e_available e)), e1)
    /\ e_node e1 = e_node e /\ e_available e1 = e_available e
    /\ e_variables e1 = e_variables e /\ e_collections e1 = e_collections e
    /\ (forall f, f ∈ e_loaded e -> f ∈ e_loaded e1)
    /\ (has && negb (bool_decide (Tracked.iconFontFamily cfg = ""%string))
        && bool_decide (Tracked.iconFont cfg ∈ e_available e) = true ->
        Tracked.iconFont cfg ∈ e_loaded e1).
Proof.
  unfold Tracked.loadIconFont.
  destruct (has && negb (bool_decide (Tracked.iconFontFamily cfg = ""%string))).
  - unfold tryCatch, bind, loadFontAsync, ret.
    destruct (bool_decide (Tracked.iconFont cfg ∈ e_available e)); simpl.
    + destruct (bool_decide (Tracked.iconFont cfg ∈ e_loaded e)) eqn:Hl.
      * exists e. repeat split; try done. intros _. by apply bool_decide_eq_true in Hl.
      * eexists. split; [reflexivity|]. repeat split; simpl; try done.
        -- intros f Hf. by apply list_elem_of_further.
        -- intros _. apply list_elem_of_here.
    + exists e. by repeat split.
  - simpl. exists e. by repeat split.
Qed.

Lemma applyOp_step cfg il : forall x e (A P B : Styled),
  n_chars (e_node e) = A ++ P ++ B ->
  fst (opSpan x) = zlen A -> snd (opSpan x) = zlen P ->
  (il = true -> Tracked.iconFont cfg ∈ e_loaded e) ->
  exists inh,
    Tracked.applyOp cfg il x e
    = (Ok tt, withChars e (A ++ styled (chooseOp (Tracked.iconFont cfg) il (e_loaded e) inh x)
                                  (Tracked.o_insertText x) ++ B)).
Proof. intros x e A P B Hc Hs Hr Hil. eexists. by apply applyOp_at with (P := P). Qed.

Lemma replace_run cfg name e :
  exists e1, e_node e1 = e_node e /\ e_loaded e1 = e_loaded e
    /\ e_available e1 = e_available e /\ e_variables e1 = e_variables e
    /\ Tracked.replacePlaceholdersInNode cfg name e
       = match actionableIn name e with
         | [] => (Ok (mkReplaceResult false None), withData e1 None)
         | _ =>
             (do! safeLoadFontsForNode in
              let! iconFontLoaded :=
                Tracked.loadIconFont cfg (hasIconOf false (actionableIn name e)) in
              do! Tracked.saveNodeBackup (plain (n_chars (e_node e)))
                    (snapshotOf ∅ (actionableIn name e))
                    (c_name (chosenCollectionOf name e))
                    (recordsFrom e 0 (actionableIn name e)) in
              do! Tracked.applyOps cfg iconFontLoaded (map (opOf e) (actionableIn name e)) in
              ret (mkReplaceResult true (Some (snapshotOf ∅ (actionableIn name e))))) e1
         end.
Proof.
  unfold Tracked.replacePlaceholdersInNode. unfold bind at 1. unfold getCharacters at 1.
  unfold actionableIn.
  set (cs := n_chars (e_node e)).
  destruct (Tracked.scan (plain cs)) as [|m0 ms0] eqn:Hscan.
  - cbn [actionable omap list_omap]. exists e. by repeat split.
  - rewrite <- Hscan. set (ms := Tracked.scan (plain cs)) in *.
    destruct (getOrCreate_frame name e) as (e1 & Hg & Hn1 & Hl1 & Ha1 & Hv1).
    exists e1. repeat split; try done.
    unfold bind at 1. rewrite Hg. unfold bind at 1.
    rewrite resolveLoop_spec.
    rewrite (actionable_ext _ e1 e _ Hv1), (recordsFrom_ext e1 e _ _ Hn1), (opOf_ext e1 e _ Hn1).
    set (c := chosenCollectionOf name e) in *.
    set (acts := actionable c e ms) in *.
    cbn [Tracked.p_ops Tracked.p_snapshot Tracked.p_replacements Tracked.p_runningDelta
         Tracked.p_hasIconReplacement Tracked.emptyPass app].
    destruct acts; [|done]. cbn [map]. by unfold_m.
Qed.

Lemma replace_spec cfg name e :
  let acts := actionableIn name e in
  let cs := n_chars (e_node e) in
  let il := iconLoadedIn cfg e acts in
  exists e',
    n_base (e_node e') = n_base (e_node e) /\ e_available e' = e_available e
    /\ e_variables e' = e_variables e
    /\ (forall f, f ∈ e_loaded e -> f ∈ e_loaded e')
    /\ (il = true -> Tracked.iconFont cfg ∈ e_loaded e')
    /\ match acts with
       | [] =>
           Tracked.replacePlaceholdersInNode cfg name e = (Ok (mkReplaceResult false None), e')
           /\ n_chars (e_node e') = cs /\ n_data (e_node e') = None
       | _ =>
           exists inhs, List.length inhs = List.length acts
           /\ Tracked.replacePlaceholdersInNode cfg name e
              = (Ok (mkReplaceResult true (Some (snapshotOf ∅ acts))), e')
           /\ n_data (e_node e')
              = Some (mkBackup (plain cs) (snapshotOf ∅ acts)
                        (orDefault DEFAULT_COLLECTION_NAME
                                   (c_name (chosenCollectionOf name e)))
                        (Some (recordsFrom e 0 acts)))
           /\ n_chars (e_node e')
              = rebuildFrom cs 0
                  (zip_with (hostSplice opSpan Tracked.o_insertText
                               (chooseOp (Tracked.iconFont cfg) il) (e_loaded e'))
                            (map (opOf e) acts) inhs)
       end.
Proof.
  intros acts cs il. subst acts cs il.
  destruct (replace_run cfg name e) as (e1 & Hn1 & Hl1 & Ha1 & Hv1 & Hrun).
  rewrite Hrun. clear Hrun.
  pose proof (actionable_ascending (chosenCollectionOf name e) e _ _ _
                (tracked_scan_ascending (plain (n_chars (e_node e))))) as Hasc.
  fold (actionableIn name e) in Hasc. rewrite zlen_plain in Hasc.
  destruct (actionableIn name e) as [|a0 acts0] eqn:Hacts.
  - exists (withData e1 None). simpl. rewrite Hn1, Ha1, Hv1, Hl1. by repeat split.
  - rewrite <- Hacts in *. set (acts := actionableIn name e) in *.
    unfold bind at 1.
    destruct (safeLoadFontsForNode_keeps e1) as (u & e2 & -> & Hn2 & Ha2 & Hc2 & Hv2 & Hf2).
    unfold bind at 1.
    destruct (loadIconFont_spec cfg (hasIconOf false acts) e2)
      as (e3 & -> & Hn3 & Ha3 & Hv3 & Hc3 & Hf3 & Hi3).
    rewrite Ha2, Ha1 in Hi3 |- *. fold (iconLoadedIn cfg e acts) in Hi3 |- *.
    set (il := iconLoadedIn cfg e acts) in *.
    unfold bind at 1. unfold Tracked.saveNodeBackup, tryCatch, setPluginData.
    set (payload := mkBackup _ _ _ _).
    set (e4 := withData e3 (Some payload)).
    assert (Hc4 : n_chars (e_node e4) = n_chars (e_node e)).
    { unfold e4, withData, withNode. cbn [e_node n_chars]. by rewrite Hn3, Hn2, Hn1. }
    assert (Hb4 : n_base (e_node e4) = n_base (e_node e)).
    { unfold e4, withData, withNode. cbn [e_node n_base]. by rewrite Hn3, Hn2, Hn1. }
    assert (Hl4 : e_loaded e4 = e_loaded e3) by done.
    unfold bind at 1. unfold Tracked.applyOps.
    destruct (forEach_rev_splices (Tracked.applyOp cfg il) opSpan Tracked.o_insertText
                (chooseOp (Tracked.iconFont cfg) il)
                (fun loaded => il = true -> Tracked.iconFont cfg ∈ loaded)
                (applyOp_step cfg il) (map (opOf e) acts) 0 e4)
      as (inhs & Hlen & Hloop).
    { by rewrite Hc4. }
    { by rewrite Hl4. }
    rewrite Hloop. unfold ret. rewrite length_map in Hlen.
    eexists. split; [|split; [|split; [|split; [|split]]]]; cycle 5.
    + rewrite Hacts. rewrite <- Hacts. exists inhs.
      split; [done|]. split; [reflexivity|].
      split.
      * done.
      * unfold withChars, withNode at 1. cbn [e_node n_chars e_loaded].
        rewrite foldr_splice_rebuild_0.
        -- by rewrite Hc4.
        -- rewrite span_hostSplices by (rewrite length_map; done). by rewrite Hc4.
    + unfold withChars, withNode at 1. cbn [e_node n_base]. done.
    + unfold withChars, withNode at 1. cbn [e_available]. unfold e4. cbn. by rewrite Ha3, Ha2, Ha1.
    + unfold withChars, withNode at 1. cbn [e_variables]. unfold e4. cbn. by rewrite Hv3, Hv2, Hv1.
    + unfold withChars, withNode at 1. cbn [e_loaded]. rewrite Hl4.
      intros f Hf. apply Hf3, Hf2. by rewrite Hl1.
    + unfold withChars, withNode at 1. cbn [e_loaded]. by rewrite Hl4.
Qed.

(** ** The restoration pass of the tracked variant *)

Lemma insertDesc_last r l :
  Forall (fun x => r_start r < r_start x) l -> Tracked.insertDesc r l = l ++ [r].
Proof.
  induction l as [|x l IH]; intros H; [done|].
  apply Forall_cons in H as [Hx H]. simpl.
  replace (r_start x <? r_start r + 1) with false by (symmetry; apply Z.ltb_ge; lia).
  by rewrite IH.
Qed.

Lemma sortDesc_rev recs :
  StrictAsc (map r_start recs) -> Tracked.sortDesc recs = rev recs.
Proof.
  induction recs as [|r recs IH]; intros H; [done|].
  simpl in H. destruct H as [Hr H]. cbn [Tracked.sortDesc foldr].
  fold (Tracked.sortDesc recs). rewrite (IH H). simpl.
  apply insertDesc_last. apply Forall_rev.
  rewrite Forall_forall in Hr. apply Forall_forall. intros x Hx. apply Hr.
  apply (list_elem_of_fmap_2 r_start) in Hx. exact Hx.
Qed.

Lemma restoreOne_step : forall x e (A P B : Styled),
  n_chars (e_node e) = A ++ P ++ B ->
  fst (recSpan x) = zlen A -> snd (recSpan x) = zlen P -> True ->
  exists inh,
    Tracked.restoreOne x e
    = (Ok tt, withChars e (A ++ styled (chooseRec (e_loaded e) inh x)
                                  (r_originalText x) ++ B)).
Proof. intros x e A P B Hc Hs Hr _. eexists. by apply restoreOne_at with (P := P). Qed.

Lemma restore_spec e b recs :
  n_data (e_node e) = Some b ->
  b_replacements b = Some recs ->
  Tracked.sortDesc recs = rev recs ->
  Ascending 0 (map recSpan recs) (zlen (n_chars (e_node e))) ->
  exists e' inhs,
    List.length inhs = List.length recs
    /\ Tracked.restorePlaceholdersInNode e = (Ok true, e')
    /\ n_data (e_node e') = None
    /\ n_base (e_node e') = n_base (e_node e)
    /\ (forall f, f ∈ e_loaded e -> f ∈ e_loaded e')
    /\ n_chars (e_node e')
       = rebuildFrom (n_chars (e_node e)) 0
           (zip_with (hostSplice recSpan r_originalText chooseRec (e_loaded e')) recs inhs).
Proof.
  intros Hd Hr Hsort Hasc. unfold Tracked.restorePlaceholdersInNode.
  unfold bind at 1. unfold readNodeBackup, tryCatch, getPluginData. rewrite Hd.
  unfold bind at 1.
  destruct (safeLoadFontsForNode_keeps e) as (u & e1 & -> & Hn1 & _ & _ & _ & Hf1).
  rewrite Hr. unfold bind at 1.
  destruct (safeLoadFonts_keeps (omap r_originalFont (Tracked.sortDesc recs)) e1)
    as (u2 & e2 & -> & Hn2 & _ & _ & _ & Hf2).
  rewrite Hsort. unfold bind at 1.
  destruct (forEach_rev_splices Tracked.restoreOne recSpan r_originalText chooseRec
              (fun _ => True) restoreOne_step recs 0 e2)
    as (inhs & Hlen & Hloop); [by rewrite Hn2, Hn1|done|].
  rewrite Hloop. unfold bind, clearNodeBackup, tryCatch, setPluginData, ret.
  eexists _, inhs. split; [done|]. split; [reflexivity|].
  unfold withData, withChars, withNode. cbn [e_node n_data n_base n_chars e_loaded].
  split; [done|]. split; [by rewrite Hn2, Hn1|]. split; [by auto|].
  rewrite foldr_splice_rebuild_0; [by rewrite Hn2, Hn1|].
  rewrite span_hostSplices by done. by rewrite Hn2, Hn1.
Qed.

(** ** Restoration undoes substitution *)

Lemma records_undo icon il loadedS loadedR e acts : forall delta inhsS inhsR,
  List.length inhsS = List.length acts -> List.length inhsR = List.length acts ->
  zip_with (hostSplice recSpan r_originalText chooseRec loadedR)
           (recordsFrom e delta acts) inhsR
  = undoItems delta (passSplices icon il loadedS e acts inhsS)
              (zip_with (restoredSpan loadedR e) acts inhsR).
Proof.
  unfold passSplices.
  induction acts as [|a acts IH]; intros delta [|iS inhsS] [|iR inhsR] HS HR;
    simpl in HS, HR; try done.
  cbn [recordsFrom map zip_with undoItems]. f_equal.
  - unfold hostSplice, recSpan, opSpan, opOf, restoredSpan, chooseRec.
    cbn [sp_start sp_remove sp_insert fst snd r_start r_len r_originalText r_originalFont
         Tracked.o_start Tracked.o_removeLen Tracked.o_insertText].
    by rewrite zlen_styled.
  - rewrite (IH (delta + netDelta a) inhsS inhsR) by lia. f_equal.
    unfold hostSplice, opSpan, opOf, netDelta.
    cbn [sp_start sp_remove sp_insert fst snd
         Tracked.o_start Tracked.o_removeLen Tracked.o_insertText].
    by rewrite zlen_styled.
Qed.

Lemma rebuildFrom_map {A B} (f : A -> B) (items : list (Splice A)) : forall q cs,
  map f (rebuildFrom cs q items) = rebuildFrom (map f cs) q (map (mapSplice f) items).
Proof.
  assert (Hslice : forall a b (cs : list A), map f (slice a b cs) = slice a b (map f cs)).
  { intros a b cs. unfold slice. by rewrite skipn_map, firstn_map. }
  induction items as [|it rest IH]; intros q cs; cbn [rebuildFrom map].
  - rewrite Hslice. unfold zlen. by rewrite length_map.
  - rewrite !map_app, Hslice, IH. done.
Qed.

Lemma records_ge e acts : forall q delta len,
  Ascending q (map opSpan (map (opOf e) acts)) len ->
  Forall (fun r => q + delta <= r_start r) (recordsFrom e delta acts).
Proof.
  induction acts as [|a acts IH]; intros q delta len H; [constructor|].
  cbn [map] in H. unfold opSpan at 1, opOf at 1 in H. cbn in H.
  destruct H as (Hq & Hr & H). cbn [recordsFrom]. constructor; [simpl; lia|].
  specialize (IH _ (delta + netDelta a) _ H).
  eapply Forall_impl; [exact IH|]. intros r Hge. cbv beta in Hge.
  unfold netDelta in Hge. pose proof (zlen_nonneg a.2). lia.
Qed.

Lemma records_strict e acts : forall q delta len,
  Ascending q (map opSpan (map (opOf e) acts)) len ->
  noEmptyAdjacent acts ->
  StrictAsc (map r_start (recordsFrom e delta acts)).
Proof.
  induction acts as [|a acts IH]; intros q delta len H Hne; [done|].
  cbn [map] in H. unfold opSpan at 1, opOf at 1 in H. cbn in H.
  destruct H as (Hq & Hr & H). cbn [noEmptyAdjacent] in Hne. destruct Hne as [Hadj Hne].
  cbn [recordsFrom map r_start StrictAsc]. split; [|by eapply IH].
  apply Forall_map. pose proof (zlen_nonneg a.2).
  destruct acts as [|b acts']; [constructor|].
  destruct Hadj as [Hv|Hgap].
  - eapply Forall_impl; [exact (records_ge e _ _ (delta + netDelta a) _ H)|].
    intros r Hge. cbv beta in Hge. unfold netDelta in Hge. lia.
  - assert (H' : Ascending (m_start b.1) (map opSpan (map (opOf e) (b :: acts'))) len).
    { cbn [map] in H. unfold opSpan at 1, opOf at 1 in H. cbn in H.
      cbn [map]. unfold opSpan at 1, opOf at 1. cbn.
      destruct H as (Hq' & Hr' & H). split; [lia|]. by split. }
    eapply Forall_impl; [exact (records_ge e _ _ (delta + netDelta a) _ H')|].
    intros r Hge. cbv beta in Hge. unfold netDelta in Hge. lia.
Qed.

(** The pass and then the restoration, as one rebuild of the original text. *)
Lemma roundtrip_spec cfg name e :
  let acts := actionableIn name e in
  let cs := n_chars (e_node e) in
  acts <> [] -> noEmptyAdjacent acts ->
  exists e' e'' inhsS inhsR,
    Tracked.replacePlaceholdersInNode cfg name e
    = (Ok (mkReplaceResult true (Some (snapshotOf ∅ acts))), e')
    /\ Tracked.restorePlaceholdersInNode e' = (Ok true, e'')
    /\ n_data (e_node e'') = None
    /\ List.length inhsS = List.length acts /\ List.length inhsR = List.length acts
    /\ (forall f, f ∈ e_loaded e -> f ∈ e_loaded e'')
    /\ n_chars (e_node e'')
       = rebuildFrom cs 0
           (zip_with reinsert
              (passSplices (Tracked.iconFont cfg) (iconLoadedIn cfg e acts) (e_loaded e') e acts inhsS)
              (zip_with (restoredSpan (e_loaded e'') e) acts inhsR)).
Proof.
  intros acts cs Hacts Hne.
  destruct (replace_spec cfg name e) as (e' & Hb & Ha & Hv & Hf & Hi & Hrep).
  fold acts cs in Hrep, Hi.
  destruct acts as [|a0 acts0] eqn:Eacts; [done|]. rewrite <- Eacts in *.
  destruct Hrep as (inhsS & HlenS & Hrun & Hdata & Hchars).
  pose proof (actionable_ascending (chosenCollectionOf name e) e _ _ _
                (tracked_scan_ascending (plain (n_chars (e_node e))))) as Hasc.
  fold (actionableIn name e) in Hasc. rewrite zlen_plain in Hasc. fold cs in Hasc.
  replace (actionableIn name e) with acts in Hasc by (by rewrite Eacts).
  set (itemsS := passSplices (Tracked.iconFont cfg) (iconLoadedIn cfg e acts)
                             (e_loaded e') e acts inhsS) in *.
  change (n_chars (e_node e') = rebuildFrom cs 0 itemsS) in Hchars.
  assert (HspanS : map span itemsS = map opSpan (map (opOf e) acts)).
  { unfold itemsS, passSplices. apply span_hostSplices. by rewrite length_map. }
  assert (HlenI : List.length itemsS = List.length acts).
  { unfold itemsS, passSplices. rewrite length_zip_with, length_map. lia. }
  set (recs := recordsFrom e 0 acts) in *.
  assert (HlenR : List.length recs = List.length acts).
  { unfold recs. clear. generalize 0. induction acts; intros; simpl; [done|]. by rewrite IHacts. }
  (* the records are valid splices of the substituted text, for any insertions *)
  assert (Hundo : forall loadedR inhsR, List.length inhsR = List.length acts ->
            Ascending 0 (map recSpan recs) (zlen (n_chars (e_node e')))
            /\ rebuildFrom (n_chars (e_node e')) 0
                 (zip_with (hostSplice recSpan r_originalText chooseRec loadedR) recs inhsR)
               = rebuildFrom cs 0
                   (zip_with reinsert itemsS (zip_with (restoredSpan loadedR e) acts inhsR))).
  { intros loadedR inhsR HlenR'.
    pose proof (undo_rebuild itemsS 0 0 [] cs
                  (zip_with (restoredSpan loadedR e) acts inhsR)) as Hu.
    rewrite HspanS in Hu. specialize (Hu Hasc eq_refl).
    rewrite length_zip_with in Hu. specialize (Hu ltac:(lia)).
    cbn [app] in Hu. replace (0 + 0) with 0 in Hu by lia.
    rewrite <- Hchars in Hu.
    pose proof (records_undo (Tracked.iconFont cfg) (iconLoadedIn cfg e acts)
                  (e_loaded e') loadedR e acts 0 inhsS inhsR HlenS HlenR') as Hru.
    fold itemsS recs in Hru. rewrite <- Hru in Hu. rewrite span_hostSplices in Hu by lia. done. }
  destruct (restore_spec e' _ recs Hdata eq_refl) as (e'' & inhsR & HlR & Hrest & Hd'' & Hb'' & Hf'' & Hc'').
  { apply sortDesc_rev. unfold recs. by eapply records_strict. }
  { apply (Hundo [] (replicate (List.length acts) (n_base (e_node e)))).
    by rewrite length_replicate. }
  exists e', e'', inhsS, inhsR.
  split; [done|]. split; [done|]. split; [done|]. split; [done|].
  split; [lia|]. split; [by auto|].
  rewrite Hc''. apply Hundo. lia.
Qed.

(** ** Rebuilding the original text *)

Lemma span_reinsert {A B} (f : A -> B) (items : list (Splice A)) : forall news,
  List.length news = List.length items ->
  map span (map (mapSplice f) (zip_with reinsert items news)) = map span items.
Proof.
  induction items as [|it items IH]; intros [|n news] H; simpl in *; try done.
  rewrite IH by lia. done.
Qed.

Lemma reinsert_forall {B} (f : ascii * Font -> B) icon il LS LR e (cs : Styled) acts :
  forall inhsS inhsR,
  (forall a inh, a ∈ acts ->
     map f (restoredSpan LR e a inh)
     = slice (m_start a.1) (m_start a.1 + m_len a.1) (map f cs)) ->
  Forall (fun it => sp_insert it = slice (sp_start it) (sp_start it + sp_remove it) (map f cs))
         (map (mapSplice f)
              (zip_with reinsert (passSplices icon il LS e acts inhsS)
                        (zip_with (restoredSpan LR e) acts inhsR))).
Proof.
  unfold passSplices.
  induction acts as [|a acts IH]; intros [|iS inhsS] [|iR inhsR] H; try by constructor.
  cbn [map zip_with]. constructor.
  - cbn. apply H. left.
  - apply IH. intros b inh Hb. apply H. by right.
Qed.


(** ** Passes with nothing to substitute *)

Lemma actionable_none c e ms :
  (forall mm, mm ∈ ms -> resolveIn c e mm = None) -> actionable c e ms = [].
Proof.
  induction ms as [|mm ms IH]; intros H; [done|].
  unfold actionable. cbn [omap list_omap]. rewrite (H mm) by left.
  cbn. apply IH. intros m Hm. apply H. by right.
Qed.

Lemma actionable_none_iff c e ms :
  actionable c e ms = [] <-> forall mm, mm ∈ ms -> resolveIn c e mm = None.
Proof.
  split; [|apply actionable_none].
  intros Hnil mm Hmm. destruct (resolveIn c e mm) as [v|] eqn:Hr; [|done].
  assert (Hin : (mm, v) ∈ actionable c e ms).
  { unfold actionable. apply list_elem_of_omap. exists mm. split; [done|]. by rewrite Hr. }
  rewrite Hnil in Hin. by apply elem_of_nil in Hin.
Qed.

(** C3 (amended). In the offset-tracked variant, when the scanner finds no
    match, or no match resolves, the pass clears the backup, leaves the text
    as it is and reports [changed = false].  In the whole-text variant a pass
    that finds no match reports [changed = false] as well and leaves the host
    as it was: the text, and with it whatever backup the node has. *)
Theorem no_actionable_clears_backup cfg name e :
  ((Tracked.scan (plain (n_chars (e_node e))) = []
    \/ forall mm, mm ∈ Tracked.scan (plain (n_chars (e_node e))) ->
                  resolveIn (chosenCollectionOf name e) e mm = None) ->
   exists e',
     Tracked.replacePlaceholdersInNode cfg name e = (Ok (mkReplaceResult false None), e')
     /\ n_chars (e_node e') = n_chars (e_node e)
     /\ n_data (e_node e') = None)
  /\ (WholeText.scan (plain (n_chars (e_node e))) = [] ->
      WholeText.replacePlaceholdersInNode name e = (Ok (mkReplaceResult false None), e)).
Proof.
  split.
  - intros H.
    assert (Hacts : actionableIn name e = []).
    { unfold actionableIn. destruct H as [-> | H]; [done|]. by apply actionable_none. }
    destruct (replace_spec cfg name e) as (e' & _ & _ & _ & _ & _ & Hrep).
    rewrite Hacts in Hrep. by exists e'.
  - intros Hscan. unfold WholeText.replacePlaceholdersInNode, bind, getCharacters.
    by rewrite Hscan.
Qed.

Lemma no_actionable_clears_backup_witness :
  let eT := mkEnv (mkNode (styled Inter (chars "see @missing")) Inter (Some staleBackup))
                  [Inter] [Inter] [keywords] [stringVar "a" "X"] in
  let eW := mkEnv (mkNode (styled Inter (chars "plain")) Inter (Some staleBackup))
                  [Inter] [Inter] [keywords] [stringVar "a" "X"] in
  (exists e',
     Tracked.replacePlaceholdersInNode noIcon "Keywords" eT
     = (Ok (mkReplaceResult false None), e')
     /\ n_chars (e_node e') = styled Inter (chars "see @missing")
     /\ n_data (e_node e') = None)
  /\ WholeText.replacePlaceholdersInNode "Keywords" eW = (Ok (mkReplaceResult false None), eW).
Proof.
  intros eT eW. split.
  - apply (proj1 (no_actionable_clears_backup noIcon "Keywords" eT)).
    right. intros mm Hmm. vm_compute in Hmm.
    apply list_elem_of_singleton in Hmm. rewrite Hmm. reflexivity.
  - apply (proj2 (no_actionable_clears_backup noIcon "Keywords" eW)). reflexivity.
Defined.

(** C3, as stated, fails for the whole-text variant, which the claim cites:
    on a text without matches its pass returns at once and the backup of an
    earlier pass stays on the node; and where matches are found but none
    resolves, it goes on, saves a backup and reports [changed = true]. *)
Lemma whole_text_keeps_stale_backup :
  let e := mkEnv (mkNode (styled Inter (chars "plain")) Inter (Some staleBackup))
                 [Inter] [Inter] [keywords] [] in
  let e2 := mkEnv (mkNode (styled Inter (chars "see @missing")) Inter (Some staleBackup))
                  [Inter] [Inter] [keywords] [] in
  WholeText.scan (plain (n_chars (e_node e))) = []
  /\ fst (WholeText.replacePlaceholdersInNode "Keywords" e) = Ok (mkReplaceResult false None)
  /\ n_data (e_node (snd (WholeText.replacePlaceholdersInNode "Keywords" e)))
     = Some staleBackup
  /\ actionableIn "Keywords" e2 = []
  /\ fst (WholeText.replacePlaceholdersInNode "Keywords" e2)
     = Ok (mkReplaceResult true (Some ∅))
  /\ n_data (e_node (snd (WholeText.replacePlaceholdersInNode "Keywords" e2)))
     = Some (mkBackup (chars "see @missing") ∅ "Keywords" None).
Proof. vm_compute. by repeat split. Qed.

(** ** Restoration is one-shot *)

(** The restoration of the whole-text variant, step by step. *)
Lemma whole_restore_run e0 :
  exists e1,
    e_node e1 = e_node e0
    /\ WholeText.restorePlaceholdersInNode e0
       = match n_data (e_node e0) with
         | Some b =>
             match b_original b with
             | [] => (Ok false, e0)
             | _ => (Ok true,
                     withChars e1 (styled (styleBefore (n_base (e_node e0))
                                             (n_chars (e_node e0)) 0) (b_original b)))
             end
         | None => (Ok false, e0)
         end.
Proof.
  unfold WholeText.restorePlaceholdersInNode.
  unfold bind at 1. unfold readNodeBackup, tryCatch, getPluginData.
  destruct (n_data (e_node e0)) as [b|]; [|by exists e0].
  destruct (b_original b) as [|c t]; [by exists e0|].
  unfold bind at 1.
  destruct (safeLoadFontsForNode_keeps e0) as (u & e1 & -> & Hn1 & _).
  exists e1. split; [done|].
  unfold bind, setCharacters, ret. by rewrite Hn1.
Qed.

(** C6 (amended). In the offset-tracked variant a restoration that reports
    [restored = true] leaves no backup, and a restoration on a node without
    backup reports [restored = false] and changes nothing: so does the second
    of two restorations in a row.  In the whole-text variant a restoration on
    a node without backup is the same no-op, but one that reports
    [restored = true] keeps the backup: the next restoration reports
    [restored = true] again and leaves the node as the first left it. *)
Theorem restore_one_shot e :
  ((n_data (e_node e) = None -> Tracked.restorePlaceholdersInNode e = (Ok false, e))
   /\ (forall e1, Tracked.restorePlaceholdersInNode e = (Ok true, e1) ->
         n_data (e_node e1) = None
         /\ Tracked.restorePlaceholdersInNode e1 = (Ok false, e1)))
  /\ ((n_data (e_node e) = None -> WholeText.restorePlaceholdersInNode e = (Ok false, e))
      /\ (forall e1, WholeText.restorePlaceholdersInNode e = (Ok true, e1) ->
            n_data (e_node e1) = n_data (e_node e)
            /\ exists e2, WholeText.restorePlaceholdersInNode e1 = (Ok true, e2)
                          /\ e_node e2 = e_node e1)).
Proof.
  split.
  - assert (Hnone : forall e0, n_data (e_node e0) = None ->
              Tracked.restorePlaceholdersInNode e0 = (Ok false, e0)).
    { intros e0 H. unfold Tracked.restorePlaceholdersInNode, bind, readNodeBackup,
        tryCatch, getPluginData, ret. by rewrite H. }
    split; [apply Hnone|].
    intros e1 Hrun.
    assert (Hd : n_data (e_node e1) = None); [|split; [done|by apply Hnone]].
    revert Hrun. unfold Tracked.restorePlaceholdersInNode.
    unfold bind at 1. unfold readNodeBackup, tryCatch, getPluginData.
    destruct (n_data (e_node e)) as [b|]; [|by intros [= <-]].
    unfold bind at 1.
    destruct (safeLoadFontsForNode_keeps e) as (u & e2 & -> & _).
    destruct (b_replacements b) as [recs|].
    + unfold bind at 1.
      destruct (safeLoadFonts_keeps (omap r_originalFont (Tracked.sortDesc recs)) e2)
        as (u2 & e3 & -> & _).
      unfold bind at 1.
      destruct (forEach Tracked.restoreOne (Tracked.sortDesc recs) e3) as [[[]|] e4];
        [|by intros [=]].
      unfold bind, clearNodeBackup, tryCatch, setPluginData, ret. by intros [= <-].
    + destruct (b_original b) as [|c t]; [by intros [=]|].
      unfold bind, setCharacters, clearNodeBackup, tryCatch, setPluginData, ret.
      by intros [= <-].
  - destruct (whole_restore_run e) as (e1' & Hn1 & Hr1). rewrite Hr1. split.
    + by intros ->.
    + intros e1. destruct (n_data (e_node e)) as [b|] eqn:Hd; [|by intros [=]].
      destruct (b_original b) as [|c t] eqn:Ho; [by intros [=]|].
      rewrite <- Ho. intros [= <-].
      set (e' := withChars e1' _).
      assert (Hd' : n_data (e_node e') = Some b).
      { unfold e', withChars, withNode. cbn [e_node n_data]. by rewrite Hn1. }
      split; [done|].
      destruct (whole_restore_run e') as (e2 & Hn2 & Hr2). rewrite Hd', Ho in Hr2.
      eexists. split; [exact Hr2|].
      unfold withChars at 1, withNode at 1. cbn [e_node]. rewrite Hn2.
      unfold e', withChars, withNode. cbn [e_node n_chars n_base n_data].
      rewrite Hn1, Ho. done.
Qed.

Lemma restore_one_shot_witness :
  let e := afterReplace noIcon "Keywords"
             (sampleEnv (styled Inter (chars "@a")) [stringVar "a" "X"]) in
  let e1 := snd (Tracked.restorePlaceholdersInNode e) in
  let eW := snd (WholeText.replacePlaceholdersInNode "Keywords"
                   (sampleEnv (styled Inter (chars "@a")) [stringVar "a" "X"])) in
  let eW1 := snd (WholeText.restorePlaceholdersInNode eW) in
  (Tracked.restorePlaceholdersInNode e = (Ok true, e1)
   /\ n_data (e_node e1) = None
   /\ Tracked.restorePlaceholdersInNode e1 = (Ok false, e1))
  /\ (WholeText.restorePlaceholdersInNode eW = (Ok true, eW1)
      /\ n_data (e_node eW1) = n_data (e_node eW)
      /\ exists e2, WholeText.restorePlaceholdersInNode eW1 = (Ok true, e2)
                    /\ e_node e2 = e_node eW1).
Proof.
  intros e e1 eW eW1. split.
  - split; [reflexivity|].
    apply (proj2 (proj1 (restore_one_shot e)) e1). reflexivity.
  - split; [reflexivity|].
    apply (proj2 (proj2 (restore_one_shot eW)) eW1). reflexivity.
Defined.

(** C6, as stated, fails for the whole-text variant, which the claim cites:
    its restoration keeps the backup, and a second restoration right after
    the first finds it and reports [restored = true] again. *)
Lemma whole_text_restore_repeats :
  let e := mkEnv (mkNode (styled Inter (chars "X")) Inter
                         (Some (mkBackup (chars "@a") ∅ "Keywords" None)))
                 [Inter] [Inter] [keywords] [] in
  let e1 := snd (WholeText.restorePlaceholdersInNode e) in
  fst (WholeText.restorePlaceholdersInNode e) = Ok true
  /\ n_data (e_node e1) = n_data (e_node e)
  /\ n_data (e_node e1) <> None
  /\ fst (WholeText.restorePlaceholdersInNode e1) = Ok true
  /\ fst (WholeText.restorePlaceholdersInNode e1) <> Ok false.
Proof. vm_compute. by repeat split. Qed.

(** ** Resolution *)

Lemma resolveIn_found c e mm :
  resolveIn c e mm
  = match foundVariable c e (m_key mm) with
    | Some v =>
        match fst (resolveVariableValue v true e) with
        | Ok val => Some (stringOrEmpty val)
        | Throw => None
        end
    | None => None
    end.
Proof.
  unfold resolveIn, Tracked.resolveMatch, bind, findStringVariable, foundVariable, ret.
  destruct (find _ (e_variables e)) as [v|]; [|done].
  by destruct (resolveVariableValue v true e) as [[val|] e'].
Qed.

(** C5 (amended). Resolution never throws and leaves the host as it is.  A
    key is absent exactly when the collection has no variable of that name.
    When the consumer-specific resolution throws, or returns no object, the
    result is the empty string: a value, not absent. *)
Theorem resolve_never_throws mm c e :
  (forall v consumer, exists val, resolveVariableValue v consumer e = (Ok val, e))
  /\ Tracked.resolveMatch mm c e = (Ok (resolveIn c e mm), e)
  /\ (resolveIn c e mm = None <-> foundVariable c e (m_key mm) = None)
  /\ (forall v, foundVariable c e (m_key mm) = Some v ->
        v_resolveForConsumer v = Some ResThrows
        \/ v_resolveForConsumer v = Some ResNoObject ->
        resolveIn c e mm = Some []).
Proof.
  split; [intros v consumer; apply resolveVariableValue_pure|].
  split; [apply resolveMatch_pure|].
  rewrite resolveIn_found. split.
  - destruct (foundVariable c e (m_key mm)) as [v|]; [|done].
    destruct (resolveVariableValue_pure v true e) as [val ->]. done.
  - intros v -> Hv. unfold resolveVariableValue, tryCatch, throw, ret.
    by destruct Hv as [-> | ->].
Qed.

(** C5, as stated, fails: a variable whose consumer-specific resolution
    throws resolves to the empty string, and its placeholder is removed. *)
Lemma resolution_failure_removes_placeholder :
  let v := mkVariable "a" 1 (Some ResThrows) [] in
  let e := sampleEnv (styled Inter (chars "@a")) [v] in
  foundVariable keywords e "a" = Some v
  /\ resolveIn keywords e (mkMatch "a" 0 2 (chars "@a")) <> None
  /\ plain (n_chars (e_node (afterReplace noIcon "Keywords" e))) <> chars "@a".
Proof. vm_compute. repeat split; discriminate. Qed.

(** ** The selection handler *)

(** C7 (amended). After the handler, [lastSelectedNodeId] is the id of the
    single selected text node (or null) when the feature is on and no pass is
    in flight, whatever the passes did; when the feature is off or a pass is
    in flight the handler returns at once and the id stays as it was. *)
Theorem handler_last_selected replace restore w :
  lastSelectedNodeId (handleSelectionChangeWith replace restore w)
  = if featureEnabled w && negb (processing w) then newSelectedNode w
    else lastSelectedNodeId w.
Proof.
  unfold handleSelectionChangeWith.
  destruct (featureEnabled w); [|done]. destruct (processing w); done.
Qed.

(** C7, as stated, fails: with the feature off the handler leaves the id. *)
Lemma handler_disabled_keeps_last :
  let w := sampleWorld false None in
  newSelectedNode w = Some "1:2"%string
  /\ lastSelectedNodeId (Tracked.handleSelectionChange noIcon w) = None
  /\ lastSelectedNodeId (Tracked.handleSelectionChange noIcon w) <> newSelectedNode w.
Proof. vm_compute. repeat split. discriminate. Qed.

(** ** Where the insertions end up *)

Section PositionFacts.
Context {A : Type}.
Implicit Types (cs : list A) (items : list (Splice A)).

Lemma rebuildFrom_advance items q q' cs :
  0 <= q <= q' -> Ascending q' (map span items) (zlen cs) ->
  rebuildFrom cs q items = slice q q' cs ++ rebuildFrom cs q' items.
Proof.
  intros Hq H. destruct items as [|it rest]; simpl in *.
  - apply slice_split; lia.
  - unfold span at 1 in H. cbn in H. destruct H as (H1 & H2 & H3).
    rewrite (slice_split q q' (sp_start it)) by lia. by rewrite <- app_assoc.
Qed.

Lemma shiftBefore_S it items i :
  shiftBefore (it :: items) (S i) = spliceDelta it + shiftBefore items i.
Proof. reflexivity. Qed.

Lemma position_nonneg items : forall q len i it,
  Ascending q (map span items) len -> items !! i = Some it ->
  0 <= sp_start it - q + shiftBefore items i.
Proof.
  induction items as [|it0 rest IH]; intros q len i it H Hi; [done|].
  cbn [map] in H. unfold span at 1 in H. cbn [Ascending] in H.
  destruct H as (Hq & Hr & H). destruct i as [|j].
  - injection Hi as <-. unfold shiftBefore. simpl. lia.
  - rewrite shiftBefore_S. specialize (IH _ _ j it H Hi).
    unfold spliceDelta. pose proof (zlen_nonneg (sp_insert it0)). lia.
Qed.

(** The [i]-th insertion sits at its original start moved by the length
    changes before it. *)
Lemma rebuild_slice_at items : forall q cs i it,
  Ascending q (map span items) (zlen cs) -> items !! i = Some it ->
  slice (sp_start it - q + shiftBefore items i)
        (sp_start it - q + shiftBefore items i + zlen (sp_insert it))
        (rebuildFrom cs q items)
  = sp_insert it.
Proof.
  induction items as [|it0 rest IH]; intros q cs i it H Hi; [done|].
  pose proof H as H0.
  cbn [map] in H. unfold span at 1 in H. cbn [Ascending] in H.
  destruct H as (Hq & Hr & H).
  pose proof (Ascending_bound _ _ _ H) as Hb.
  cbn [rebuildFrom].
  assert (HG : zlen (slice q (sp_start it0) cs) = sp_start it0 - q)
    by (apply zlen_slice; lia).
  destruct i as [|j].
  - injection Hi as <-. unfold shiftBefore. simpl.
    apply slice_middle; lia.
  - rewrite shiftBefore_S.
    pose proof (position_nonneg _ _ _ _ _ H Hi) as Hpos.
    pose proof (zlen_nonneg (sp_insert it0)). pose proof (zlen_nonneg (sp_insert it)).
    rewrite slice_app_r by (unfold spliceDelta; lia).
    rewrite slice_app_r by (unfold spliceDelta; lia).
    etransitivity; [|apply (IH _ cs j it H Hi)]. unfold spliceDelta. f_equal; lia.
Qed.

End PositionFacts.

(** ** The text a pass of the tracked variant leaves *)

Lemma plain_passSplices icon il loaded e acts : forall inhs,
  List.length inhs = List.length acts ->
  map (mapSplice fst) (passSplices icon il loaded e acts inhs) = map valueSplice acts.
Proof.
  unfold passSplices.
  induction acts as [|a acts IH]; intros [|i inhs] H; simpl in H; try done.
  cbn [map zip_with]. rewrite IH by lia. f_equal.
  unfold mapSplice, hostSplice, valueSplice, opSpan, opOf.
  cbn [sp_start sp_remove sp_insert fst snd Tracked.o_start Tracked.o_removeLen
       Tracked.o_insertText].
  f_equal. apply plain_styled.
Qed.

Lemma valueSplice_spans e acts :
  map span (map valueSplice acts) = map opSpan (map (opOf e) acts).
Proof. rewrite !map_map. by apply map_ext. Qed.

Lemma shiftBefore_values acts i :
  shiftBefore (map valueSplice acts) i = deltaBefore acts i.
Proof.
  unfold shiftBefore, deltaBefore. rewrite <- firstn_map, map_map.
  rewrite firstn_map. done.
Qed.

Lemma replace_text cfg name e :
  exists r e',
    Tracked.replacePlaceholdersInNode cfg name e = (Ok r, e')
    /\ plain (n_chars (e_node e'))
       = rebuildFrom (plain (n_chars (e_node e))) 0 (map valueSplice (actionableIn name e)).
Proof.
  destruct (replace_spec cfg name e) as (e' & _ & _ & _ & _ & _ & Hrep).
  destruct (actionableIn name e) as [|a0 acts0] eqn:Eacts.
  - destruct Hrep as (Hrun & Hc & _). eexists _, e'. split; [done|].
    rewrite Hc. simpl. rewrite slice_from_0, to_nat_zlen. by rewrite take_ge.
  - rewrite <- Eacts in *. destruct Hrep as (inhs & Hlen & Hrun & _ & Hc).
    eexists _, e'. split; [done|]. rewrite Hc. unfold plain at 1.
    rewrite rebuildFrom_map. fold (passSplices (Tracked.iconFont cfg)
      (iconLoadedIn cfg e (actionableIn name e)) (e_loaded e') e (actionableIn name e) inhs).
    by rewrite plain_passSplices.
Qed.

Lemma textAfter_rebuild cfg name e :
  textAfter cfg name e
  = rebuildFrom (plain (n_chars (e_node e))) 0 (map valueSplice (actionableIn name e)).
Proof.
  unfold textAfter, afterReplace.
  destruct (replace_text cfg name e) as (r & e' & -> & H). done.
Qed.

Lemma recordsFrom_lookup e acts : forall delta i a,
  acts !! i = Some a ->
  recordsFrom e delta acts !! i
  = Some (mkRecord (m_start a.1 + (delta + deltaBefore acts i)) (zlen a.2) (m_text a.1)
                   (capturedFont e a.1)).
Proof.
  induction acts as [|a0 acts IH]; intros delta i a Hi; [done|].
  destruct i as [|j].
  - injection Hi as <-. cbn. unfold deltaBefore. simpl. do 3 f_equal. lia.
  - cbn [recordsFrom]. cbn [lookup list_lookup]. rewrite (IH _ j a Hi).
    do 3 f_equal. unfold deltaBefore. cbn [take map sumZ foldr]. fold sumZ. unfold sumZ. lia.
Qed.

Lemma lookup_map {A B} (f : A -> B) (l : list A) i : map f l !! i = f <$> (l !! i).
Proof. apply (list_lookup_fmap f l i). Qed.

Lemma actionableIn_ascending name e :
  Ascending 0 (map span (map valueSplice (actionableIn name e)))
            (zlen (plain (n_chars (e_node e)))).
Proof.
  rewrite (valueSplice_spans e). apply actionable_ascending, tracked_scan_ascending.
Qed.

(** ** Record positions *)

(** C2. The record of the [i]-th actionable match starts at the match's
    offset in the text before the pass plus the net length change of the
    actionable matches before it, and at that offset the text after the pass
    holds the resolved value. *)
Theorem record_start_is_value_offset cfg name e i a :
  actionableIn name e !! i = Some a ->
  exists r e' b recs rec,
    Tracked.replacePlaceholdersInNode cfg name e = (Ok r, e')
    /\ n_data (e_node e') = Some b
    /\ b_replacements b = Some recs
    /\ recs !! i = Some rec
    /\ r_start rec = m_start a.1 + deltaBefore (actionableIn name e) i
    /\ r_len rec = zlen a.2
    /\ slice (r_start rec) (r_start rec + r_len rec) (plain (n_chars (e_node e'))) = a.2.
Proof.
  intros Hi.
  destruct (replace_spec cfg name e) as (e' & _ & _ & _ & _ & _ & Hrep).
  pose proof (textAfter_rebuild cfg name e) as Htext.
  unfold textAfter, afterReplace in Htext.
  pose proof (actionableIn_ascending name e) as Hasc.
  destruct (actionableIn name e) as [|a0 acts0] eqn:Eacts; [done|].
  rewrite <- Eacts in *. destruct Hrep as (inhs & Hlen & Hrun & Hdata & _).
  rewrite Hrun in Htext. cbn [snd] in Htext.
  eexists _, e', _, _, _. split; [exact Hrun|]. split; [exact Hdata|].
  split; [reflexivity|]. split; [apply (recordsFrom_lookup e _ 0 i a Hi)|].
  cbn [r_start r_len]. split; [f_equal; lia|]. split; [done|].
  rewrite Htext.
  assert (Hit : map valueSplice (actionableIn name e) !! i = Some (valueSplice a)).
  { by rewrite lookup_map, Hi. }
  pose proof (rebuild_slice_at _ 0 _ i _ Hasc Hit) as Hs.
  rewrite shiftBefore_values in Hs. cbn [valueSplice sp_start sp_insert] in Hs.
  etransitivity; [|exact Hs]. f_equal; lia.
Qed.

Lemma record_start_is_value_offset_witness :
  exists r e' b recs rec,
    Tracked.replacePlaceholdersInNode noIcon "Keywords"
      (sampleEnv (styled Inter (chars "@a @bb")) [stringVar "a" "XXXX"; stringVar "bb" "Y"])
    = (Ok r, e')
    /\ n_data (e_node e') = Some b
    /\ b_replacements b = Some recs
    /\ recs !! 1%nat = Some rec
    /\ r_start rec = 3 + deltaBefore
         (actionableIn "Keywords"
            (sampleEnv (styled Inter (chars "@a @bb"))
                       [stringVar "a" "XXXX"; stringVar "bb" "Y"])) 1
    /\ r_len rec = zlen (chars "Y")
    /\ slice (r_start rec) (r_start rec + r_len rec) (plain (n_chars (e_node e'))) = chars "Y".
Proof.
  apply (record_start_is_value_offset noIcon "Keywords"
           (sampleEnv (styled Inter (chars "@a @bb")) [stringVar "a" "XXXX"; stringVar "bb" "Y"])
           1%nat (mkMatch "bb" 3 3 (chars "@bb"), chars "Y")).
  reflexivity.
Defined.

Example record_offsets_at_a_bb :
  let e := sampleEnv (styled Inter (chars "@a @bb")) [stringVar "a" "XXXX"; stringVar "bb" "Y"] in
  textAfter noIcon "Keywords" e = chars "XXXX Y"
  /\ (b_replacements <$> n_data (e_node (afterReplace noIcon "Keywords" e)))
     = Some (Some [mkRecord 0 4 (chars "@a") (Some Inter);
                   mkRecord 5 1 (chars "@bb") (Some Inter)]).
Proof. vm_compute. by split. Qed.

(** ** Absent keys and empty values *)

Lemma resolveIn_key c e mm mm' :
  m_key mm = m_key mm' -> resolveIn c e mm = resolveIn c e mm'.
Proof. intros H. by rewrite !resolveIn_found, H. Qed.

Lemma render_spans c e ms : map span (map (renderSplice c e) ms) = map mspan ms.
Proof. rewrite map_map. by apply map_ext. Qed.

(** Matches with an absent key re-insert their own text: the output is the
    one built from the actionable matches alone. *)
Lemma render_values c e text ms : forall q,
  Ascending q (map mspan ms) (zlen text) ->
  (forall mm, mm ∈ ms -> m_text mm = slice (m_start mm) (m_start mm + m_len mm) text) ->
  rebuildFrom text q (map (renderSplice c e) ms)
  = rebuildFrom text q (map valueSplice (actionable c e ms)).
Proof.
  induction ms as [|mm ms IH]; intros q H Ht; [done|].
  cbn [map] in H. unfold mspan at 1 in H. cbn [Ascending] in H.
  destruct H as (Hq & Hr & H).
  assert (Ht' : forall m, m ∈ ms -> m_text m = slice (m_start m) (m_start m + m_len m) text).
  { intros m Hm. apply Ht. by right. }
  cbn [map rebuildFrom].
  change (sp_start (renderSplice c e mm)) with (m_start mm).
  change (sp_remove (renderSplice c e mm)) with (m_len mm).
  change (sp_insert (renderSplice c e mm)) with (default (m_text mm) (resolveIn c e mm)).
  unfold actionable. cbn [omap list_omap].
  rewrite (IH _ H Ht'). fold (actionable c e ms).
  destruct (resolveIn c e mm) as [v|]; cbn [fmap option_fmap option_map default]; [done|].
  rewrite (Ht mm) by left.
  rewrite app_assoc, <- slice_split by lia.
  symmetry. apply rebuildFrom_advance; [lia|].
  rewrite (valueSplice_spans e). by apply actionable_ascending.
Qed.

Lemma setProperty_lookup key value (object : gmap string (list ascii)) k :
  setProperty key value object !! k
  = if bool_decide (k = key) && negb (bool_decide (key = "__proto__"%string))
    then Some value else object !! k.
Proof.
  unfold setProperty. destruct (bool_decide (key = "__proto__"%string)); cbn [negb].
  - by rewrite andb_false_r.
  - rewrite andb_true_r. destruct (decide (k = key)) as [->|Hne].
    + by rewrite bool_decide_eq_true_2, lookup_insert_eq.
    + by rewrite bool_decide_eq_false_2, lookup_insert_ne.
Qed.

Lemma snapshotOf_lookup c e ms : forall acc k,
  snapshotOf acc (actionable c e ms) !! k
  = if bool_decide (k ∈ map m_key ms) && negb (bool_decide (k = "__proto__"%string))
    then match resolveIn c e (keyOnly k) with
         | Some v => Some v
         | None => acc !! k
         end
    else acc !! k.
Proof.
  induction ms as [|mm ms IH]; intros acc k.
  - cbn. rewrite bool_decide_eq_false_2; [done|]. apply not_elem_of_nil.
  - unfold actionable. cbn [omap list_omap]. fold (actionable c e ms).
    assert (Hmem : k ∈ map m_key (mm :: ms) <-> m_key mm = k \/ k ∈ map m_key ms).
    { cbn [map]. rewrite elem_of_cons. split; (intros [?|?]; [by left|by right]). }
    destruct (decide (m_key mm = k)) as [Heq|Hne].
    + rewrite (bool_decide_eq_true_2 (k ∈ map m_key (mm :: ms))) by (apply Hmem; by left).
      rewrite <- (resolveIn_key c e mm (keyOnly k)) by done.
      destruct (resolveIn c e mm) as [v|] eqn:Hr; cbn [fmap option_fmap option_map].
      * unfold snapshotOf. cbn [foldl].
        fold (snapshotOf (setProperty (m_key mm) v acc) (actionable c e ms)).
        rewrite IH. rewrite <- (resolveIn_key c e mm (keyOnly k)) by done. rewrite Hr.
        rewrite setProperty_lookup. cbn [fst snd]. rewrite Heq.
        rewrite (bool_decide_eq_true_2 (k = k)) by done. cbn [andb].
        by destruct (bool_decide (k ∈ map m_key ms)), (bool_decide (k = "__proto__"%string)).
      * rewrite IH. rewrite <- (resolveIn_key c e mm (keyOnly k)) by done. rewrite Hr.
        by destruct (bool_decide _), (bool_decide _).
    + assert (Hb : bool_decide (k ∈ map m_key (mm :: ms)) = bool_decide (k ∈ map m_key ms)).
      { apply bool_decide_ext. rewrite Hmem. split; [by intros [?|?]|by right]. }
      rewrite Hb.
      destruct (resolveIn c e mm) as [v|] eqn:Hr; cbn [fmap option_fmap option_map].
      * unfold snapshotOf. cbn [foldl].
        fold (snapshotOf (setProperty (m_key mm) v acc) (actionable c e ms)).
        rewrite IH. rewrite setProperty_lookup. cbn [fst snd].
        rewrite (bool_decide_eq_false_2 (k = m_key mm)) by congruence. done.
      * apply IH.
Qed.

(** The snapshot holds exactly the keys that resolve, with their values; the
    name [__proto__] is never one of its properties. *)
Lemma snapshot_resolves c e ms mm :
  mm ∈ ms ->
  snapshotOf ∅ (actionable c e ms) !! m_key mm
  = if bool_decide (m_key mm = "__proto__"%string) then None else resolveIn c e mm.
Proof.
  intros Hin. rewrite snapshotOf_lookup.
  rewrite bool_decide_eq_true_2 by (by apply (list_elem_of_fmap_2 m_key)).
  rewrite <- (resolveIn_key c e mm (keyOnly (m_key mm))) by done.
  destruct (bool_decide (m_key mm = "__proto__"%string)); cbn [andb negb];
    [apply lookup_empty|].
  destruct (resolveIn c e mm); [done|apply lookup_empty].
Qed.

(** The text after a pass is the original with every match replaced by what
    it renders to.  A match whose key names no variable of the collection
    renders to its own characters, which therefore stay where the length
    changes before them put them, and its key is no property of the snapshot.
    A match whose key names a variable that resolves to the empty string
    renders to nothing: the placeholder is removed; its key is a property of
    the snapshot, with the empty string, unless the key is [__proto__]. *)
Theorem absent_kept_empty_removed cfg name e i mm :
  Tracked.scan (plain (n_chars (e_node e))) !! i = Some mm ->
  exists r e',
    Tracked.replacePlaceholdersInNode cfg name e = (Ok r, e')
    /\ plain (n_chars (e_node e'))
       = rebuildFrom (plain (n_chars (e_node e))) 0
           (map (renderSplice (chosenCollectionOf name e) e)
                (Tracked.scan (plain (n_chars (e_node e)))))
    /\ (foundVariable (chosenCollectionOf name e) e (m_key mm) = None ->
          sp_insert (renderSplice (chosenCollectionOf name e) e mm)
          = slice (m_start mm) (m_start mm + m_len mm) (plain (n_chars (e_node e)))
          /\ slice (m_start mm
                    + shiftBefore (map (renderSplice (chosenCollectionOf name e) e)
                                       (Tracked.scan (plain (n_chars (e_node e))))) i)
                   (m_start mm
                    + shiftBefore (map (renderSplice (chosenCollectionOf name e) e)
                                       (Tracked.scan (plain (n_chars (e_node e))))) i
                    + m_len mm)
                   (plain (n_chars (e_node e')))
             = slice (m_start mm) (m_start mm + m_len mm) (plain (n_chars (e_node e)))
          /\ forall b, n_data (e_node e') = Some b -> b_snapshot b !! m_key mm = None)
    /\ (forall v, foundVariable (chosenCollectionOf name e) e (m_key mm) = Some v ->
          fst (resolveVariableValue v true e) = Ok (JStr []) ->
          sp_insert (renderSplice (chosenCollectionOf name e) e mm) = []
          /\ changed r = true
          /\ exists b, n_data (e_node e') = Some b
               /\ b_snapshot b !! m_key mm
                  = if bool_decide (m_key mm = "__proto__"%string) then None else Some []).
Proof.
  intros Hi.
  set (c := chosenCollectionOf name e). set (text := plain (n_chars (e_node e))) in *.
  set (ms := Tracked.scan text) in *.
  assert (Hin : mm ∈ ms) by (by apply list_elem_of_lookup_2 in Hi).
  destruct (tracked_scan_text text mm Hin) as [Htxt Hlen].
  pose proof (tracked_scan_ascending text) as Hasc. fold ms in Hasc.
  destruct (replace_spec cfg name e) as (e' & _ & _ & _ & _ & _ & Hrep).
  pose proof (textAfter_rebuild cfg name e) as Htext.
  unfold textAfter, afterReplace in Htext. fold text in Htext.
  assert (Hfinal : rebuildFrom text 0 (map valueSplice (actionableIn name e))
                   = rebuildFrom text 0 (map (renderSplice c e) ms)).
  { symmetry. apply render_values; [done|]. intros m Hm. by apply tracked_scan_text. }
  assert (Hsnap : snapshotOf ∅ (actionableIn name e) !! m_key mm
                  = if bool_decide (m_key mm = "__proto__"%string) then None
                    else resolveIn c e mm)
    by exact (snapshot_resolves c e ms mm Hin).
  assert (Hrun : exists r, Tracked.replacePlaceholdersInNode cfg name e = (Ok r, e')
                 /\ (forall b, n_data (e_node e') = Some b ->
                       b_snapshot b = snapshotOf ∅ (actionableIn name e))
                 /\ (actionableIn name e <> [] ->
                       changed r = true /\ exists b, n_data (e_node e') = Some b)).
  { destruct (actionableIn name e) as [|a0 acts0] eqn:Eacts.
    - destruct Hrep as (Hrun & _ & Hd). eexists. split; [done|].
      split; [by rewrite Hd|done].
    - rewrite <- Eacts in *. destruct Hrep as (inhs & _ & Hrun & Hd & _).
      eexists. split; [done|]. rewrite Hd.
      split; [by intros b [= <-]|by eauto]. }
  destruct Hrun as (r & Hrun & Hsn & Hex).
  rewrite Hrun in Htext. cbn [snd] in Htext.
  exists r, e'. split; [done|]. split; [by rewrite Htext|].
  rewrite (resolveIn_found c e mm) in Hsnap.
  split.
  - intros Hnone.
    assert (Hres : resolveIn c e mm = None) by (by rewrite resolveIn_found, Hnone).
    unfold renderSplice at 1. rewrite Hres. cbn [default sp_insert].
    split; [done|]. split.
    + rewrite Htext, Hfinal.
      assert (Hit : map (renderSplice c e) ms !! i = Some (renderSplice c e mm)).
      { by rewrite lookup_map, Hi. }
      pose proof (rebuild_slice_at _ 0 text i _ ltac:(by rewrite render_spans) Hit) as Hs.
      change (sp_start (renderSplice c e mm)) with (m_start mm) in Hs.
      change (sp_insert (renderSplice c e mm))
        with (default (m_text mm) (resolveIn c e mm)) in Hs.
      rewrite Hres in Hs. cbn [default] in Hs.
      assert (Hz : zlen (m_text mm) = m_len mm).
      { destruct (Ascending_all _ _ _ Hasc (m_start mm) (m_len mm)) as (H0 & _ & H1);
          [by apply (list_elem_of_fmap_2 mspan) in Hin|].
        rewrite Htxt, zlen_slice; lia. }
      rewrite Hz in Hs. rewrite <- Htxt.
      etransitivity; [|exact Hs]. f_equal; lia.
    + intros b Hb. rewrite (Hsn b Hb), Hsnap, Hnone. by destruct (bool_decide _).
  - intros v Hfound Hval.
    assert (Hres : resolveIn c e mm = Some []).
    { rewrite resolveIn_found, Hfound. by rewrite Hval. }
    unfold renderSplice. rewrite Hres. split; [done|].
    destruct Hex as [Hch [b Hb]].
    { intros Hnil. change (actionable c e ms = []) in Hnil.
      rewrite (proj1 (actionable_none_iff c e ms) Hnil mm Hin) in Hres. done. }
    split; [done|]. exists b. split; [done|].
    rewrite (Hsn b Hb), Hsnap, Hfound. by rewrite Hval.
Qed.

(** Both halves on one text: [@missing] stays, [@gone] is removed, and only
    [gone] is a property of the snapshot. *)
Example absent_kept_empty_removed_sample :
  let e := sampleEnv (styled Inter (chars "[@gone] @missing")) [stringVar "gone" ""] in
  exists r e',
    Tracked.replacePlaceholdersInNode noIcon "Keywords" e = (Ok r, e')
    /\ changed r = true
    /\ plain (n_chars (e_node e')) = chars "[] @missing"
    /\ exists b, n_data (e_node e') = Some b
         /\ b_snapshot b !! "gone"%string = Some []
         /\ b_snapshot b !! "missing"%string = None.
Proof.
  intros e.
  destruct (absent_kept_empty_removed noIcon "Keywords" e 0%nat
              (mkMatch "gone" 1 5 (chars "@gone")))
    as (r & e' & Hrun & Htext & _ & Hempty); [reflexivity|].
  destruct (Hempty (stringVar "gone" "")) as (_ & Hch & b & Hb & Hgone);
    [reflexivity|reflexivity|].
  destruct (absent_kept_empty_removed noIcon "Keywords" e 1%nat
              (mkMatch "missing" 8 8 (chars "@missing")))
    as (r2 & e2 & Hrun2 & _ & Habsent & _); [reflexivity|].
  rewrite Hrun in Hrun2. injection Hrun2 as <- <-.
  destruct Habsent as (_ & _ & Hmissing); [reflexivity|].
  exists r, e'. split; [exact Hrun|]. split; [exact Hch|].
  split; [rewrite Htext; reflexivity|].
  exists b. split; [exact Hb|]. split; [exact Hgone|]. by apply Hmissing.
Qed.

Example unresolved_key_preserved :
  let e := sampleEnv (styled Inter (chars "@known @missing")) [stringVar "known" "V"] in
  textAfter noIcon "Keywords" e = chars "V @missing"
  /\ (b_snapshot <$> n_data (e_node (afterReplace noIcon "Keywords" e)))
     = Some {[ "known"%string := chars "V" ]}.
Proof. vm_compute. by split. Qed.

Example empty_value_removed :
  let e := sampleEnv (styled Inter (chars "[@gone]")) [stringVar "gone" ""] in
  textAfter noIcon "Keywords" e = chars "[]"
  /\ (b_snapshot <$> n_data (e_node (afterReplace noIcon "Keywords" e)))
     = Some {[ "gone"%string := [] ]}.
Proof. vm_compute. by split. Qed.

(** C4. The snapshot misses a key that resolves: the scanner accepts the key
    [__proto__], the variable of that name resolves (here to the empty
    string) and the placeholder is removed, but the assignment
    [snapshot[mm.key] = resolvedValue] creates no property of that name, so
    neither the snapshot the pass returns nor the one it saves holds the
    key.  A key of any other name is recorded. *)
Lemma snapshot_misses_proto_key :
  let e := sampleEnv (styled Inter (chars "[@__proto__ @gone]"))
                     [stringVar "__proto__" ""; stringVar "gone" ""] in
  map m_key (Tracked.scan (plain (n_chars (e_node e)))) = ["__proto__"%string; "gone"%string]
  /\ resolveIn keywords e (mkMatch "__proto__" 1 10 (chars "@__proto__")) = Some []
  /\ textAfter noIcon "Keywords" e = chars "[ ]"
  /\ fst (Tracked.replacePlaceholdersInNode noIcon "Keywords" e)
     = Ok (mkReplaceResult true (Some {[ "gone"%string := [] ]}))
  /\ (b_snapshot <$> n_data (e_node (afterReplace noIcon "Keywords" e)))
     = Some {[ "gone"%string := [] ]}
  /\ (n_data (e_node (afterReplace noIcon "Keywords" e))
        ≫= fun b => b_snapshot b !! "__proto__"%string) = None.
Proof. vm_compute. by repeat split. Qed.

(** The whole-text variant writes its snapshot the same way. *)
Example whole_snapshot_misses_proto_key :
  let e := sampleEnv (styled Inter (chars "[@__proto__ @gone]"))
                     [stringVar "__proto__" "P"; stringVar "gone" "G"] in
  fst (WholeText.replacePlaceholdersInNode "Keywords" e)
  = Ok (mkReplaceResult true (Some {[ "gone"%string := chars "G" ]})).
Proof. vm_compute. reflexivity. Qed.

(** ** The whole-text variant *)

Lemma whole_buildLoop text c ms : forall out lastIndex snap e,
  exists o li s,
    WholeText.buildLoop text c ms out lastIndex snap e = (Ok (o, li, s), e)
    /\ o ++ slice li (zlen text) text
       = out ++ rebuildFrom text lastIndex (map (renderWhole c e text) ms).
Proof.
  induction ms as [|mm ms IH]; intros out lastIndex snap e.
  - exists out, lastIndex, snap. by split.
  - cbn [WholeText.buildLoop map rebuildFrom].
    change (sp_start (renderWhole c e text mm)) with (m_start mm).
    change (sp_remove (renderWhole c e text mm)) with (m_len mm).
    change (sp_insert (renderWhole c e text mm))
      with (default (slice (m_start mm) (m_start mm + m_len mm) text) (resolveIn c e mm)).
    rewrite resolveIn_found. unfold foundVariable.
    unfold bind at 1. unfold findStringVariable at 1.
    destruct (find _ (e_variables e)) as [v|].
    + unfold bind at 1. destruct (resolveVariableValue_pure v true e) as [val ->].
      cbn [fst default].
      destruct (IH ((out ++ slice lastIndex (m_start mm) text) ++ stringOrEmpty val)
                   (m_start mm + m_len mm) (setProperty (m_key mm) (stringOrEmpty val) snap) e)
        as (o & li & s & -> & Heq).
      exists o, li, s. split; [done|]. rewrite Heq. by rewrite <- !app_assoc.
    + cbn [default].
      destruct (IH ((out ++ slice lastIndex (m_start mm) text)
                      ++ slice (m_start mm) (m_start mm + m_len mm) text)
                   (m_start mm + m_len mm) snap e)
        as (o & li & s & -> & Heq).
      exists o, li, s. split; [done|]. rewrite Heq. by rewrite <- !app_assoc.
Qed.

Lemma renderWhole_ext c e1 e text ms :
  e_variables e1 = e_variables e ->
  map (renderWhole c e1 text) ms = map (renderWhole c e text) ms.
Proof.
  intros Hv. apply map_ext. intros mm. unfold renderWhole.
  by rewrite (resolveIn_ext c e1 e mm Hv).
Qed.

Lemma whole_replace_text name e :
  exists r e',
    WholeText.replacePlaceholdersInNode name e = (Ok r, e')
    /\ plain (n_chars (e_node e'))
       = rebuildFrom (plain (n_chars (e_node e))) 0
           (map (renderWhole (chosenCollectionOf name e) e (plain (n_chars (e_node e))))
                (WholeText.scan (plain (n_chars (e_node e))))).
Proof.
  unfold WholeText.replacePlaceholdersInNode. unfold bind at 1. unfold getCharacters at 1.
  set (text := plain (n_chars (e_node e))).
  destruct (WholeText.scan text) as [|m0 ms0] eqn:Hscan.
  - eexists _, e. split; [reflexivity|]. simpl.
    rewrite slice_from_0, to_nat_zlen. by rewrite take_ge.
  - rewrite <- Hscan. set (ms := WholeText.scan text) in *.
    destruct (getOrCreate_frame name e) as (e1 & Hg & Hn1 & Hl1 & Ha1 & Hv1).
    unfold bind at 1. rewrite Hg. unfold bind at 1.
    destruct (whole_buildLoop text (chosenCollectionOf name e) ms [] 0 ∅ e1)
      as (o & li & s & -> & Heq).
    rewrite (renderWhole_ext _ e1 e _ _ Hv1) in Heq. cbn [app] in Heq.
    unfold bind at 1.
    destruct (safeLoadFontsForNode_keeps e1) as (u & e2 & -> & Hn2 & _).
    unfold bind, WholeText.saveNodeBackup, tryCatch, setPluginData, setCharacters, ret.
    eexists _, _. split; [reflexivity|].
    unfold withChars, withData, withNode. cbn [e_node n_chars].
    rewrite plain_styled. done.
Qed.

(** ** The two scanners *)

(** With the same matches, the right-to-left pass and the left-to-right
    build give the same characters. *)
Lemma engines_agree_on_equal_scans cfg name e :
  WholeText.scan (plain (n_chars (e_node e))) = Tracked.scan (plain (n_chars (e_node e))) ->
  exists rW eW rT eT,
    WholeText.replacePlaceholdersInNode name e = (Ok rW, eW)
    /\ Tracked.replacePlaceholdersInNode cfg name e = (Ok rT, eT)
    /\ plain (n_chars (e_node eW)) = plain (n_chars (e_node eT)).
Proof.
  intros Hscan.
  destruct (whole_replace_text name e) as (rW & eW & HW & HtW).
  destruct (replace_text cfg name e) as (rT & eT & HT & HtT).
  exists rW, eW, rT, eT. split; [done|]. split; [done|].
  rewrite HtW, HtT, Hscan. set (text := plain (n_chars (e_node e))).
  unfold actionableIn. fold text.
  rewrite <- (render_values (chosenCollectionOf name e) e text (Tracked.scan text) 0).
  - f_equal. apply map_ext_in. intros mm Hmm. apply list_elem_of_In in Hmm.
    unfold renderWhole, renderSplice.
    by rewrite (proj1 (tracked_scan_text text mm Hmm)).
  - apply tracked_scan_ascending.
  - intros mm Hmm. by apply tracked_scan_text.
Qed.

(** C9, as stated, fails: the whole-text expression takes a trailing dot into
    the key, the tracked one takes a dot only between two segments. *)
Lemma engines_differ_on_trailing_dot :
  let e := sampleEnv (styled Inter (chars "@a.")) [stringVar "a" "X"] in
  map m_key (WholeText.scan (chars "@a.")) = ["a."%string]
  /\ map m_key (Tracked.scan (chars "@a.")) = ["a"%string]
  /\ plain (n_chars (e_node (snd (WholeText.replacePlaceholdersInNode "Keywords" e))))
     = chars "@a."
  /\ textAfter noIcon "Keywords" e = chars "X."
  /\ plain (n_chars (e_node (snd (WholeText.replacePlaceholdersInNode "Keywords" e))))
     <> textAfter noIcon "Keywords" e.
Proof. vm_compute. repeat split. discriminate. Qed.

(** ** Fonts of the inserted and of the restored spans *)

Lemma capturedFont_first e mm :
  0 <= m_start mm -> 1 <= m_len mm ->
  m_start mm + m_len mm <= zlen (n_chars (e_node e)) ->
  exists c f, n_chars (e_node e) !! Z.to_nat (m_start mm) = Some (c, f)
              /\ capturedFont e mm = Some f.
Proof.
  intros Hs Hl Hb. set (cs := n_chars (e_node e)) in *.
  destruct (lookup_lt_is_Some_2 cs (Z.to_nat (m_start mm))) as [[c f] Hcf].
  { unfold zlen in Hb. lia. }
  exists c, f. split; [done|].
  unfold capturedFont, Tracked.captureFont, tryCatch, getRangeFontName. fold cs.
  rewrite inRange_true by lia.
  replace (m_start mm <? m_start mm + 1) with true by (symmetry; apply Z.ltb_lt; lia).
  cbn [andb]. unfold slice.
  replace (Z.to_nat (m_start mm + 1) - Z.to_nat (m_start mm))%nat with 1%nat by lia.
  by rewrite (drop_S _ _ _ Hcf).
Qed.




Lemma actionable_in_text name e a :
  a ∈ actionableIn name e ->
  0 <= m_start a.1 /\ 1 <= m_len a.1
  /\ m_start a.1 + m_len a.1 <= zlen (n_chars (e_node e))
  /\ zlen (m_text a.1) = m_len a.1.
Proof.
  destruct a as [mm v]. intros Ha. apply actionable_elem in Ha as [Hmm _]. cbn [fst].
  destruct (tracked_scan_text _ _ Hmm) as [Ht Hl].
  pose proof (tracked_scan_ascending (plain (n_chars (e_node e)))) as Hall.
  destruct (Ascending_all _ _ _ Hall (m_start mm) (m_len mm)) as (H0 & _ & Hb).
  { apply (list_elem_of_fmap_2 mspan) in Hmm. exact Hmm. }
  split; [done|]. split; [done|]. rewrite zlen_plain in Hb. split; [done|].
  rewrite Ht, zlen_slice; [lia|lia|]. rewrite zlen_plain. lia.
Qed.

(** ** The fonts a pass and a restoration choose *)




Section RightToLeftInherit.
Context {X : Type} (step : X -> M unit) (spanOf : X -> Z * Z) (insOf : X -> list ascii)
  (choose : list Font -> Font -> X -> Font) (pre : list Font -> Prop).

Hypothesis step_at : forall x e (A P B : Styled),
  n_chars (e_node e) = A ++ P ++ B ->
  fst (spanOf x) = zlen A -> snd (spanOf x) = zlen P -> pre (e_loaded e) ->
  step x e
  = (Ok tt, withChars e
      (A ++ styled (choose (e_loaded e)
                      (styleBefore (n_base (e_node e)) (A ++ P ++ B) (List.length A)) x)
              (insOf x) ++ B)).


End RightToLeftInherit.












Example icon_routed_and_restored :
  let e := sampleEnv (styled Inter (chars "go @icon/star")) [stringVar "icon/star" "S"] in
  n_chars (e_node (afterReplace withIcon "Keywords" e))
  = styled Inter (chars "go ") ++ styled Glyphs (chars "S")
  /\ n_chars (e_node (afterRoundTrip withIcon "Keywords" e))
     = styled Inter (chars "go @icon/star").
Proof. vm_compute. by split. Qed.

Example icon_font_not_configured :
  let e := sampleEnv (styled Inter (chars "go ") ++ styled InterBold (chars "@icon/star"))
                     [stringVar "icon/star" "S"] in
  n_chars (e_node (afterReplace noIcon "Keywords" e))
  = styled Inter (chars "go ") ++ styled InterBold (chars "S").
Proof. vm_compute. reflexivity. Qed.


(** ** Round trip *)






(** The round trip also misses the text itself where an actionable
    placeholder with an empty value is immediately followed by another one:
    their records share a start and the stable sort keeps them in scan order. *)
Example roundtrip_swaps_adjacent_empty :
  let e := sampleEnv (styled Inter (chars "@a@b")) [stringVar "a" ""; stringVar "b" ""] in
  plain (n_chars (e_node (afterReplace noIcon "Keywords" e))) = chars ""
  /\ plain (n_chars (e_node (afterRoundTrip noIcon "Keywords" e))) = chars "@b@a".
Proof. vm_compute. by split. Qed.

(** A placeholder set in a font the host cannot load comes back in the font
    of the character before it. *)
Example roundtrip_loses_unloadable_font :
  let e := mkEnv (mkNode (styled Inter (chars "x") ++ styled Missing (chars "@a")) Inter None)
                 [Inter] [Inter] [keywords] [stringVar "a" "V"] in
  n_chars (e_node (afterReplace noIcon "Keywords" e)) = styled Inter (chars "xV")
  /\ n_chars (e_node (afterRoundTrip noIcon "Keywords" e)) = styled Inter (chars "x@a")
  /\ n_chars (e_node (afterRoundTrip noIcon "Keywords" e)) <> n_chars (e_node e).
Proof. vm_compute. repeat split. discriminate. Qed.

(** Two fonts with the key [Fira__Code__Bold]: both passes ask for the first
    font with that key only, the other one is never loaded, and its
    placeholder comes back in the font of the character before it. *)
Example roundtrip_loses_font_on_key_clash :
  let F1 := mkFont "Fira__Code" "Bold" in
  let F2 := mkFont "Fira" "Code__Bold" in
  let e := mkEnv (mkNode (styled F1 (chars "@a") ++ styled F2 (chars "@b")
                            ++ styled F1 (chars "@c")) F1 None)
                 [] [F1; F2] [keywords]
                 [stringVar "a" "X"; stringVar "b" "Y"; stringVar "c" "Z"] in
  e_loaded (afterRoundTrip noIcon "Keywords" e) = [F1]
  /\ n_chars (e_node (afterRoundTrip noIcon "Keywords" e)) = styled F1 (chars "@a@b@c")
  /\ n_chars (e_node (afterRoundTrip noIcon "Keywords" e)) <> n_chars (e_node e).
Proof. vm_compute. repeat split. discriminate. Qed.

(** The same two fonts, with a character in the second font before the
    placeholders: the substitution pass asks for that font as the first with
    its key among the node's fonts, restoration for the other one as the
    first among its records, and every character gets its font back. *)
Example roundtrip_keeps_fonts_loaded_by_either_pass :
  let F1 := mkFont "Fira__Code" "Bold" in
  let F2 := mkFont "Fira" "Code__Bold" in
  let e := mkEnv (mkNode (styled F2 (chars "x") ++ styled F1 (chars "@a")
                            ++ styled F2 (chars "@b") ++ styled F1 (chars "@c")) F1 None)
                 [] [F1; F2] [keywords]
                 [stringVar "a" "X"; stringVar "b" "Y"; stringVar "c" "Z"] in
  e_loaded (afterReplace noIcon "Keywords" e) = [F2]
  /\ n_chars (e_node (afterRoundTrip noIcon "Keywords" e)) = n_chars (e_node e).
Proof. vm_compute. by split. Qed.

(** * The scanners *)

Lemma chars_str (l : list ascii) : chars (str l) = l.
Proof. apply list_ascii_of_string_of_list_ascii. Qed.

Lemma segChar_not_at c : segChar c = true -> ascii_is "@" c = false.
Proof. destruct c as [[] [] [] [] [] [] [] []]; vm_compute; congruence. Qed.

Lemma segChar_not_dot c : segChar c = true -> ascii_is "." c = false.
Proof. destruct c as [[] [] [] [] [] [] [] []]; vm_compute; congruence. Qed.

Lemma keyChar_not_at c : keyChar c = true -> ascii_is "@" c = false.
Proof. destruct c as [[] [] [] [] [] [] [] []]; vm_compute; congruence. Qed.

Lemma spanClass_prefix cls s :
  Forall (fun c => cls c = true) (fst (spanClass cls s))
  /\ match snd (spanClass cls s) with
     | c :: _ => cls c = false
     | [] => True
     end.
Proof.
  induction s as [|c s IH]; simpl; [by split|].
  destruct (cls c) eqn:Hc; [|by split].
  destruct (spanClass cls s) as [p r]. simpl in *. destruct IH as [IH1 IH2].
  split; [by constructor|done].
Qed.

Section ExecLoopMatches.
Context (matchAt : list ascii -> option (list ascii * nat)).
Hypothesis matchAt_bound : forall s key n,
  matchAt s = Some (key, n) -> (1 <= n <= List.length s)%nat.

(** Every match of the loop is a match of the expression at its offset. *)
Lemma execLoop_elem s : forall skip pos m,
  m ∈ execLoop matchAt skip pos s ->
  exists (i : nat) key n,
    (i < List.length s)%nat /\ matchAt (drop i s) = Some (key, n)
    /\ m = mkMatch (str key) (pos + Z.of_nat i) (Z.of_nat n) (take n (drop i s)).
Proof.
  induction s as [|c s IH]; intros skip pos m Hin; [by apply elem_of_nil in Hin|].
  assert (Hrec : forall k, m ∈ execLoop matchAt k (pos + 1) s ->
            exists (i : nat) key n,
              (i < List.length (c :: s))%nat /\ matchAt (drop i (c :: s)) = Some (key, n)
              /\ m = mkMatch (str key) (pos + Z.of_nat i) (Z.of_nat n)
                             (take n (drop i (c :: s)))).
  { intros k Hk. destruct (IH _ _ _ Hk) as (i & key & n & Hi & Hm & ->).
    exists (S i), key, n. split; [simpl; lia|]. split; [done|]. simpl. f_equal. lia. }
  destruct skip as [|k]; cbn [execLoop] in Hin; [|by apply (Hrec k)].
  destruct (matchAt (c :: s)) as [[key n]|] eqn:Hm; [|by apply (Hrec O)].
  apply elem_of_cons in Hin as [->|Hin]; [|by apply (Hrec (pred n))].
  exists O, key, n. split; [simpl; lia|]. split; [done|]. simpl. f_equal. lia.
Qed.

Context (cls : ascii -> bool).
Hypothesis matchAt_tail : forall c s key n,
  matchAt (c :: s) = Some (key, n) ->
  Forall (fun x => ascii_is "@" x = false) (take (pred n) s).
Hypothesis matchAt_some : forall c s,
  cls c = true -> matchAt ("@"%char :: c :: s) <> None.

(** The loop misses no at-sign that a character of the class follows: an
    at-sign never lies inside an earlier match. *)
Lemma execLoop_complete s : forall skip pos (i : nat) c,
  Forall (fun x => ascii_is "@" x = false) (take skip s) ->
  s !! i = Some "@"%char -> s !! S i = Some c -> cls c = true ->
  exists m, m ∈ execLoop matchAt skip pos s /\ m_start m = pos + Z.of_nat i.
Proof.
  induction s as [|a s IH]; intros skip pos i c Hskip Hi Hc Hcls; [done|].
  assert (Hrec : forall k j, Forall (fun x => ascii_is "@" x = false) (take k s) ->
            i = S j ->
            exists m, m ∈ execLoop matchAt k (pos + 1) s /\ m_start m = pos + Z.of_nat i).
  { intros k j Hk ->. destruct (IH k (pos + 1) j c Hk Hi Hc Hcls) as (m & Hm & Hs).
    exists m. split; [done|]. lia. }
  destruct skip as [|k]; cbn [execLoop].
  - destruct (matchAt (a :: s)) as [[key n]|] eqn:Hm.
    + destruct i as [|j].
      * eexists. split; [left|]. simpl. lia.
      * destruct (Hrec (pred n) j) as (m & Hin & Hs); [by eapply matchAt_tail|done|].
        exists m. split; [by right|done].
    + destruct i as [|j]; [|by apply (Hrec O j); [constructor|]].
      simpl in Hi. injection Hi as ->.
      destruct s as [|c' s']; [done|]. simpl in Hc. injection Hc as ->.
      by apply matchAt_some in Hm.
  - simpl in Hskip. apply Forall_cons in Hskip as [Ha Hskip].
    destruct i as [|j]; [|by apply (Hrec k j)].
    simpl in Hi. injection Hi as ->. done.
Qed.

End ExecLoopMatches.

(** ** The tracked expression *)

Lemma segments_cons key : exists seg segs, segments key = seg :: segs.
Proof.
  induction key as [|c key (seg & segs & IH)]; cbn [segments]; [by eauto|].
  destruct (ascii_is "." c); [by eauto|]. rewrite IH. by eauto.
Qed.

Lemma segments_app seg d :
  Forall (fun c => segChar c = true) seg ->
  segments (seg ++ d)
  = match segments d with
    | x :: xs => (seg ++ x) :: xs
    | [] => [seg]
    end.
Proof.
  destruct (segments_cons d) as (x & xs & Hd). rewrite Hd.
  induction seg as [|c seg IH]; intros H; cbn [app segments]; [done|].
  apply Forall_cons in H as [Hc H]. by rewrite (segChar_not_dot c Hc), (IH H).
Qed.

Lemma dotSegments_segments fuel : forall s,
  exists segs, segments (Tracked.dotSegments fuel s) = [] :: segs
    /\ Forall (fun seg => seg <> [] /\ Forall (fun c => segChar c = true) seg) segs.
Proof.
  induction fuel as [|fuel IH]; intros s; cbn [Tracked.dotSegments]; [by exists []|].
  destruct s as [|c s]; [by exists []|].
  destruct (ascii_is "." c) eqn:Hdot; [|by exists []].
  pose proof (spanClass_prefix segChar s) as [Hseg _].
  destruct (spanClass segChar s) as [seg rest]. cbn [fst] in Hseg.
  destruct seg as [|a seg]; [by exists []|].
  destruct (IH rest) as (segs & Hs & Hok).
  exists ((a :: seg) :: segs). split.
  - cbn [segments]. rewrite Hdot. f_equal.
    change (a :: seg ++ Tracked.dotSegments fuel rest)
      with ((a :: seg) ++ Tracked.dotSegments fuel rest).
    rewrite segments_app by done. rewrite Hs. by rewrite app_nil_r.
  - constructor; [by split|done].
Qed.

Lemma dotSegments_rest fuel : forall s,
  match s with c :: _ => segChar c = false | [] => True end ->
  exists rest, s = Tracked.dotSegments fuel s ++ rest
    /\ match rest with c :: _ => segChar c = false | [] => True end.
Proof.
  induction fuel as [|fuel IH]; intros s Hs; cbn [Tracked.dotSegments]; [by exists s|].
  destruct s as [|c s]; [by exists []|].
  destruct (ascii_is "." c) eqn:Hdot; [|by exists (c :: s)].
  pose proof (spanClass_prefix segChar s) as [_ Hrest].
  pose proof (spanClass_app segChar s) as Happ.
  destruct (spanClass segChar s) as [seg rest]. cbn [fst snd] in *.
  destruct seg as [|a seg]; [by exists (c :: s)|].
  destruct (IH rest Hrest) as (rest' & Hr & Hh).
  exists rest'. split; [|done]. rewrite <- Happ. simpl. do 2 f_equal.
  rewrite <- app_assoc. by f_equal.
Qed.

Lemma dotSegments_keyChars fuel : forall s,
  Forall (fun c => keyChar c = true) (Tracked.dotSegments fuel s).
Proof.
  induction fuel as [|fuel IH]; intros s; cbn [Tracked.dotSegments]; [constructor|].
  destruct s as [|c s]; [constructor|].
  destruct (ascii_is "." c) eqn:Hdot; [|constructor].
  pose proof (spanClass_prefix segChar s) as [Hseg _].
  destruct (spanClass segChar s) as [seg rest]. cbn [fst] in Hseg.
  destruct seg as [|a seg]; [constructor|].
  constructor; [unfold keyChar; rewrite Hdot; apply orb_true_r|].
  apply Forall_app. split; [|apply IH].
  eapply Forall_impl; [exact Hseg|]. intros x Hx. cbv beta in Hx. unfold keyChar. by rewrite Hx.
Qed.

(** A match of the tracked expression: an at-sign, the key, and a rest that
    does not go on with a segment character. *)
Lemma tracked_matchAt_spec s key n :
  Tracked.matchAt s = Some (key, n) ->
  exists rest, s = "@"%char :: key ++ rest /\ n = S (List.length key)
    /\ Forall (fun c => keyChar c = true) key
    /\ dottedKey key
    /\ match rest with c :: _ => segChar c = false | [] => True end.
Proof.
  unfold Tracked.matchAt. destruct s as [|c s]; [done|].
  destruct (ascii_is "@" c) eqn:Hat; [|done].
  apply Ascii.eqb_eq in Hat as <-.
  pose proof (spanClass_prefix segChar s) as [Hseg Hrest].
  pose proof (spanClass_app segChar s) as Happ.
  destruct (spanClass segChar s) as [seg rest]. cbn [fst snd] in *.
  destruct seg as [|a seg]; [done|]. intros [= <- <-].
  destruct (dotSegments_rest (List.length rest) rest Hrest) as (rest' & Hr & Hh).
  destruct (dotSegments_segments (List.length rest) rest) as (segs & Hs & Hok).
  exists rest'. split; [|split; [done|split; [|split; [|done]]]].
  - rewrite <- Happ. cbn [app]. do 2 f_equal. rewrite <- app_assoc. by f_equal.
  - change (a :: seg ++ Tracked.dotSegments (List.length rest) rest)
      with ((a :: seg) ++ Tracked.dotSegments (List.length rest) rest).
    apply Forall_app. split; [|apply dotSegments_keyChars].
    eapply Forall_impl; [exact Hseg|]. intros x Hx. cbv beta in Hx. unfold keyChar. by rewrite Hx.
  - unfold dottedKey.
    change (a :: seg ++ Tracked.dotSegments (List.length rest) rest)
      with ((a :: seg) ++ Tracked.dotSegments (List.length rest) rest).
    rewrite segments_app by done. rewrite Hs, app_nil_r.
    constructor; [by split|done].
Qed.

Lemma tracked_matchAt_tail c s key n :
  Tracked.matchAt (c :: s) = Some (key, n) ->
  Forall (fun x => ascii_is "@" x = false) (take (pred n) s).
Proof.
  intros H. destruct (tracked_matchAt_spec _ _ _ H) as (rest & Hs & -> & Hk & _).
  injection Hs as -> ->. cbn [pred]. rewrite take_app_length.
  eapply Forall_impl; [exact Hk|]. intros x. apply keyChar_not_at.
Qed.

Lemma tracked_matchAt_some c s :
  segChar c = true -> Tracked.matchAt ("@"%char :: c :: s) <> None.
Proof.
  intros Hc. unfold Tracked.matchAt. cbn [spanClass]. rewrite Hc.
  change (ascii_is "@" "@") with true. cbv iota.
  by destruct (spanClass segChar s).
Qed.

(** ** The whole-text expression *)

Lemma whole_matchAt_spec s key n :
  WholeText.matchAt s = Some (key, n) ->
  exists rest, s = "@"%char :: key ++ rest /\ n = S (List.length key)
    /\ key <> [] /\ Forall (fun c => keyChar c = true) key
    /\ match rest with c :: _ => keyChar c = false | [] => True end.
Proof.
  unfold WholeText.matchAt. destruct s as [|c s]; [done|].
  destruct (ascii_is "@" c) eqn:Hat; [|done].
  apply Ascii.eqb_eq in Hat as <-.
  pose proof (spanClass_prefix keyChar s) as [Hkey Hrest].
  pose proof (spanClass_app keyChar s) as Happ.
  destruct (spanClass keyChar s) as [k rest]. cbn [fst snd] in *.
  destruct k as [|a k]; [done|]. intros [= <- <-].
  exists rest. by rewrite Happ.
Qed.

Lemma whole_matchAt_tail c s key n :
  WholeText.matchAt (c :: s) = Some (key, n) ->
  Forall (fun x => ascii_is "@" x = false) (take (pred n) s).
Proof.
  intros H. destruct (whole_matchAt_spec _ _ _ H) as (rest & Hs & -> & _ & Hk & _).
  injection Hs as -> ->. cbn [pred]. rewrite take_app_length.
  eapply Forall_impl; [exact Hk|]. intros x. apply keyChar_not_at.
Qed.

Lemma whole_matchAt_some c s :
  keyChar c = true -> WholeText.matchAt ("@"%char :: c :: s) <> None.
Proof.
  intros Hc. unfold WholeText.matchAt. cbn [spanClass]. rewrite Hc.
  change (ascii_is "@" "@") with true. cbv iota.
  by destruct (spanClass keyChar s).
Qed.

(** A match as the loop records it, read off the text. *)
Lemma match_in_text text (i n : nat) key rest :
  drop i text = "@"%char :: key ++ rest -> n = S (List.length key) ->
  let m := mkMatch (str key) (0 + Z.of_nat i) (Z.of_nat n) (take n (drop i text)) in
  0 <= m_start m /\ m_start m + m_len m <= zlen text
  /\ slice (m_start m) (m_start m + m_len m) text = "@"%char :: chars (m_key m)
  /\ m_text m = "@"%char :: chars (m_key m)
  /\ m_len m = 1 + zlen (chars (m_key m))
  /\ text !! Z.to_nat (m_start m + m_len m) = rest !! O.
Proof.
  intros Hd -> m. subst m. cbn [m_start m_len m_text m_key]. rewrite chars_str.
  assert (Ht : take (S (List.length key)) (drop i text) = "@"%char :: key).
  { rewrite Hd. cbn [take]. by rewrite take_app_length. }
  assert (Hlen : (i + S (List.length key) + List.length rest = List.length text)%nat).
  { pose proof (f_equal List.length Hd) as Hl. rewrite length_drop in Hl.
    simpl in Hl. rewrite length_app in Hl. lia. }
  split; [lia|]. split; [unfold zlen; lia|]. split; [|split; [done|split]].
  - unfold slice.
    replace (Z.to_nat (0 + Z.of_nat i)) with i by lia.
    replace (Z.to_nat (0 + Z.of_nat i + Z.of_nat (S (List.length key))) - i)%nat
      with (S (List.length key)) by lia.
    done.
  - unfold zlen. lia.
  - replace (Z.to_nat (0 + Z.of_nat i + Z.of_nat (S (List.length key))))
      with (i + S (List.length key))%nat by lia.
    rewrite <- lookup_drop, Hd.
    change (("@"%char :: key ++ rest) !! S (List.length key))
      with ((key ++ rest) !! List.length key).
    rewrite lookup_app_r by lia. by rewrite Nat.sub_diag.
Qed.

(** X1. Every match of the tracked scanner quotes the text: at its offset
    the text reads an at-sign and the key; the key is a dot-separated list of
    non-empty runs of segment characters, and the match is as long as it can
    be: no segment character follows it. *)
Theorem tracked_scan_matches text m :
  m ∈ Tracked.scan text ->
  0 <= m_start m /\ m_start m + m_len m <= zlen text
  /\ slice (m_start m) (m_start m + m_len m) text = "@"%char :: chars (m_key m)
  /\ m_text m = "@"%char :: chars (m_key m)
  /\ m_len m = 1 + zlen (chars (m_key m))
  /\ dottedKey (chars (m_key m))
  /\ (forall c, text !! Z.to_nat (m_start m + m_len m) = Some c -> segChar c = false).
Proof.
  intros Hin. unfold Tracked.scan in Hin.
  destruct (execLoop_elem _ _ _ _ _ Hin) as (i & key & n & Hi & Hm & ->).
  destruct (tracked_matchAt_spec _ _ _ Hm) as (rest & Hd & Hn & _ & Hkey & Hrest).
  destruct (match_in_text text i n key rest Hd Hn) as (H1 & H2 & H3 & H4 & H5 & H6).
  split; [done|]. split; [done|]. split; [done|]. split; [done|]. split; [done|].
  split; [cbn [m_key]; by rewrite chars_str|].
  intros c. rewrite H6. destruct rest as [|c' rest]; [done|]. by intros [= <-].
Qed.

Lemma tracked_scan_matches_witness :
  let text := chars "see @a.b. now" in
  let m := mkMatch "a.b" 4 4 (chars "@a.b") in
  0 <= m_start m /\ m_start m + m_len m <= zlen text
  /\ slice (m_start m) (m_start m + m_len m) text = "@"%char :: chars (m_key m)
  /\ m_text m = "@"%char :: chars (m_key m)
  /\ m_len m = 1 + zlen (chars (m_key m))
  /\ dottedKey (chars (m_key m))
  /\ (forall c, text !! Z.to_nat (m_start m + m_len m) = Some c -> segChar c = false).
Proof.
  apply (tracked_scan_matches (chars "see @a.b. now") (mkMatch "a.b" 4 4 (chars "@a.b"))).
  vm_compute. left.
Defined.

(** X2. The tracked scanner misses no placeholder: wherever the text has an
    at-sign followed by a segment character, a match starts. *)
Theorem tracked_scan_complete text (i : nat) c :
  text !! i = Some "@"%char -> text !! S i = Some c -> segChar c = true ->
  exists m, m ∈ Tracked.scan text /\ m_start m = Z.of_nat i.
Proof.
  intros Hi Hc Hcls.
  destruct (execLoop_complete Tracked.matchAt segChar tracked_matchAt_tail
              tracked_matchAt_some text O 0 i c) as (m & Hm & Hs); try done.
  exists m. split; [done|]. lia.
Qed.

Lemma tracked_scan_complete_witness :
  exists m, m ∈ Tracked.scan (chars "a@b @c") /\ m_start m = Z.of_nat 4.
Proof.
  apply (tracked_scan_complete (chars "a@b @c") 4 "c"%char); reflexivity.
Defined.

Lemma Ascending_lookup_lt spans : forall q len (i j : nat) s1 r1 s2 r2,
  Ascending q spans len -> (i < j)%nat ->
  spans !! i = Some (s1, r1) -> spans !! j = Some (s2, r2) -> s1 + r1 <= s2.
Proof.
  induction spans as [|[s r] spans IH]; intros q len i j s1 r1 s2 r2 H Hij Hi Hj; [done|].
  simpl in H. destruct H as (Hq & Hr & H).
  destruct j as [|j]; [lia|]. destruct i as [|i].
  - injection Hi as -> ->.
    change (spans !! j = Some (s2, r2)) in Hj.
    apply list_elem_of_lookup_2 in Hj.
    destruct (Ascending_all _ _ _ H _ _ Hj). lia.
  - apply (IH _ _ i j s1 r1 s2 r2 H); [lia|done|done].
Qed.

(** X3. The matches of the tracked scanner are listed from left to right
    and do not overlap: a match ends before the next one starts. *)
Theorem tracked_scan_ordered text (i j : nat) m1 m2 :
  (i < j)%nat ->
  Tracked.scan text !! i = Some m1 -> Tracked.scan text !! j = Some m2 ->
  m_start m1 + m_len m1 <= m_start m2.
Proof.
  intros Hij Hi Hj.
  apply (Ascending_lookup_lt _ _ _ i j (m_start m1) (m_len m1) (m_start m2) (m_len m2)
           (tracked_scan_ascending text) Hij).
  - by rewrite lookup_map, Hi.
  - by rewrite lookup_map, Hj.
Qed.

Lemma tracked_scan_ordered_witness :
  m_start (mkMatch "a" 0 2 (chars "@a")) + m_len (mkMatch "a" 0 2 (chars "@a"))
  <= m_start (mkMatch "b" 2 2 (chars "@b")).
Proof.
  apply (tracked_scan_ordered (chars "@a@b") 0 1); [lia|reflexivity|reflexivity].
Defined.

(** X4. Every match of the whole-text scanner quotes the text: at its
    offset the text reads an at-sign and the key; the key is a non-empty run
    of key characters, dots included, and no key character follows it. *)
Theorem whole_scan_matches text m :
  m ∈ WholeText.scan text ->
  0 <= m_start m /\ m_start m + m_len m <= zlen text
  /\ slice (m_start m) (m_start m + m_len m) text = "@"%char :: chars (m_key m)
  /\ m_text m = "@"%char :: chars (m_key m)
  /\ m_len m = 1 + zlen (chars (m_key m))
  /\ chars (m_key m) <> []
  /\ Forall (fun c => keyChar c = true) (chars (m_key m))
  /\ (forall c, text !! Z.to_nat (m_start m + m_len m) = Some c -> keyChar c = false).
Proof.
  intros Hin. unfold WholeText.scan in Hin.
  destruct (execLoop_elem _ _ _ _ _ Hin) as (i & key & n & Hi & Hm & ->).
  destruct (whole_matchAt_spec _ _ _ Hm) as (rest & Hd & Hn & Hne & Hkey & Hrest).
  destruct (match_in_text text i n key rest Hd Hn) as (H1 & H2 & H3 & H4 & H5 & H6).
  split; [done|]. split; [done|]. split; [done|]. split; [done|]. split; [done|].
  cbn [m_key]. rewrite chars_str. split; [done|]. split; [done|].
  intros c. rewrite H6. destruct rest as [|c' rest]; [done|]. by intros [= <-].
Qed.

Lemma whole_scan_matches_witness :
  let text := chars "see @a.b. now" in
  let m := mkMatch "a.b." 4 5 (chars "@a.b.") in
  0 <= m_start m /\ m_start m + m_len m <= zlen text
  /\ slice (m_start m) (m_start m + m_len m) text = "@"%char :: chars (m_key m)
  /\ m_text m = "@"%char :: chars (m_key m)
  /\ m_len m = 1 + zlen (chars (m_key m))
  /\ chars (m_key m) <> []
  /\ Forall (fun c => keyChar c = true) (chars (m_key m))
  /\ (forall c, text !! Z.to_nat (m_start m + m_len m) = Some c -> keyChar c = false).
Proof.
  apply (whole_scan_matches (chars "see @a.b. now") (mkMatch "a.b." 4 5 (chars "@a.b."))).
  vm_compute. left.
Defined.

(** X5. The whole-text scanner misses no placeholder: wherever the text has
    an at-sign followed by a key character, a match starts. *)
Theorem whole_scan_complete text (i : nat) c :
  text !! i = Some "@"%char -> text !! S i = Some c -> keyChar c = true ->
  exists m, m ∈ WholeText.scan text /\ m_start m = Z.of_nat i.
Proof.
  intros Hi Hc Hcls.
  destruct (execLoop_complete WholeText.matchAt keyChar whole_matchAt_tail
              whole_matchAt_some text O 0 i c) as (m & Hm & Hs); try done.
  exists m. split; [done|]. lia.
Qed.

Lemma whole_scan_complete_witness :
  exists m, m ∈ WholeText.scan (chars "a@b @.") /\ m_start m = Z.of_nat 4.
Proof.
  apply (whole_scan_complete (chars "a@b @.") 4 "."%char); reflexivity.
Defined.

(** ** The two expressions on one text *)

(** A key is its segments joined by dots. *)
Lemma segments_join key :
  exists seg segs, segments key = seg :: segs /\ key = seg ++ dotTail segs.
Proof.
  induction key as [|c key (seg & segs & Hs & Hk)]; cbn [segments].
  - by exists [], [].
  - destruct (ascii_is "." c) eqn:Hdot.
    + apply Ascii.eqb_eq in Hdot as <-. exists [], (seg :: segs).
      split; [by rewrite Hs|]. unfold dotTail. cbn [map concat app].
      fold (dotTail segs). by rewrite <- Hk.
    + rewrite Hs. exists (c :: seg), segs. split; [done|]. cbn [app]. by rewrite <- Hk.
Qed.

Lemma spanClass_stop cls seg rest :
  Forall (fun c => cls c = true) seg ->
  match rest with c :: _ => cls c = false | [] => True end ->
  spanClass cls (seg ++ rest) = (seg, rest).
Proof.
  intros Hseg Hrest. induction seg as [|c seg IH]; cbn [app spanClass].
  - destruct rest as [|c rest]; [done|]. cbn [spanClass]. by rewrite Hrest.
  - apply Forall_cons in Hseg as [Hc Hseg]. by rewrite Hc, (IH Hseg).
Qed.

Lemma keyChar_false c : keyChar c = false -> segChar c = false /\ ascii_is "." c = false.
Proof. unfold keyChar. by intros [? ?]%orb_false_iff. Qed.

(** The starred group takes all the dotted segments that are there. *)
Lemma dotSegments_complete segs : forall rest fuel,
  Forall (fun seg => seg <> [] /\ Forall (fun c => segChar c = true) seg) segs ->
  match rest with c :: _ => keyChar c = false | [] => True end ->
  (List.length (dotTail segs ++ rest) <= fuel)%nat ->
  Tracked.dotSegments fuel (dotTail segs ++ rest) = dotTail segs.
Proof.
  induction segs as [|seg segs IH]; intros rest fuel Hok Hrest Hfuel.
  - cbn [dotTail map concat app]. destruct fuel as [|fuel]; [done|].
    cbn [Tracked.dotSegments]. destruct rest as [|c rest]; [done|].
    by rewrite (proj2 (keyChar_false c Hrest)).
  - apply Forall_cons in Hok as [[Hne Hseg] Hok].
    unfold dotTail in *. cbn [map concat] in *. fold (dotTail segs) in *.
    cbn [app] in *. rewrite <- app_assoc in *.
    destruct fuel as [|fuel]; [simpl in Hfuel; lia|].
    cbn [Tracked.dotSegments]. change (ascii_is "." ".") with true. cbv iota.
    rewrite spanClass_stop; [|done|].
    + destruct seg as [|a seg]; [done|].
      rewrite IH; [done|done|done|]. simpl in Hfuel. rewrite !length_app in *. simpl. lia.
    + destruct segs as [|seg' segs'].
      * cbn [map concat app]. destruct rest as [|c rest]; [done|].
        by apply keyChar_false in Hrest as [? _].
      * done.
Qed.

(** Where the whole-text expression finds a dotted key, the tracked
    expression finds the same key; where it finds nothing, neither does the
    tracked one. *)
Lemma matchAt_dotted s key n :
  WholeText.matchAt s = Some (key, n) -> dottedKey key ->
  Tracked.matchAt s = Some (key, n).
Proof.
  intros Hm Hd. destruct (whole_matchAt_spec _ _ _ Hm) as (rest & -> & -> & Hne & _ & Hrest).
  destruct (segments_join key) as (seg & segs & Hs & Hk).
  unfold dottedKey in Hd. rewrite Hs in Hd. apply Forall_cons in Hd as [[Hsne Hseg] Hok].
  unfold Tracked.matchAt. change (ascii_is "@" "@") with true. cbv iota.
  rewrite Hk, <- app_assoc. rewrite spanClass_stop; [|done|].
  - destruct seg as [|a seg]; [done|].
    rewrite dotSegments_complete by done. done.
  - destruct segs as [|seg' segs'].
    + cbn. destruct rest as [|c rest]; [done|]. by apply keyChar_false in Hrest as [? _].
    + done.
Qed.

Lemma matchAt_none s : WholeText.matchAt s = None -> Tracked.matchAt s = None.
Proof.
  unfold WholeText.matchAt, Tracked.matchAt. destruct s as [|c s]; [done|].
  destruct (ascii_is "@" c); [|done].
  destruct s as [|a s]; [done|]. cbn [spanClass]. unfold keyChar at 1.
  destruct (segChar a); cbn [orb].
  - by destruct (spanClass keyChar s).
  - done.
Qed.

Lemma execLoop_dotted s : forall skip pos,
  dottedKeys (execLoop WholeText.matchAt skip pos s) ->
  execLoop WholeText.matchAt skip pos s = execLoop Tracked.matchAt skip pos s.
Proof.
  induction s as [|c s IH]; intros skip pos H; [done|].
  cbn [execLoop] in *. destruct skip as [|k]; [|by apply IH].
  destruct (WholeText.matchAt (c :: s)) as [[key n]|] eqn:Hm.
  - apply Forall_cons in H as [Hkey H]. cbn [m_key] in Hkey. rewrite chars_str in Hkey.
    rewrite (matchAt_dotted _ _ _ Hm Hkey). by rewrite (IH _ _ H).
  - rewrite (matchAt_none _ Hm). by apply IH.
Qed.

Lemma tracked_scan_dotted text : dottedKeys (Tracked.scan text).
Proof.
  apply Forall_forall. intros m Hin. unfold Tracked.scan in Hin.
  destruct (execLoop_elem _ _ _ _ _ Hin) as (i & key & n & Hi & Hm & ->).
  destruct (tracked_matchAt_spec _ _ _ Hm) as (rest & _ & _ & _ & Hkey & _).
  cbn [m_key]. by rewrite chars_str.
Qed.

(** C9 (amended). The two engines scan the same matches exactly when every
    key the whole-text expression finds is a dotted key: non-empty runs of
    segment characters separated by single dots, so that no dot leads, trails
    or doubles.  On such a text they leave the same characters. *)
Theorem engines_agree_on_dotted_keys cfg name e :
  (WholeText.scan (plain (n_chars (e_node e))) = Tracked.scan (plain (n_chars (e_node e)))
   <-> dottedKeys (WholeText.scan (plain (n_chars (e_node e)))))
  /\ (dottedKeys (WholeText.scan (plain (n_chars (e_node e)))) ->
      exists rW eW rT eT,
        WholeText.replacePlaceholdersInNode name e = (Ok rW, eW)
        /\ Tracked.replacePlaceholdersInNode cfg name e = (Ok rT, eT)
        /\ plain (n_chars (e_node eW)) = plain (n_chars (e_node eT))).
Proof.
  assert (Hscan : dottedKeys (WholeText.scan (plain (n_chars (e_node e)))) ->
            WholeText.scan (plain (n_chars (e_node e)))
            = Tracked.scan (plain (n_chars (e_node e)))) by apply execLoop_dotted.
  split; [split; [|done]|].
  - intros ->. apply tracked_scan_dotted.
  - intros H. by apply engines_agree_on_equal_scans, Hscan.
Qed.

Lemma engines_agree_on_dotted_keys_witness :
  let e := sampleEnv (styled Inter (chars "v1.2: @a.b end."))
                     [stringVar "a.b" "X"; stringVar "a" "Y"] in
  WholeText.scan (chars "v1.2: @a.b end.") = Tracked.scan (chars "v1.2: @a.b end.")
  /\ exists rW eW rT eT,
       WholeText.replacePlaceholdersInNode "Keywords" e = (Ok rW, eW)
       /\ Tracked.replacePlaceholdersInNode noIcon "Keywords" e = (Ok rT, eT)
       /\ plain (n_chars (e_node eW)) = plain (n_chars (e_node eT)).
Proof.
  intros e.
  assert (Hd : dottedKeys (WholeText.scan (plain (n_chars (e_node e))))).
  { vm_compute. repeat constructor; discriminate. }
  destruct (engines_agree_on_dotted_keys noIcon "Keywords" e) as [Hiff Hout].
  split; [exact (proj2 Hiff Hd)|exact (Hout Hd)].
Defined.

(** The outputs can agree where the matches differ: no key resolves here. *)
Example engines_differ_in_matches_only :
  let e := sampleEnv (styled Inter (chars "@a. @.b")) [] in
  map m_key (WholeText.scan (chars "@a. @.b")) = ["a."%string; ".b"%string]
  /\ map m_key (Tracked.scan (chars "@a. @.b")) = ["a"%string]
  /\ plain (n_chars (e_node (snd (WholeText.replacePlaceholdersInNode "Keywords" e))))
     = textAfter noIcon "Keywords" e.
Proof. vm_compute. by repeat split. Qed.

(** * Collections and variables *)

Lemma freshId_gt cs c : c ∈ cs -> (c_id c < freshId cs)%nat.
Proof.
  unfold freshId. induction cs as [|x cs IH]; intros Hin; [by apply elem_of_nil in Hin|].
  apply elem_of_cons in Hin as [->|Hin]; simpl; [lia|]. specialize (IH Hin). lia.
Qed.

Lemma find_app_none {A} (f : A -> bool) l1 l2 :
  find f l1 = None -> find f (l1 ++ l2) = find f l2.
Proof.
  induction l1 as [|x l1 IH]; simpl; [done|]. destruct (f x); [done|apply IH].
Qed.

(** X6. [getOrCreateCollection] always returns a collection of the name
    asked for, which the document holds afterwards.  It creates one, at the
    end of the list and with an id no other collection has, only when no
    collection has the name; a second call finds the same collection and
    creates nothing.  Nothing else of the host changes. *)
Theorem getOrCreateCollection_spec name e :
  exists c e',
    getOrCreateCollection name e = (Ok c, e')
    /\ c_name c = name /\ c ∈ e_collections e'
    /\ e' = withCollections e (e_collections e')
    /\ ((c ∈ e_collections e /\ e_collections e' = e_collections e)
        \/ (Forall (fun c0 => c_name c0 <> name /\ c_id c0 <> c_id c) (e_collections e)
            /\ e_collections e' = e_collections e ++ [c]))
    /\ getOrCreateCollection name e' = (Ok c, e').
Proof.
  unfold getOrCreateCollection.
  destruct (find _ (e_collections e)) as [c|] eqn:Hfind.
  - destruct (find_some _ _ Hfind) as [Hin Hname].
    apply list_elem_of_In in Hin. apply bool_decide_eq_true in Hname.
    exists c, e. rewrite Hfind. split; [done|]. split; [done|]. split; [done|].
    split; [by destruct e|]. split; [by left|done].
  - set (c := mkCollection (freshId (e_collections e)) name).
    exists c, (withCollections e (e_collections e ++ [c])).
    split; [done|]. split; [done|].
    split; [cbn; apply elem_of_app; right; apply list_elem_of_here|].
    split; [done|]. split.
    + right. split; [|done]. apply Forall_forall. intros c0 H0. split.
      * pose proof (find_none _ _ Hfind c0) as Hn. cbv beta in Hn.
        intros Heq. rewrite bool_decide_eq_true_2 in Hn by done.
        apply list_elem_of_In in H0. by specialize (Hn H0).
      * apply freshId_gt in H0. simpl. lia.
    + cbn [e_collections withCollections].
      rewrite (find_app_none _ _ _ Hfind). cbn [find c_name c].
      by rewrite bool_decide_eq_true_2.
Qed.

Lemma find_filter {A} (f : A -> bool) (Q : A -> Prop) `{forall x, Decision (Q x)} l :
  (forall x, f x = true -> Q x) -> find f l = find f (filter Q l).
Proof.
  intros Hf. induction l as [|x l IH]; [done|].
  rewrite filter_cons. cbn [find]. destruct (f x) eqn:Hx.
  - rewrite decide_True by auto. cbn [find]. by rewrite Hx.
  - destruct (decide (Q x)); [|done]. cbn [find]. by rewrite Hx.
Qed.

(** X7. A lookup sees the variables of the target collection only: two
    hosts whose variables agree inside the collection give the same variable
    for every name and the same value for every match, whatever their other
    collections hold. *)
Theorem lookup_scoped_to_collection c e1 e2 :
  filter (fun v => v_collectionId v = c_id c) (e_variables e1)
  = filter (fun v => v_collectionId v = c_id c) (e_variables e2) ->
  (forall name, fst (findStringVariable name c e1) = fst (findStringVariable name c e2))
  /\ (forall mm, fst (Tracked.resolveMatch mm c e1) = fst (Tracked.resolveMatch mm c e2)).
Proof.
  intros Hfilter.
  assert (Hfind : forall name,
            find (fun v => bool_decide (v_name v = name)
                           && bool_decide (v_collectionId v = c_id c)) (e_variables e1)
            = find (fun v => bool_decide (v_name v = name)
                             && bool_decide (v_collectionId v = c_id c)) (e_variables e2)).
  { intros name.
    rewrite (find_filter _ (fun v => v_collectionId v = c_id c) (e_variables e1)),
            (find_filter _ (fun v => v_collectionId v = c_id c) (e_variables e2)).
    - by rewrite Hfilter.
    - intros v Hv. apply andb_true_iff in Hv as [_ Hv]. by apply bool_decide_eq_true in Hv.
    - intros v Hv. apply andb_true_iff in Hv as [_ Hv]. by apply bool_decide_eq_true in Hv. }
  split.
  - intros name. unfold findStringVariable. cbn [fst]. by rewrite Hfind.
  - intros mm. unfold Tracked.resolveMatch, bind, findStringVariable, ret.
    rewrite Hfind. destruct (find _ (e_variables e2)) as [v|]; [|done].
    destruct (resolveVariableValue_pure v true e1) as [v1 H1].
    destruct (resolveVariableValue_pure v true e2) as [v2 H2].
    rewrite H1, H2. cbn [fst]. do 3 f_equal.
    assert (Hv : fst (resolveVariableValue v true e1) = fst (resolveVariableValue v true e2)).
    { unfold resolveVariableValue, tryCatch, throw, ret.
      by destruct (v_resolveForConsumer v) as [[| |x]|]. }
    rewrite H1, H2 in Hv. by injection Hv.
Qed.

Lemma lookup_scoped_to_collection_witness :
  let e1 := sampleEnv (styled Inter (chars "@a")) [stringVar "a" "X"] in
  let e2 := sampleEnv (styled Inter (chars "@a"))
              [mkVariable "a" 2 None [("1:0"%string, JStr (chars "other"))]; stringVar "a" "X"] in
  (forall name, fst (findStringVariable name keywords e1)
                = fst (findStringVariable name keywords e2))
  /\ (forall mm, fst (Tracked.resolveMatch mm keywords e1)
                 = fst (Tracked.resolveMatch mm keywords e2)).
Proof.
  apply (lookup_scoped_to_collection keywords
           (sampleEnv (styled Inter (chars "@a")) [stringVar "a" "X"])
           (sampleEnv (styled Inter (chars "@a"))
              [mkVariable "a" 2 None [("1:0"%string, JStr (chars "other"))]; stringVar "a" "X"])).
  reflexivity.
Defined.

(** * Loading fonts *)

(** X8. [safeLoadFonts] deduplicates by the key [family__style]: the fonts
    it goes on to load are a sub-list of the fonts given, no two of them
    share a key, and for each key it keeps the first font of the list with
    that key. *)
Theorem uniqueFonts_spec fonts :
  NoDup (map fontKey (uniqueFonts [] fonts))
  /\ sublist (uniqueFonts [] fonts) fonts
  /\ (forall f, f ∈ uniqueFonts [] fonts <->
        find (fun g => bool_decide (fontKey g = fontKey f)) fonts = Some f).
Proof.
  destruct (uniqueFonts_gen fonts []) as (Hnd & Hsub & Hiff).
  split; [done|]. split; [done|]. intros f. rewrite Hiff. split; [by intros [_ ?]|].
  intros H. split; [apply not_elem_of_nil|done].
Qed.

(** Two fonts with one key: the second is dropped. *)
Example uniqueFonts_key_clash :
  uniqueFonts [] [mkFont "Fira__Code" "Bold"; mkFont "Fira" "Code__Bold"]
  = [mkFont "Fira__Code" "Bold"].
Proof. reflexivity. Qed.

(** X9. [safeLoadFonts] never throws and changes nothing but the set of
    loaded fonts.  Afterwards a font is loaded exactly when it was loaded
    before, or the host can provide it and it is the first font of the list
    with its key; a font that cannot be loaded does not keep the others from
    loading. *)
Theorem safeLoadFonts_loads fonts e :
  exists e',
    safeLoadFonts fonts e = (Ok tt, e')
    /\ e' = withLoaded e (e_loaded e')
    /\ (forall f, f ∈ e_loaded e' <->
          f ∈ e_loaded e
          \/ (f ∈ e_available e
              /\ find (fun g => bool_decide (fontKey g = fontKey f)) fonts = Some f)).
Proof.
  unfold safeLoadFonts. unfold tryCatch at 1.
  destruct (loadEach_spec (uniqueFonts [] fonts) e) as (e' & -> & He & Hiff).
  exists e'. split; [done|]. split; [done|].
  intros f. rewrite Hiff. destruct (uniqueFonts_gen fonts []) as (_ & _ & Hu).
  rewrite Hu. pose proof (not_elem_of_nil (fontKey f)). tauto.
Qed.

(** X10. [safeLoadFontsForNode] never throws and changes nothing but the set
    of loaded fonts.  Afterwards a font is loaded exactly when it was loaded
    before, or the host can provide it and it is the first font with its key
    among the fonts of the node's text that have a family and a style: a
    segment font without a family or without a style is skipped.  So every
    font of the node's text is loaded afterwards, when the host can provide
    each of them, each has a family and a style and no two of them share a
    key. *)
Theorem safeLoadFontsForNode_ready e :
  exists e',
    safeLoadFontsForNode e = (Ok tt, e')
    /\ e' = withLoaded e (e_loaded e')
    /\ (forall f, f ∈ e_loaded e' <->
          f ∈ e_loaded e
          \/ (f ∈ e_available e
              /\ find (fun g => bool_decide (fontKey g = fontKey f))
                      (List.filter namedFont (segmentFonts (e_node e))) = Some f))
    /\ ((forall c f, (c, f) ∈ n_chars (e_node e) ->
           f ∈ e_available e /\ family f <> ""%string /\ style f <> ""%string) ->
        (forall c f c' g, (c, f) ∈ n_chars (e_node e) -> (c', g) ∈ n_chars (e_node e) ->
           fontKey f = fontKey g -> f = g) ->
        fontsReady e').
Proof.
  destruct (safeLoadFontsForNode_spec e) as (e' & Hrun & He & Hiff).
  exists e'. split; [done|]. split; [done|]. split.
  - intros f. rewrite Hiff. unfold fontsToLoad.
    destruct (uniqueFonts_gen (List.filter namedFont (segmentFonts (e_node e))) [])
      as (_ & _ & Hu).
    rewrite Hu. pose proof (not_elem_of_nil (fontKey f)). tauto.
  - intros Hav Hinj c f Hcf. rewrite He in Hcf. cbn [withLoaded e_node] in Hcf.
    destruct (Hav c f Hcf) as (Ha & Hfam & Hsty).
    apply Hiff. right. split; [done|].
    assert (Hseg : forall g, g ∈ List.filter namedFont (segmentFonts (e_node e)) ->
              exists c', (c', g) ∈ n_chars (e_node e)).
    { intros g Hg. apply list_elem_of_In, List.filter_In in Hg as [Hg _].
      apply list_elem_of_In in Hg. unfold segmentFonts in Hg.
      apply list_elem_of_fmap in Hg as ([c' g'] & -> & Hg). by exists c'. }
    apply uniqueFonts_elem.
    + apply list_elem_of_In, List.filter_In. split; [|by apply namedFont_true].
      apply list_elem_of_In. unfold segmentFonts.
      change f with (snd (c, f)). by apply list_elem_of_fmap_2.
    + intros g Hg Hk. destruct (Hseg g Hg) as [c' Hcg]. by apply (Hinj c' g c f).
Qed.

Lemma safeLoadFontsForNode_ready_witness :
  let e := mkEnv (mkNode (styled Inter (chars "ab") ++ styled InterBold (chars "c")) Inter None)
                 [] [Inter; InterBold] [keywords] [] in
  exists e', safeLoadFontsForNode e = (Ok tt, e')
    /\ e' = withLoaded e (e_loaded e') /\ fontsReady e'.
Proof.
  intros e.
  destruct (safeLoadFontsForNode_ready e) as (e' & Hrun & He & _ & Hready).
  exists e'. split; [exact Hrun|]. split; [exact He|]. apply Hready.
  - intros c f Hcf. cbn in Hcf.
    repeat (apply elem_of_cons in Hcf as [[= -> ->]|Hcf];
            [split; [set_solver|by split]|]).
    by apply elem_of_nil in Hcf.
  - intros c f c' g Hcf Hcg. cbn in Hcf, Hcg.
    repeat (apply elem_of_cons in Hcf as [[= -> ->]|Hcf]);
      try (by apply elem_of_nil in Hcf);
      repeat (apply elem_of_cons in Hcg as [[= -> ->]|Hcg]);
      try (by apply elem_of_nil in Hcg); try done; vm_compute; discriminate.
Defined.

(** A font without a style is not asked for, although the host could
    provide it. *)
Example unnamed_font_skipped :
  let styleless := mkFont "Inter" "" in
  let e := mkEnv (mkNode (styled styleless (chars "a") ++ styled Inter (chars "b")) Inter None)
                 [] [styleless; Inter] [keywords] [] in
  e_loaded (snd (safeLoadFontsForNode e)) = [Inter].
Proof. reflexivity. Qed.

(** * The substitution pass of the tracked variant, as its caller sees it *)

Lemma orDefault_idem d s :
  d <> ""%string -> orDefault d (orDefault d s) = orDefault d s.
Proof.
  intros Hd. unfold orDefault. destruct (bool_decide (s = ""%string)) eqn:Hs; [|by rewrite Hs].
  by rewrite bool_decide_eq_false_2.
Qed.

Lemma chosenCollection_name name e :
  c_name (chosenCollectionOf name e) = orDefault DEFAULT_COLLECTION_NAME name.
Proof.
  unfold chosenCollectionOf, getOrCreateCollection.
  destruct (find _ (e_collections e)) as [c|] eqn:Hfind; [|done].
  destruct (find_some _ _ Hfind) as [_ Hname]. by apply bool_decide_eq_true in Hname.
Qed.

Lemma recordsFrom_texts e acts : forall delta,
  map r_originalText (recordsFrom e delta acts) = map (fun a => m_text a.1) acts
  /\ map r_originalFont (recordsFrom e delta acts) = map (fun a => capturedFont e a.1) acts.
Proof.
  induction acts as [|a acts IH]; intros delta; [done|].
  cbn [recordsFrom map r_originalText r_originalFont].
  destruct (IH (delta + netDelta a)) as [-> ->]. done.
Qed.

(** X11. The substitution pass of the tracked variant never throws.  It
    reports [changed] exactly when a match resolves, and then the backup it
    leaves holds the characters before the pass, the snapshot it returns, the
    name of the collection it used (the default for an empty name) and one
    record for each actionable match, in scan order, with the placeholder's
    own text and the font of its first character. *)
Theorem substitution_backup cfg name e :
  exists r e',
    Tracked.replacePlaceholdersInNode cfg name e = (Ok r, e')
    /\ (changed r = true <-> actionableIn name e <> [])
    /\ (changed r = true ->
        exists b recs,
          n_data (e_node e') = Some b
          /\ b_original b = plain (n_chars (e_node e))
          /\ b_collection b = orDefault DEFAULT_COLLECTION_NAME name
          /\ snapshot r = Some (b_snapshot b)
          /\ b_replacements b = Some recs
          /\ map r_originalText recs = map (fun a => m_text a.1) (actionableIn name e)
          /\ map r_originalFont recs
             = map (fun a => snd <$> n_chars (e_node e) !! Z.to_nat (m_start a.1))
                   (actionableIn name e)).
Proof.
  destruct (replace_spec cfg name e) as (e' & _ & _ & _ & _ & _ & Hrep).
  assert (Hfonts : map (fun a => capturedFont e a.1) (actionableIn name e)
                   = map (fun a => snd <$> n_chars (e_node e) !! Z.to_nat (m_start a.1))
                         (actionableIn name e)).
  { apply map_ext_in. intros a Ha. apply list_elem_of_In in Ha.
    destruct (actionable_in_text name e a Ha) as (H0 & H1 & H2 & _).
    destruct (capturedFont_first e a.1 H0 H1 H2) as (c & f & -> & ->). done. }
  destruct (actionableIn name e) as [|a0 acts0] eqn:Eacts.
  - destruct Hrep as (Hrun & _). eexists _, e'. split; [exact Hrun|].
    cbn [changed]. split; [split; [done|by intros []]|done].
  - rewrite <- Eacts in *. destruct Hrep as (inhs & _ & Hrun & Hdata & _).
    eexists _, e'. split; [exact Hrun|]. cbn [changed snapshot].
    split; [split; [by rewrite Eacts|done]|].
    intros _. eexists _, _. split; [exact Hdata|].
    cbn [b_original b_collection b_snapshot b_replacements].
    split; [done|]. split.
    { rewrite chosenCollection_name. by apply orDefault_idem. }
    split; [done|]. split; [done|].
    destruct (recordsFrom_texts e (actionableIn name e) 0) as [-> ->]. by split.
Qed.

Section KeepFacts.
Context {A : Type}.
Implicit Types (cs : list A) (items : list (Splice A)).

Lemma shiftUpTo_later items : forall q len p,
  Ascending q (map span items) len -> p < q -> shiftUpTo items p = 0.
Proof.
  induction items as [|it rest IH]; intros q len p H Hp; [done|].
  cbn [map] in H. unfold span at 1 in H. cbn [Ascending] in H.
  destruct H as (Hq & Hr & H). unfold shiftUpTo.
  rewrite filter_cons_False by lia. apply (IH _ _ _ H). lia.
Qed.

Lemma slice_lookup (a b : Z) (i : nat) cs :
  0 <= a -> Z.of_nat i < b - a -> slice a b cs !! i = cs !! (Z.to_nat a + i)%nat.
Proof.
  intros Ha Hi. unfold slice. rewrite lookup_take_lt by lia. by rewrite lookup_drop.
Qed.

(** An element outside every splice keeps its place, moved by the length
    changes of the splices before it. *)
Lemma rebuild_keeps items : forall q cs p x,
  Ascending q (map span items) (zlen cs) -> q <= p ->
  cs !! Z.to_nat p = Some x ->
  Forall (fun it => p < sp_start it \/ sp_start it + sp_remove it <= p) items ->
  0 <= p - q + shiftUpTo items p
  /\ rebuildFrom cs q items !! Z.to_nat (p - q + shiftUpTo items p) = Some x.
Proof.
  induction items as [|it rest IH]; intros q cs p x H Hq Hx Hout.
  - simpl in H. unfold shiftUpTo. cbn [filter list_filter map sumZ foldr rebuildFrom].
    split; [lia|]. pose proof (lookup_lt_Some _ _ _ Hx) as Hlt.
    rewrite slice_lookup; [|lia|unfold zlen; lia].
    rewrite <- Hx. f_equal. lia.
  - cbn [map] in H. unfold span at 1 in H. cbn [Ascending] in H.
    destruct H as (Hq' & Hr & H). apply Forall_cons in Hout as [Hit Hout].
    pose proof (Ascending_bound _ _ _ H) as Hb.
    cbn [rebuildFrom]. destruct Hit as [Hlt|Hge].
    + assert (Hs : shiftUpTo (it :: rest) p = 0).
      { unfold shiftUpTo. rewrite filter_cons_False by lia.
        apply (shiftUpTo_later rest _ _ p H). lia. }
      rewrite Hs. split; [lia|].
      rewrite lookup_app_l.
      * rewrite slice_lookup; [|lia|lia]. rewrite <- Hx. f_equal. lia.
      * pose proof (zlen_slice q (sp_start it) cs ltac:(lia) ltac:(lia)) as Hz.
        unfold zlen in Hz. lia.
    + assert (Hs : shiftUpTo (it :: rest) p = spliceDelta it + shiftUpTo rest p).
      { unfold shiftUpTo. by rewrite filter_cons_True by lia. }
      destruct (IH _ cs p x H Hge Hx Hout) as [Hnn Hlook].
      rewrite Hs. unfold spliceDelta. pose proof (zlen_nonneg (sp_insert it)).
      split; [lia|].
      pose proof (zlen_slice q (sp_start it) cs ltac:(lia) ltac:(lia)) as Hz.
      rewrite lookup_app_r by (unfold zlen in *; lia).
      rewrite lookup_app_r by (unfold zlen in *; lia).
      rewrite <- Hlook. f_equal. unfold zlen in *. lia.
Qed.

End KeepFacts.

Lemma shiftUpTo_pass icon il loaded e acts p : forall inhs,
  List.length inhs = List.length acts ->
  shiftUpTo (passSplices icon il loaded e acts inhs) p = deltaUpTo acts p.
Proof.
  unfold passSplices, shiftUpTo, deltaUpTo.
  induction acts as [|a acts IH]; intros [|inh inhs] H; simpl in H; try done.
  cbn [map zip_with]. specialize (IH inhs ltac:(lia)).
  destruct (decide (m_start a.1 + m_len a.1 <= p)) as [Hp|Hp].
  - rewrite !filter_cons_True by done. cbn [map sumZ foldr].
    fold (sumZ (map netDelta (filter (fun a0 => m_start a0.1 + m_len a0.1 <= p) acts))).
    rewrite <- IH. unfold sumZ. f_equal.
    unfold spliceDelta, hostSplice, netDelta, opSpan, opOf.
    cbn [sp_insert sp_remove fst snd Tracked.o_start Tracked.o_removeLen Tracked.o_insertText].
    by rewrite zlen_styled.
  - rewrite !filter_cons_False by done. exact IH.
Qed.

Lemma passSplices_outside icon il loaded e acts p : forall inhs,
  (forall a, a ∈ acts -> p < m_start a.1 \/ m_start a.1 + m_len a.1 <= p) ->
  Forall (fun it => p < sp_start it \/ sp_start it + sp_remove it <= p)
         (passSplices icon il loaded e acts inhs).
Proof.
  unfold passSplices.
  induction acts as [|a acts IH]; intros [|inh inhs] H; try by constructor.
  cbn [map zip_with]. constructor.
  - cbn. apply H. left.
  - apply IH. intros b Hb. apply H. by right.
Qed.

(** X12. A character outside every actionable placeholder survives the
    substitution pass of the tracked variant with its font: it sits at its
    old offset moved by the net length change of the actionable matches that
    end at or before it. *)
Theorem substitution_keeps_outside cfg name e (p : nat) x :
  n_chars (e_node e) !! p = Some x ->
  (forall a, a ∈ actionableIn name e ->
     Z.of_nat p < m_start a.1 \/ m_start a.1 + m_len a.1 <= Z.of_nat p) ->
  n_chars (e_node (afterReplace cfg name e))
    !! Z.to_nat (Z.of_nat p + deltaUpTo (actionableIn name e) (Z.of_nat p))
  = Some x.
Proof.
  intros Hx Hout. unfold afterReplace.
  destruct (replace_spec cfg name e) as (e' & _ & _ & _ & _ & _ & Hrep).
  pose proof (actionable_ascending (chosenCollectionOf name e) e _ _ _
                (tracked_scan_ascending (plain (n_chars (e_node e))))) as Hasc.
  fold (actionableIn name e) in Hasc. rewrite zlen_plain in Hasc.
  destruct (actionableIn name e) as [|a0 acts0] eqn:Eacts.
  - destruct Hrep as (-> & Hc & _). cbn [snd]. rewrite Hc. unfold deltaUpTo.
    cbn [filter list_filter map sumZ foldr]. rewrite <- Hx. f_equal. lia.
  - rewrite <- Eacts in *. destruct Hrep as (inhs & Hlen & -> & _ & Hc). cbn [snd].
    rewrite Hc.
    fold (passSplices (Tracked.iconFont cfg) (iconLoadedIn cfg e (actionableIn name e))
            (e_loaded e') e (actionableIn name e) inhs).
    destruct (rebuild_keeps
                (passSplices (Tracked.iconFont cfg) (iconLoadedIn cfg e (actionableIn name e))
                   (e_loaded e') e (actionableIn name e) inhs)
                0 (n_chars (e_node e)) (Z.of_nat p) x) as [_ Hlook].
    + unfold passSplices. rewrite span_hostSplices by (by rewrite length_map). exact Hasc.
    + lia.
    + by rewrite Nat2Z.id.
    + by apply passSplices_outside.
    + rewrite shiftUpTo_pass in Hlook by done. rewrite <- Hlook. f_equal. lia.
Qed.

Lemma substitution_keeps_outside_witness :
  let e := sampleEnv (styled Inter (chars "@a ") ++ styled InterBold (chars "x@bb"))
                     [stringVar "a" "XXXX"; stringVar "bb" "Y"] in
  n_chars (e_node (afterReplace noIcon "Keywords" e))
    !! Z.to_nat (Z.of_nat 3 + deltaUpTo (actionableIn "Keywords" e) (Z.of_nat 3))
  = Some ("x"%char, InterBold).
Proof.
  apply (substitution_keeps_outside noIcon "Keywords"
           (sampleEnv (styled Inter (chars "@a ") ++ styled InterBold (chars "x@bb"))
                      [stringVar "a" "XXXX"; stringVar "bb" "Y"]) 3 ("x"%char, InterBold)).
  - reflexivity.
  - intros a Ha. vm_compute in Ha.
    repeat (apply elem_of_cons in Ha as [->|Ha]; [vm_compute; intuition congruence|]).
    by apply elem_of_nil in Ha.
Defined.

(** * The order of restoration *)

Lemma insertDesc_perm r l : Tracked.insertDesc r l ≡ₚ r :: l.
Proof.
  induction l as [|x l IH]; [done|]. cbn [Tracked.insertDesc].
  destruct (r_start x <? r_start r + 1); [done|].
  rewrite IH. apply Permutation_swap.
Qed.

Lemma insertDesc_sorted r l :
  NonIncreasing (map r_start l) -> NonIncreasing (map r_start (Tracked.insertDesc r l)).
Proof.
  induction l as [|x l IH]; intros H; [by split|].
  cbn [map NonIncreasing] in H. destruct H as [Hx H]. cbn [Tracked.insertDesc].
  destruct (r_start x <? r_start r + 1) eqn:Hle.
  - apply Z.ltb_lt in Hle. cbn [map NonIncreasing]. split; [|by split].
    constructor; [lia|]. eapply Forall_impl; [exact Hx|]. intros y Hy. cbv beta in Hy. lia.
  - apply Z.ltb_ge in Hle. cbn [map NonIncreasing]. split; [|by apply IH].
    apply Forall_forall. intros y Hy. apply list_elem_of_fmap in Hy as (z & -> & Hz).
    rewrite insertDesc_perm in Hz. apply elem_of_cons in Hz as [->|Hz]; [lia|].
    rewrite Forall_forall in Hx. apply Hx. by apply list_elem_of_fmap_2.
Qed.

Lemma insertDesc_filter s r l :
  filter (fun x => r_start x = s) (Tracked.insertDesc r l)
  = filter (fun x => r_start x = s) (r :: l).
Proof.
  induction l as [|x l IH]; [done|]. cbn [Tracked.insertDesc].
  destruct (r_start x <? r_start r + 1) eqn:Hle; [done|].
  apply Z.ltb_ge in Hle.
  rewrite (filter_cons _ x), IH, (filter_cons _ r), (filter_cons _ r), (filter_cons _ x).
  destruct (decide (r_start x = s)), (decide (r_start r = s)); try done. lia.
Qed.

Lemma sortDesc_perm recs : Tracked.sortDesc recs ≡ₚ recs.
Proof.
  induction recs as [|r recs IH]; [done|]. cbn [Tracked.sortDesc foldr].
  fold (Tracked.sortDesc recs). by rewrite insertDesc_perm, IH.
Qed.

Lemma sortDesc_sorted recs : NonIncreasing (map r_start (Tracked.sortDesc recs)).
Proof.
  induction recs as [|r recs IH]; [done|]. cbn [Tracked.sortDesc foldr].
  fold (Tracked.sortDesc recs). by apply insertDesc_sorted.
Qed.

(** X13. Restoration visits the records by start, highest first: the sorted
    list is a permutation of the stored records, its starts never increase,
    and records with the same start keep the order they were stored in. *)
Theorem sortDesc_spec recs :
  Tracked.sortDesc recs ≡ₚ recs
  /\ NonIncreasing (map r_start (Tracked.sortDesc recs))
  /\ (forall s, filter (fun r => r_start r = s) (Tracked.sortDesc recs)
                = filter (fun r => r_start r = s) recs).
Proof.
  split; [apply sortDesc_perm|]. split; [apply sortDesc_sorted|].
  intros s. induction recs as [|r recs IH]; [done|]. cbn [Tracked.sortDesc foldr].
  fold (Tracked.sortDesc recs). rewrite insertDesc_filter, !(filter_cons _ r), IH. done.
Qed.

(** * Restoration from a legacy or a stale backup *)

(** X14. A backup without a [replacements] list is restored from its
    [original] text: the node gets that text, all in the font its first
    character had (in its base font when it was empty), the backup is cleared
    and the pass reports [restored].  When [original] is empty too, the pass
    reports [restored = false] and leaves the node, backup included, as it
    was. *)
Theorem restore_legacy e b :
  n_data (e_node e) = Some b -> b_replacements b = None ->
  exists e',
    Tracked.restorePlaceholdersInNode e
    = (Ok (negb (bool_decide (b_original b = []))), e')
    /\ (b_original b <> [] ->
        n_chars (e_node e')
        = styled (styleBefore (n_base (e_node e)) (n_chars (e_node e)) 0) (b_original b)
        /\ n_data (e_node e') = None)
    /\ (b_original b = [] -> e_node e' = e_node e).
Proof.
  intros Hd Hr. unfold Tracked.restorePlaceholdersInNode.
  unfold bind at 1. unfold readNodeBackup, tryCatch, getPluginData. rewrite Hd.
  unfold bind at 1.
  destruct (safeLoadFontsForNode_keeps e) as (u & e1 & -> & Hn1 & _).
  rewrite Hr. destruct (b_original b) as [|c t] eqn:Ho.
  - exists e1. split; [done|]. split; [done|]. by intros _.
  - unfold bind, setCharacters, clearNodeBackup, tryCatch, setPluginData, ret.
    eexists. split; [reflexivity|]. split; [|done]. intros _.
    unfold withData, withChars, withNode. cbn [e_node n_chars n_data n_base].
    by rewrite Hn1.
Qed.

Lemma restore_legacy_witness :
  let e := mkEnv (mkNode (styled InterBold (chars "X") ++ styled Inter (chars " ok")) Inter
                         (Some (mkBackup (chars "@a ok") ∅ "Keywords" None)))
                 [Inter] [Inter; InterBold] [keywords] [] in
  exists e',
    Tracked.restorePlaceholdersInNode e = (Ok true, e')
    /\ (chars "@a ok" <> [] ->
        n_chars (e_node e') = styled InterBold (chars "@a ok")
        /\ n_data (e_node e') = None)
    /\ (chars "@a ok" = [] -> e_node e' = e_node e).
Proof.
  apply (restore_legacy
           (mkEnv (mkNode (styled InterBold (chars "X") ++ styled Inter (chars " ok")) Inter
                          (Some (mkBackup (chars "@a ok") ∅ "Keywords" None)))
                  [Inter] [Inter; InterBold] [keywords] [])
           (mkBackup (chars "@a ok") ∅ "Keywords" None)); reflexivity.
Defined.

Lemma sortDesc_head_max recs r :
  r ∈ recs ->
  exists r0 rest, Tracked.sortDesc recs = r0 :: rest /\ r_start r <= r_start r0.
Proof.
  intros Hin. rewrite <- sortDesc_perm in Hin. pose proof (sortDesc_sorted recs) as Hs.
  destruct (Tracked.sortDesc recs) as [|r0 rest]; [by apply elem_of_nil in Hin|].
  exists r0, rest. split; [done|]. cbn [map NonIncreasing] in Hs. destruct Hs as [Hle _].
  apply elem_of_cons in Hin as [->|Hin]; [lia|].
  rewrite Forall_forall in Hle. apply Hle. by apply list_elem_of_fmap_2.
Qed.

(** X15. When a record of the backup starts beyond the end of the text, as
    after the substituted text was shortened, restoration throws at its
    first insertion: the node keeps its characters and its backup, and the
    backup is not cleared. *)
Theorem restore_stale_record_throws e b recs r :
  n_data (e_node e) = Some b -> b_replacements b = Some recs ->
  r ∈ recs -> zlen (n_chars (e_node e)) < r_start r ->
  exists e', Tracked.restorePlaceholdersInNode e = (Throw, e') /\ e_node e' = e_node e.
Proof.
  intros Hd Hr Hin Hlen. unfold Tracked.restorePlaceholdersInNode.
  unfold bind at 1. unfold readNodeBackup, tryCatch, getPluginData. rewrite Hd.
  unfold bind at 1.
  destruct (safeLoadFontsForNode_keeps e) as (u & e1 & -> & Hn1 & _).
  rewrite Hr. unfold bind at 1.
  destruct (safeLoadFonts_keeps (omap r_originalFont (Tracked.sortDesc recs)) e1)
    as (u2 & e2 & -> & Hn2 & _).
  destruct (sortDesc_head_max recs r Hin) as (r0 & rest & -> & Hmax).
  cbn [forEach]. unfold bind at 1. unfold bind at 1.
  unfold Tracked.restoreOne. unfold bind at 1. unfold insertCharacters.
  rewrite Hn2, Hn1.
  replace (inRange (r_start r0) (r_start r0) (zlen (n_chars (e_node e)))) with false.
  - exists e2. split; [done|]. by rewrite Hn2, Hn1.
  - symmetry. unfold inRange. apply andb_false_iff. right. apply Z.leb_gt. lia.
Qed.

Lemma restore_stale_record_throws_witness :
  let b := mkBackup (chars "see @old") {[ "old"%string := chars "value" ]} "Keywords"
                    (Some [mkRecord 4 5 (chars "@old") (Some Inter)]) in
  let e := mkEnv (mkNode (styled Inter (chars "hi")) Inter (Some b))
                 [Inter] [Inter] [keywords] [] in
  exists e', Tracked.restorePlaceholdersInNode e = (Throw, e') /\ e_node e' = e_node e.
Proof.
  apply (restore_stale_record_throws
           (mkEnv (mkNode (styled Inter (chars "hi")) Inter
                          (Some (mkBackup (chars "see @old") {[ "old"%string := chars "value" ]}
                                          "Keywords"
                                          (Some [mkRecord 4 5 (chars "@old") (Some Inter)]))))
                  [Inter] [Inter] [keywords] [])
           (mkBackup (chars "see @old") {[ "old"%string := chars "value" ]} "Keywords"
                     (Some [mkRecord 4 5 (chars "@old") (Some Inter)]))
           [mkRecord 4 5 (chars "@old") (Some Inter)]
           (mkRecord 4 5 (chars "@old") (Some Inter))).
  - reflexivity.
  - reflexivity.
  - left.
  - vm_compute. reflexivity.
Defined.

(** * The whole-text variant, as its caller sees it *)

Lemma whole_replace_run name e :
  WholeText.scan (plain (n_chars (e_node e))) <> [] ->
  exists out snap e2,
    e_node e2 = e_node e
    /\ WholeText.replacePlaceholdersInNode name e
       = (Ok (mkReplaceResult true (Some snap)),
          withChars
            (withData e2
               (Some (mkBackup (plain (n_chars (e_node e))) snap
                               (orDefault DEFAULT_COLLECTION_NAME name) None)))
            (styled (styleBefore (n_base (e_node e)) (n_chars (e_node e)) 0) out)).
Proof.
  intros Hscan. unfold WholeText.replacePlaceholdersInNode.
  unfold bind at 1. unfold getCharacters at 1.
  set (text := plain (n_chars (e_node e))) in *.
  destruct (WholeText.scan text) as [|m0 ms0] eqn:Escan; [done|].
  rewrite <- Escan. set (ms := WholeText.scan text) in *.
  destruct (getOrCreate_frame name e) as (e1 & Hg & Hn1 & Hl1 & Ha1 & Hv1).
  unfold bind at 1. rewrite Hg. unfold bind at 1.
  destruct (whole_buildLoop text (chosenCollectionOf name e) ms [] 0 ∅ e1)
    as (o & li & s & -> & _).
  unfold bind at 1.
  destruct (safeLoadFontsForNode_keeps e1) as (u & e2 & -> & Hn2 & _).
  unfold bind, WholeText.saveNodeBackup, tryCatch, setPluginData, setCharacters, ret.
  exists (o ++ slice li (zlen text) text), s, e2.
  split; [by rewrite Hn2, Hn1|].
  rewrite chosenCollection_name, orDefault_idem by done.
  unfold withChars, withData, withNode. cbn [e_node n_chars n_base n_data].
  by rewrite Hn2, Hn1.
Qed.

(** X16. The substitution pass of the whole-text variant never throws.  It
    reports [changed] exactly when the text has a match, whether or not any
    key resolves; without a match it leaves the host, a backup included, as
    it was.  With a match the backup holds the characters before the pass,
    the snapshot returned and the collection name used, and no record list;
    the new text is all in the font the first character had. *)
Theorem whole_substitution_backup name e :
  exists r e',
    WholeText.replacePlaceholdersInNode name e = (Ok r, e')
    /\ (changed r = true <-> WholeText.scan (plain (n_chars (e_node e))) <> [])
    /\ (changed r = false -> e' = e)
    /\ (changed r = true ->
        exists b,
          n_data (e_node e') = Some b
          /\ b_original b = plain (n_chars (e_node e))
          /\ b_collection b = orDefault DEFAULT_COLLECTION_NAME name
          /\ snapshot r = Some (b_snapshot b)
          /\ b_replacements b = None
          /\ n_chars (e_node e')
             = styled (styleBefore (n_base (e_node e)) (n_chars (e_node e)) 0)
                      (plain (n_chars (e_node e')))).
Proof.
  destruct (decide (WholeText.scan (plain (n_chars (e_node e))) = [])) as [Hnil|Hscan].
  - exists (mkReplaceResult false None), e.
    unfold WholeText.replacePlaceholdersInNode. unfold bind at 1. unfold getCharacters at 1.
    rewrite Hnil. split; [done|]. cbn [changed]. split; [by split|]. by split.
  - destruct (whole_replace_run name e Hscan) as (out & snap & e2 & Hn2 & ->).
    eexists _, _. split; [reflexivity|]. cbn [changed snapshot].
    split; [by split|]. split; [done|]. intros _. eexists. split; [reflexivity|].
    cbn [b_original b_collection b_snapshot b_replacements].
    repeat (split; [done|]).
    unfold withChars, withNode. cbn [e_node n_chars]. by rewrite plain_styled.
Qed.

Lemma whole_scan_nonempty text : WholeText.scan text <> [] -> text <> [].
Proof. by intros H ->. Qed.

(** X17. In the whole-text variant, on a text with at least one match,
    substitution followed by restoration gives the characters back; the
    backup stays on the node. *)
Theorem whole_roundtrip name e :
  WholeText.scan (plain (n_chars (e_node e))) <> [] ->
  exists r e' e'',
    WholeText.replacePlaceholdersInNode name e = (Ok r, e')
    /\ WholeText.restorePlaceholdersInNode e' = (Ok true, e'')
    /\ plain (n_chars (e_node e'')) = plain (n_chars (e_node e))
    /\ n_data (e_node e'') = n_data (e_node e').
Proof.
  intros Hscan.
  destruct (whole_replace_run name e Hscan) as (out & snap & e2 & Hn2 & ->).
  pose proof (whole_scan_nonempty _ Hscan) as Htext.
  set (e' := withChars _ _).
  destruct (whole_restore_run e') as (e3 & Hn3 & Hrun).
  assert (Hd' : n_data (e_node e')
                = Some (mkBackup (plain (n_chars (e_node e))) snap
                                 (orDefault DEFAULT_COLLECTION_NAME name) None)) by done.
  rewrite Hd' in Hrun. cbn [b_original] in Hrun.
  destruct (plain (n_chars (e_node e))) as [|c t] eqn:Ep; [done|].
  eexists _, e', _. split; [reflexivity|]. split; [exact Hrun|].
  unfold withChars at 1 2, withNode at 1 2. cbn [e_node n_chars n_data].
  rewrite plain_styled. split; [done|]. by rewrite Hn3.
Qed.

Lemma whole_roundtrip_witness :
  let e := sampleEnv (styled Inter (chars "@a and @none")) [stringVar "a" "X"] in
  exists r e' e'',
    WholeText.replacePlaceholdersInNode "Keywords" e = (Ok r, e')
    /\ WholeText.restorePlaceholdersInNode e' = (Ok true, e'')
    /\ plain (n_chars (e_node e'')) = plain (n_chars (e_node e))
    /\ n_data (e_node e'') = n_data (e_node e').
Proof.
  apply (whole_roundtrip "Keywords"
           (sampleEnv (styled Inter (chars "@a and @none")) [stringVar "a" "X"])).
  vm_compute. discriminate.
Defined.

(** X18. Restoration in the whole-text variant can be repeated: it keeps
    the backup, and a second restoration right after the first reports the
    same and leaves the node as the first left it. *)
Theorem whole_restore_repeatable e :
  exists restored e1 e2,
    WholeText.restorePlaceholdersInNode e = (Ok restored, e1)
    /\ n_data (e_node e1) = n_data (e_node e)
    /\ WholeText.restorePlaceholdersInNode e1 = (Ok restored, e2)
    /\ e_node e2 = e_node e1.
Proof.
  destruct (whole_restore_run e) as (e1 & Hn1 & Hr1). rewrite Hr1.
  destruct (n_data (e_node e)) as [b|] eqn:Hd.
  - destruct (b_original b) as [|c t] eqn:Ho.
    + exists false, e, e. split; [done|]. split; [done|].
      destruct (whole_restore_run e) as (e1' & _ & ->). rewrite Hd, Ho. done.
    + rewrite <- Ho. set (e' := withChars e1 _).
      assert (Hd' : n_data (e_node e') = Some b).
      { unfold e', withChars, withNode. cbn [e_node n_data]. by rewrite Hn1. }
      destruct (whole_restore_run e') as (e2 & Hn2 & Hr2). rewrite Hd', Ho in Hr2.
      eexists true, e', _. split; [done|]. split; [by rewrite Hd'|].
      split; [exact Hr2|].
      unfold withChars at 1, withNode at 1. cbn [e_node]. rewrite Hn2.
      unfold e', withChars, withNode. cbn [e_node n_chars n_base n_data].
      rewrite Hn1, Ho. done.
  - exists false, e, e. split; [done|]. split; [done|].
    destruct (whole_restore_run e) as (e1' & _ & ->). by rewrite Hd.
Qed.

(** * The selection handler *)

Lemma guardedPass_frame {A} i (c : M A) w :
  processing (guardedPass i c w) = false
  /\ featureEnabled (guardedPass i c w) = featureEnabled w
  /\ chosenCollection (guardedPass i c w) = chosenCollection w
  /\ lastSelectedNodeId (guardedPass i c w) = lastSelectedNodeId w
  /\ w_selection (guardedPass i c w) = w_selection w
  /\ w_variables (guardedPass i c w) = w_variables w
  /\ w_available (guardedPass i c w) = w_available w
  /\ (forall j, j <> i -> w_nodes (guardedPass i c w) !! j = w_nodes w !! j)
  /\ (forall j, (exists n, w_nodes (guardedPass i c w) !! j = Some (TextN n))
                <-> (exists n, w_nodes w !! j = Some (TextN n))).
Proof.
  unfold guardedPass. cbn [setProcessing w_nodes].
  destruct (w_nodes w !! i) as [[n|]|] eqn:Hi; try (by repeat split).
  unfold runOnNode. cbn. repeat split; try done.
  - intros j Hj. by rewrite lookup_insert_ne.
  - intros [m Hm]. destruct (decide (j = i)) as [->|Hj]; [by eauto|].
    rewrite lookup_insert_ne in Hm by done. by eauto.
  - intros [m Hm]. destruct (decide (j = i)) as [->|Hj].
    + rewrite lookup_insert_eq. by eauto.
    + rewrite lookup_insert_ne by done. by eauto.
Qed.

(** X19. The selection handler, with any two passes, leaves the processing
    guard as it found it, so never set when it ran, and leaves the feature
    flag, the chosen collection, the selection and the variables alone.  It
    touches no node but the one last selected and the one newly selected, and
    a text node stays a text node. *)
Theorem handler_frame replace restore w :
  let w' := handleSelectionChangeWith replace restore w in
  processing w' = processing w
  /\ featureEnabled w' = featureEnabled w
  /\ chosenCollection w' = chosenCollection w
  /\ w_selection w' = w_selection w
  /\ w_variables w' = w_variables w
  /\ w_available w' = w_available w
  /\ (forall j, Some j <> lastSelectedNodeId w -> Some j <> newSelectedNode w ->
        w_nodes w' !! j = w_nodes w !! j)
  /\ (forall j, (exists n, w_nodes w' !! j = Some (TextN n))
                <-> (exists n, w_nodes w !! j = Some (TextN n))).
Proof.
  unfold handleSelectionChangeWith.
  destruct (featureEnabled w) eqn:Hen; cbn [negb]; [|by rewrite Hen].
  destruct (processing w) eqn:Hpr; [by rewrite Hen, Hpr|].
  set (w1 := if truthyId (lastSelectedNodeId w) && _ then _ else w).
  assert (H1 : processing w1 = false
               /\ featureEnabled w1 = true
               /\ chosenCollection w1 = chosenCollection w
               /\ w_selection w1 = w_selection w
               /\ w_variables w1 = w_variables w
               /\ w_available w1 = w_available w
               /\ (forall j, Some j <> lastSelectedNodeId w -> w_nodes w1 !! j = w_nodes w !! j)
               /\ (forall j, (exists n, w_nodes w1 !! j = Some (TextN n))
                             <-> (exists n, w_nodes w !! j = Some (TextN n)))).
  { unfold w1. destruct (truthyId (lastSelectedNodeId w) && _); [|by repeat split].
    destruct (lastSelectedNodeId w) as [i|]; [|by repeat split].
    destruct (guardedPass_frame i (replace (chosenCollection w)) w)
      as (G1 & G2 & G3 & G4 & G5 & G6 & G7 & G8 & G9).
    rewrite G2, Hen. repeat split; try done.
    - intros j Hj. apply G8. congruence.
    - by apply G9.
    - by apply G9. }
  destruct H1 as (P1 & P2 & P3 & P4 & P5 & P6 & P7 & P8).
  set (w2 := match newSelectedNode w with Some i => _ | None => w1 end).
  assert (H2 : processing w2 = false
               /\ featureEnabled w2 = true
               /\ chosenCollection w2 = chosenCollection w
               /\ w_selection w2 = w_selection w
               /\ w_variables w2 = w_variables w
               /\ w_available w2 = w_available w
               /\ (forall j, Some j <> lastSelectedNodeId w -> Some j <> newSelectedNode w ->
                     w_nodes w2 !! j = w_nodes w !! j)
               /\ (forall j, (exists n, w_nodes w2 !! j = Some (TextN n))
                             <-> (exists n, w_nodes w !! j = Some (TextN n)))).
  { assert (Hkeep : processing w1 = false
               /\ featureEnabled w1 = true
               /\ chosenCollection w1 = chosenCollection w
               /\ w_selection w1 = w_selection w
               /\ w_variables w1 = w_variables w
               /\ w_available w1 = w_available w
               /\ (forall j, Some j <> lastSelectedNodeId w -> Some j <> newSelectedNode w ->
                     w_nodes w1 !! j = w_nodes w !! j)
               /\ (forall j, (exists n, w_nodes w1 !! j = Some (TextN n))
                             <-> (exists n, w_nodes w !! j = Some (TextN n)))).
    { repeat split; try done; [intros j Hl _; by apply P7|by apply P8|by apply P8]. }
    unfold w2. destruct (newSelectedNode w) as [i|] eqn:Hnew; [|exact Hkeep].
    destruct (bool_decide (Some i = lastSelectedNodeId w1)); [exact Hkeep|].
    cbn [negb]. clear Hkeep.
    destruct (guardedPass_frame i restore w1)
      as (G1 & G2 & G3 & G4 & G5 & G6 & G7 & G8 & G9).
    rewrite G2, G3, G5, G6, G7. repeat split; try done.
    - intros j Hl Hn. rewrite G8 by congruence. by apply P7.
    - intros H. by apply P8, G9.
    - intros H. by apply G9, P8. }
  cbn [setLastSelected processing featureEnabled chosenCollection w_selection w_variables
       w_available w_nodes].
  exact H2.
Qed.

(** X20. When the single selected text node is the node last selected, or
    nothing of the kind is selected now or was before, the handler changes
    nothing: no pass runs. *)
Theorem handler_same_selection_noop replace restore w :
  newSelectedNode w = lastSelectedNodeId w ->
  handleSelectionChangeWith replace restore w = w.
Proof.
  intros Hsame. unfold handleSelectionChangeWith.
  destruct (featureEnabled w); cbn [negb]; [|done].
  destruct (processing w); [done|].
  rewrite Hsame.
  rewrite (bool_decide_eq_true_2 (lastSelectedNodeId w = lastSelectedNodeId w)) by done.
  cbn [negb]. rewrite andb_false_r.
  assert (Hset : setLastSelected (lastSelectedNodeId w) w = w) by (by destruct w).
  destruct (lastSelectedNodeId w) as [i|] eqn:Hl; [|done].
  by rewrite (bool_decide_eq_true_2 (Some i = Some i)) by done.
Qed.

Lemma handler_same_selection_noop_witness :
  Tracked.handleSelectionChange noIcon (sampleWorld true (Some "1:2"%string))
  = sampleWorld true (Some "1:2"%string).
Proof.
  apply (handler_same_selection_noop (Tracked.replacePlaceholdersInNode noIcon)
           Tracked.restorePlaceholdersInNode (sampleWorld true (Some "1:2"%string))).
  reflexivity.
Defined.

(** The characters after a pass and after the restoration that follows. *)
Lemma roundtrip_plain cfg name e :
  noEmptyAdjacent (actionableIn name e) ->
  exists r e' e'',
    Tracked.replacePlaceholdersInNode cfg name e = (Ok r, e')
    /\ Tracked.restorePlaceholdersInNode e' = (Ok (changed r), e'')
    /\ n_data (e_node e'') = None
    /\ plain (n_chars (e_node e'')) = plain (n_chars (e_node e))
    /\ e_available e' = e_available e /\ e_variables e' = e_variables e.
Proof.
  intros Hne.
  destruct (replace_spec cfg name e) as (e0 & _ & Hav & Hvar & _ & _ & Hrep).
  destruct (actionableIn name e) as [|a0 acts0] eqn:Eacts.
  - destruct Hrep as (Hrun & Hc & Hd).
    exists (mkReplaceResult false None), e0, e0. split; [done|].
    unfold Tracked.restorePlaceholdersInNode, bind, readNodeBackup, tryCatch,
      getPluginData, ret. rewrite Hd. cbn [changed].
    split; [done|]. split; [done|]. split; [by rewrite Hc|done].
  - rewrite <- Eacts in *.
    destruct (roundtrip_spec cfg name e) as
      (e' & e'' & inhsS & inhsR & Hrun & Hrest & Hd & HlS & HlR & Hf & Hc);
      [by rewrite Eacts|done|].
    assert (He : e0 = e').
    { rewrite Eacts in Hrep. destruct Hrep as (inhs & _ & Hrun0 & _).
      rewrite <- Eacts in Hrun0. rewrite Hrun in Hrun0. by injection Hrun0. }
    subst e0.
    set (acts := actionableIn name e) in *. set (cs := n_chars (e_node e)) in *.
    pose proof (actionable_ascending (chosenCollectionOf name e) e _ _ _
                  (tracked_scan_ascending (plain cs))) as Hasc.
    fold (actionableIn name e) in Hasc. fold acts in Hasc.
    set (itemsS := passSplices _ _ _ e acts inhsS) in *.
    set (news := zip_with (restoredSpan (e_loaded e'') e) acts inhsR) in *.
    assert (HspanS : map span itemsS = map opSpan (map (opOf e) acts)).
    { unfold itemsS, passSplices. apply span_hostSplices. by rewrite length_map. }
    assert (Hlens : List.length news = List.length itemsS).
    { unfold news, itemsS, passSplices. rewrite !length_zip_with, length_map. lia. }
    assert (Hin : forall a, a ∈ acts ->
              m_text a.1 = slice (m_start a.1) (m_start a.1 + m_len a.1) (plain cs)).
    { intros [mm v] Ha. apply actionable_elem in Ha as [Hmm _]. cbn [fst].
      by destruct (tracked_scan_text _ _ Hmm) as [Ht Hl]. }
    exists (mkReplaceResult true (Some (snapshotOf ∅ acts))), e', e''.
    split; [done|]. split; [done|]. split; [done|]. split; [|done].
    rewrite Hc. unfold plain at 1. rewrite rebuildFrom_map.
    rewrite rebuild_identity; [done| |].
    + rewrite span_reinsert by done. rewrite HspanS. exact Hasc.
    + apply reinsert_forall. intros a inh Ha. unfold restoredSpan.
      fold (plain (styled (opFont inh false (e_loaded e'') inh false (capturedFont e a.1))
                          (m_text a.1))).
      rewrite plain_styled. by apply Hin.
Qed.




(** * The manual commands *)

Lemma PageNode_nested_ind (P : PageNode -> Prop) :
  (forall i, P (PNode i None)) ->
  (forall i cs, Forall P cs -> P (PNode i (Some cs))) ->
  forall n, P n.
Proof.
  intros H0 H1. fix IH 1. intros [i [cs|]]; [|apply H0].
  apply H1. induction cs as [|c cs IHcs]; constructor; [apply IH|apply IHcs].
Qed.

Lemma filter_flat_map {A B} (p : B -> bool) (f : A -> list B) l :
  List.filter p (flat_map f l) = flat_map (fun x => List.filter p (f x)) l.
Proof.
  induction l as [|x l IH]; [done|]. cbn [flat_map]. by rewrite List.filter_app, IH.
Qed.

Lemma findAll_filter p n : findAll p n = List.filter p (descendants n).
Proof.
  unfold descendants. induction n as [i|i cs IH] using PageNode_nested_ind; [done|].
  cbn [findAll]. rewrite filter_flat_map.
  induction cs as [|c cs IHcs]; [done|].
  apply Forall_cons in IH as [Hc IH]. cbn [flat_map]. rewrite (IHcs IH). f_equal.
  cbn [app List.filter]. rewrite <- Hc. by destruct (p c).
Qed.

Lemma isText_lookup nodes n :
  isText nodes n = true <-> exists t, nodes !! nodeId n = Some (TextN t).
Proof.
  unfold isText. destruct (nodes !! nodeId n) as [[t|]|]; split; try done; eauto.
  - by intros [t [=]].
  - by intros [t [=]].
Qed.

Lemma gather_filter page w useSelectionOnly :
  gatherTextNodesFromSelectionOrPage page w useSelectionOnly
  = List.filter (isText (w_nodes w)) (candidates page w useSelectionOnly).
Proof.
  unfold gatherTextNodesFromSelectionOrPage, candidates, selectionNodes.
  rewrite length_map.
  destruct (useSelectionOnly && negb (Nat.eqb (List.length (w_selection w)) 0));
    [|apply findAll_filter].
  rewrite filter_flat_map. apply flat_map_ext. intros item.
  cbn [List.filter]. rewrite <- findAll_filter.
  destruct item as [i [cs|]]; cbn [hasFindAll]; [by destruct (isText _ _)|].
  cbn [findAll]. by destruct (isText _ _).
Qed.

Lemma gather_only_text page w useSelectionOnly n :
  n ∈ gatherTextNodesFromSelectionOrPage page w useSelectionOnly ->
  exists t, w_nodes w !! nodeId n = Some (TextN t).
Proof.
  rewrite gather_filter. intros Hn.
  apply list_elem_of_In, List.filter_In in Hn as [_ Hn]. by apply isText_lookup.
Qed.

(** X22. [gatherTextNodesFromSelectionOrPage] returns the text nodes among
    the selected nodes and their descendants, in selection and document
    order; when nothing is selected, or the selection is not to be used, it
    returns the text nodes of the whole page instead.  Every node returned is
    a text node of the document. *)
Theorem gather_text_nodes page w useSelectionOnly :
  gatherTextNodesFromSelectionOrPage page w useSelectionOnly
  = List.filter (isText (w_nodes w)) (candidates page w useSelectionOnly)
  /\ Forall (fun n => exists t, w_nodes w !! nodeId n = Some (TextN t))
            (gatherTextNodesFromSelectionOrPage page w useSelectionOnly).
Proof.
  split; [apply gather_filter|]. apply Forall_forall. intros n. apply gather_only_text.
Qed.

(** A container and a text node inside it, both selected: the text node is
    gathered twice. *)
Example gather_twice :
  let page := PNode "0:1" (Some [PNode "1:1" (Some [PNode "1:2" None])]) in
  let w := select ["1:1"%string; "1:2"%string] (sampleWorld true None) in
  map nodeId (gatherTextNodesFromSelectionOrPage page w true) = ["1:2"%string; "1:2"%string].
Proof. reflexivity. Qed.

Lemma runOnNode_frame {A} i t (c : M A) w :
  featureEnabled (runOnNode i t c w) = featureEnabled w
  /\ chosenCollection (runOnNode i t c w) = chosenCollection w
  /\ lastSelectedNodeId (runOnNode i t c w) = lastSelectedNodeId w
  /\ processing (runOnNode i t c w) = processing w
  /\ w_selection (runOnNode i t c w) = w_selection w
  /\ w_nodes (runOnNode i t c w) = <[i := TextN (e_node (snd (c (envOf w t))))]> (w_nodes w).
Proof. by repeat split. Qed.

(** The loop over the gathered nodes with a pass that never throws. *)
Lemma forNodes_total {A} (pass : M A) (result : string -> A -> RunResult) :
  (forall e, exists a e', pass e = (Ok a, e')) ->
  forall nodes results w,
    (forall n, n ∈ nodes -> exists t, w_nodes w !! nodeId n = Some (TextN t)) ->
    exists values w',
      forNodes pass result nodes results w
      = (Ok (results ++ zip_with result (map nodeId nodes) values), w')
      /\ List.length values = List.length nodes
      /\ featureEnabled w' = featureEnabled w
      /\ chosenCollection w' = chosenCollection w
      /\ lastSelectedNodeId w' = lastSelectedNodeId w
      /\ processing w' = processing w
      /\ w_selection w' = w_selection w
      /\ (forall j, j ∉ map nodeId nodes -> w_nodes w' !! j = w_nodes w !! j)
      /\ (forall j, (exists t, w_nodes w' !! j = Some (TextN t))
                    <-> (exists t, w_nodes w !! j = Some (TextN t))).
Proof.
  intros Hpass nodes. induction nodes as [|n nodes IH]; intros results w Hall.
  - exists [], w. cbn. rewrite app_nil_r. by repeat split.
  - destruct (Hall n) as [t Ht]; [left|]. cbn [forNodes]. rewrite Ht.
    destruct (Hpass (envOf w t)) as (a & e' & Hrun). rewrite Hrun. cbn [fst].
    destruct (runOnNode_frame (nodeId n) t pass w) as (F1 & F2 & F3 & F4 & F5 & F6).
    set (w1 := runOnNode (nodeId n) t pass w) in *.
    assert (Htext : forall j, (exists t0, w_nodes w1 !! j = Some (TextN t0))
                              <-> (exists t0, w_nodes w !! j = Some (TextN t0))).
    { intros j. rewrite F6. destruct (decide (j = nodeId n)) as [->|Hj].
      - rewrite lookup_insert_eq. split; eauto.
      - by rewrite lookup_insert_ne. }
    destruct (IH (results ++ [result (nodeId n) a]) w1) as
      (values & w' & Hloop & Hlen & G1 & G2 & G3 & G4 & G5 & G6 & G7).
    { intros m Hm. apply Htext. apply Hall. by right. }
    exists (a :: values), w'. rewrite Hloop, <- app_assoc. cbn.
    split; [done|]. split; [by rewrite Hlen|].
    rewrite G1, G2, G3, G4, G5. repeat split; try done.
    + intros j Hj. apply not_elem_of_cons in Hj as [Hne Hj].
      rewrite (G6 j Hj), F6. by rewrite lookup_insert_ne.
    + intros H. by apply Htext, G7.
    + intros H. by apply G7, Htext.
Qed.

Lemma replace_total cfg name e :
  exists a e', Tracked.replacePlaceholdersInNode cfg name e = (Ok a, e').
Proof. destruct (replace_text cfg name e) as (r & e' & H & _). by exists r, e'. Qed.

Lemma afterPasses_snoc {A} (pass : M A) nodes n w :
  afterPasses pass (nodes ++ [n]) w = passOn pass (afterPasses pass nodes w) n.
Proof. unfold afterPasses. by rewrite foldl_app. Qed.

(** The loop over the gathered nodes with a pass that never throws: each
    pass runs in the world the passes before it left. *)
Lemma forNodes_passes {A} (pass : M A) (result : string -> A -> RunResult) :
  (forall e, exists a e', pass e = (Ok a, e')) ->
  forall nodes results w,
    (forall n, n ∈ nodes -> exists t, w_nodes w !! nodeId n = Some (TextN t)) ->
    exists values,
      forNodes pass result nodes results w
      = (Ok (results ++ zip_with result (map nodeId nodes) values), afterPasses pass nodes w)
      /\ List.length values = List.length nodes
      /\ (forall (k : nat) n, nodes !! k = Some n ->
            exists t,
              w_nodes (afterPasses pass (take k nodes) w) !! nodeId n = Some (TextN t)
              /\ values !! k
                 = match fst (pass (envOf (afterPasses pass (take k nodes) w) t)) with
                   | Ok v => Some v
                   | Throw => None
                   end).
Proof.
  intros Hpass nodes. induction nodes as [|n nodes IH]; intros results w Hall.
  - exists []. cbn. rewrite app_nil_r. by repeat split.
  - destruct (Hall n) as [t Ht]; [left|]. cbn [forNodes]. rewrite Ht.
    destruct (Hpass (envOf w t)) as (a & e' & Hrun). rewrite Hrun. cbn [fst].
    destruct (runOnNode_frame (nodeId n) t pass w) as (_ & _ & _ & _ & _ & F6).
    assert (Hw1 : runOnNode (nodeId n) t pass w = passOn pass w n).
    { unfold passOn. by rewrite Ht. }
    set (w1 := runOnNode (nodeId n) t pass w) in *.
    assert (Htext : forall j, (exists t0, w_nodes w1 !! j = Some (TextN t0))
                              <-> (exists t0, w_nodes w !! j = Some (TextN t0))).
    { intros j. rewrite F6. destruct (decide (j = nodeId n)) as [->|Hj].
      - rewrite lookup_insert_eq. split; eauto.
      - by rewrite lookup_insert_ne. }
    destruct (IH (results ++ [result (nodeId n) a]) w1) as (values & Hloop & Hlen & Hk).
    { intros m Hm. apply Htext. apply Hall. by right. }
    exists (a :: values). rewrite Hloop, <- app_assoc. cbn.
    unfold afterPasses at 2. cbn [foldl]. rewrite <- Hw1. fold (afterPasses pass nodes w1).
    split; [done|]. split; [by rewrite Hlen|].
    intros [|k] m Hm.
    + injection Hm as <-. exists t. cbn. split; [done|]. by rewrite Hrun.
    + cbn in Hm. destruct (Hk k m Hm) as (t' & Ht' & Hv). exists t'.
      unfold afterPasses in *. cbn [take foldl]. rewrite <- Hw1. by split.
Qed.

Lemma replace_changed cfg name e :
  changed (match fst (Tracked.replacePlaceholdersInNode cfg name e) with
           | Ok r => r
           | Throw => mkReplaceResult false None
           end)
  = bool_decide (actionableIn name e <> []).
Proof.
  destruct (replace_spec cfg name e) as (e' & _ & _ & _ & _ & _ & Hrep).
  destruct (actionableIn name e) as [|a0 acts0] eqn:Eacts.
  - destruct Hrep as (-> & _). by rewrite bool_decide_eq_false_2 by (by intros []).
  - destruct Hrep as (inhs & _ & -> & _). by rewrite bool_decide_eq_true_2.
Qed.

(** X23. The manual run on the selection never fails.  It runs one
    substitution pass for each gathered node, in the order gathered, each in
    the world the passes before it left, and posts one [run-result] message
    with one [{ id, changed }] entry for each of them: [changed] tells
    whether the node's text, as the pass found it, had an actionable match,
    and the node is left as the pass left it.  Nodes that were not gathered
    are left as they were, and so are the runtime variables. *)
Theorem run_on_selection_results p :
  let nodes := gatherTextNodesFromSelectionOrPage (pl_page p) (pl_world p) true in
  let name := chosenCollection (pl_world p) in
  let pass := Tracked.replacePlaceholdersInNode (pl_icon p) name in
  let w' := afterPasses pass nodes (pl_world p) in
  exists flags,
    onmessage RunOnSelection p
    = postMessage (RunResultMsg (zip_with Changed (map nodeId nodes) flags)) (withWorld w' p)
    /\ List.length flags = List.length nodes
    /\ (forall (k : nat) n, nodes !! k = Some n ->
          exists t,
            let w := afterPasses pass (take k nodes) (pl_world p) in
            w_nodes w !! nodeId n = Some (TextN t)
            /\ flags !! k = Some (bool_decide (actionableIn name (envOf w t) <> []))
            /\ w_nodes (afterPasses pass (take (S k) nodes) (pl_world p)) !! nodeId n
               = Some (TextN (e_node (afterReplace (pl_icon p) name (envOf w t)))))
    /\ featureEnabled w' = featureEnabled (pl_world p)
    /\ chosenCollection w' = chosenCollection (pl_world p)
    /\ lastSelectedNodeId w' = lastSelectedNodeId (pl_world p)
    /\ (forall j, j ∉ map nodeId nodes -> w_nodes w' !! j = w_nodes (pl_world p) !! j).
Proof.
  intros nodes name pass w'. unfold onmessage. fold nodes name pass.
  destruct (forNodes_passes pass (fun i r => Changed i (changed r))
              (replace_total _ _) nodes [] (pl_world p))
    as (values & Hrun & Hlen & Hk).
  { apply gather_only_text. }
  destruct (forNodes_total pass (fun i r => Changed i (changed r))
              (replace_total _ _) nodes [] (pl_world p))
    as (values2 & w2 & Hrun2 & _ & G1 & G2 & G3 & _ & _ & G6 & _).
  { apply gather_only_text. }
  rewrite Hrun in Hrun2. injection Hrun2 as _ <-. rewrite Hrun. fold w'.
  exists (map changed values). cbn [app].
  split; [|split; [by rewrite length_map|split; [|by repeat split]]].
  - f_equal. f_equal. clear. generalize (map nodeId nodes). intros ids. revert ids.
    induction values as [|v values IH]; intros [|i ids]; cbn; try done. by rewrite IH.
  - intros k n Hn. destruct (Hk k n Hn) as (t & Ht & Hv). exists t. cbv zeta.
    set (w := afterPasses pass (take k nodes) (pl_world p)) in *.
    split; [done|]. split.
    + rewrite list_lookup_fmap, Hv. unfold pass.
      pose proof (replace_changed (pl_icon p) name (envOf w t)) as Hc.
      destruct (replace_total (pl_icon p) name (envOf w t)) as (r & e' & Hr).
      rewrite Hr in Hc |- *. cbn [fst fmap option_fmap option_map] in *. by rewrite Hc.
    + rewrite (take_S_r _ _ _ Hn), afterPasses_snoc. fold w. unfold passOn. rewrite Ht.
      unfold runOnNode. cbn [w_nodes]. by rewrite lookup_insert_eq.
Qed.

(** * The settings *)

Lemma replace_settings_ext cfg1 cfg2 name1 name2 e :
  orDefault DEFAULT_COLLECTION_NAME name1 = orDefault DEFAULT_COLLECTION_NAME name2 ->
  Tracked.iconFontFamily cfg1 = Tracked.iconFontFamily cfg2 ->
  Tracked.iconFont cfg1 = Tracked.iconFont cfg2 ->
  Tracked.replacePlaceholdersInNode cfg1 name1 e
  = Tracked.replacePlaceholdersInNode cfg2 name2 e.
Proof.
  intros Hname Hfam Hfont.
  unfold Tracked.replacePlaceholdersInNode, Tracked.loadIconFont, Tracked.applyOps,
    Tracked.applyOp.
  by rewrite Hname, Hfam, Hfont.
Qed.

(** X24. Settings survive a restart of the plugin as far as the passes can
    tell: after a [set] message and a restart, a substitution pass runs
    against the same collection and with the same icon font as before the
    restart (an empty collection name or icon style is read back as its
    default, which is what a pass makes of it anyway).  The feature flag is
    not saved: after a restart the feature is on. *)
Theorem settings_survive_restart p enabled collection fontFamily fontStyle :
  let p1 := onmessage (SetSettings enabled collection fontFamily fontStyle) p in
  let p2 := startup p1 in
  (forall e,
     Tracked.replacePlaceholdersInNode (pl_icon p2) (chosenCollection (pl_world p2)) e
     = Tracked.replacePlaceholdersInNode (pl_icon p1) (chosenCollection (pl_world p1)) e)
  /\ chosenCollection (pl_world p2)
     = orDefault DEFAULT_COLLECTION_NAME (chosenCollection (pl_world p1))
  /\ Tracked.iconFontFamily (pl_icon p2) = Tracked.iconFontFamily (pl_icon p1)
  /\ Tracked.iconFont (pl_icon p2) = Tracked.iconFont (pl_icon p1)
  /\ featureEnabled (pl_world p2) = true
  /\ pl_settings p2 = pl_settings p1.
Proof.
  cbv zeta. unfold onmessage, startup, postMessage, loadSettings.
  cbn [pl_world pl_icon pl_settings pl_page s_collection s_iconFontFamily s_iconFontStyle
       savedOr chosenCollection featureEnabled Tracked.iconFontFamily Tracked.iconFontStyle].
  set (w := match collection with Some c => _ | None => _ end).
  set (fam := default (Tracked.iconFontFamily (pl_icon p)) fontFamily).
  set (sty := default (Tracked.iconFontStyle (pl_icon p)) fontStyle).
  assert (Hfam : orDefault "" fam = fam).
  { unfold orDefault. destruct (bool_decide (fam = ""%string)) eqn:H; [|done].
    by apply bool_decide_eq_true in H. }
  assert (Hfont : Tracked.iconFont (Tracked.mkIcon (orDefault "" fam) (orDefault "Regular" sty))
                  = Tracked.iconFont (Tracked.mkIcon fam sty)).
  { unfold Tracked.iconFont. cbn [Tracked.iconFontFamily Tracked.iconFontStyle].
    by rewrite Hfam, orDefault_idem. }
  split; [|by repeat split].
  intros e. apply replace_settings_ext; [by apply orDefault_idem|exact Hfam|exact Hfont].
Qed.

(** * Debouncing *)

Lemma debounced_after_timers {A} wait (a : A) time d :
  oneTimer d ->
  debounced wait a (mkDebounced (db_t d) (snd (runTimers time (db_clock d))))
  = mkDebounced (Some (S (clk_lastId (db_clock d))))
      (mkClock time (S (clk_lastId (db_clock d)))
               [mkTimer (S (clk_lastId (db_clock d))) (time + wait) a]).
Proof.
  intros [Hp|(x & Hp & Ht & Hx)]; unfold debounced, runTimers; cbn [snd db_t db_clock];
    rewrite Hp; cbn [List.filter].
  - by destruct (db_t d) as [[|id]|].
  - rewrite Ht. destruct (tm_id x) as [|k] eqn:Hk; [done|]. cbn [Nat.eqb].
    unfold clearTimeout. cbn [clk_pending clk_now clk_lastId].
    destruct (tm_due x <=? time); cbn [negb List.filter]; [done|].
    rewrite Hk, Nat.eqb_refl. done.
Qed.

Lemma callsAt_spec {A} wait (calls : list (Z * A)) : forall d fired horizon,
  oneTimer d ->
  (callsAt wait calls d fired).2
    ++ fst (runTimers horizon (db_clock (callsAt wait calls d fired).1))
  = fired ++ fst (runTimers (nextTime calls horizon) (db_clock d))
      ++ settled wait calls horizon.
Proof.
  induction calls as [|[time a] rest IH]; intros d fired horizon Hd.
  - cbn. by rewrite app_nil_r.
  - cbn [callsAt nextTime settled].
    destruct (runTimers time (db_clock d)) as [ran c] eqn:Hrun.
    pose proof (debounced_after_timers wait a time d Hd) as Hdeb.
    rewrite Hrun in Hdeb. cbn [snd] in Hdeb. rewrite Hdeb.
    rewrite IH.
    + rewrite <- !app_assoc. cbn [fst]. do 2 f_equal.
      unfold runTimers. cbn [fst db_clock clk_pending List.filter tm_due].
      by destruct (time + wait <=? _).
    + right. eexists. by split.
Qed.

(** X25. A debounced function calls [fn] for exactly those of its calls
    that no other call follows within [wait]: each such call goes through
    [wait] after it was made, with its own arguments, and every other call
    is dropped. *)
Theorem debounce_settles {A} wait (calls : list (Z * A)) start horizon :
  firedBy wait calls start horizon = settled wait calls horizon.
Proof.
  unfold firedBy.
  pose proof (callsAt_spec wait calls (debounce start) [] horizon) as H.
  destruct (callsAt wait calls (debounce start) []) as [d fired]. cbn [fst snd] in H.
  rewrite H by (by left). by destruct calls as [|[]].
Qed.

Lemma settled_burst {A} wait (calls : list (Z * A)) horizon : forall time a,
  last calls = Some (time, a) ->
  (forall (i : nat) t1 a1 t2 a2,
     calls !! i = Some (t1, a1) -> calls !! S i = Some (t2, a2) -> t2 < t1 + wait) ->
  time + wait <= horizon ->
  settled wait calls horizon = [(time + wait, a)].
Proof.
  induction calls as [|[t1 a1] rest IH]; intros time a Hlast Hgap Hh; [done|].
  cbn [settled]. destruct rest as [|[t2 a2] rest'].
  - injection Hlast as -> ->. cbn. by rewrite (proj2 (Z.leb_le _ _) Hh).
  - pose proof (Hgap O t1 a1 t2 a2 eq_refl eq_refl) as Hlt.
    rewrite (proj2 (Z.leb_gt _ _) Hlt). cbn [app].
    apply IH; [done| |done].
    intros i u1 b1 u2 b2 H1 H2. apply (Hgap (S i) u1 b1 u2 b2 H1 H2).
Qed.

(** X26. A burst of calls of a debounced function, each less than [wait]
    after the one before, calls [fn] once: [wait] after the last call of the
    burst and with the arguments of that call. *)
Theorem debounce_burst {A} wait (calls : list (Z * A)) start horizon time a :
  last calls = Some (time, a) ->
  (forall (i : nat) t1 a1 t2 a2,
     calls !! i = Some (t1, a1) -> calls !! S i = Some (t2, a2) -> t2 < t1 + wait) ->
  time + wait <= horizon ->
  firedBy wait calls start horizon = [(time + wait, a)].
Proof.
  intros Hlast Hgap Hh. unfold firedBy.
  pose proof (callsAt_spec wait calls (debounce start) [] horizon) as H.
  destruct (callsAt wait calls (debounce start) []) as [d fired]. cbn [fst snd] in H.
  rewrite H by (by left).
  rewrite (settled_burst wait calls horizon time a Hlast Hgap Hh).
  by destruct calls as [|[]].
Qed.

Lemma debounce_burst_witness :
  firedBy 200 [(0, "a"%string); (150, "b"%string); (300, "c"%string)] 0 1000
  = [(300 + 200, "c"%string)].
Proof.
  apply (debounce_burst 200 [(0, "a"%string); (150, "b"%string); (300, "c"%string)]
           0 1000 300 "c"%string).
  - reflexivity.
  - intros [|[|[|i]]] t1 a1 t2 a2 H1 H2; cbn in H1, H2; try done.
    + injection H1 as <- <-. injection H2 as <- <-. lia.
    + injection H1 as <- <-. injection H2 as <- <-. lia.
  - lia.
Defined.

Lemma select_select sel1 sel2 w : select sel2 (select sel1 w) = select sel2 w.
Proof. reflexivity. Qed.

Lemma selectionsAt_burst handler changes : forall s time sel,
  last changes = Some (time, sel) ->
  (forall (i : nat) t1 s1 t2 s2,
     changes !! i = Some (t1, s1) -> changes !! S i = Some (t2, s2) -> t2 < t1 + 200) ->
  oneTimer (ss_handler s) ->
  Forall (fun x => nextTime changes 0 < tm_due x) (clk_pending (db_clock (ss_handler s))) ->
  ss_world (selectionsAt handler changes s) = select sel (ss_world s)
  /\ exists id, clk_pending (db_clock (ss_handler (selectionsAt handler changes s)))
                = [mkTimer id (time + 200) tt].
Proof.
  induction changes as [|[t1 sel1] rest IH]; intros s time sel Hlast Hgap Hone Hdue; [done|].
  cbn [selectionsAt nextTime] in *.
  assert (Hran : runTimers t1 (db_clock (ss_handler s))
                 = ([], mkClock t1 (clk_lastId (db_clock (ss_handler s)))
                                (clk_pending (db_clock (ss_handler s))))).
  { unfold runTimers. destruct Hone as [Hp|(x & Hp & _)]; rewrite Hp in *; [done|].
    apply Forall_cons in Hdue as [Hx _]. cbn [List.filter].
    by rewrite (proj2 (Z.leb_gt _ _) Hx). }
  assert (Hstep : selectionChanged handler t1 sel1 s
                  = mkSession (select sel1 (ss_world s))
                      (mkDebounced (Some (S (clk_lastId (db_clock (ss_handler s)))))
                         (mkClock t1 (S (clk_lastId (db_clock (ss_handler s))))
                            [mkTimer (S (clk_lastId (db_clock (ss_handler s)))) (t1 + 200) tt]))).
  { unfold selectionChanged, idle. rewrite Hran. cbn [foldl ss_world ss_handler].
    f_equal. pose proof (debounced_after_timers 200 tt t1 (ss_handler s) Hone) as Hdeb.
    rewrite Hran in Hdeb. exact Hdeb. }
  rewrite Hstep. destruct rest as [|[t2 sel2] rest'].
  - injection Hlast as -> ->. cbn. split; [done|by eexists].
  - destruct (IH (mkSession (select sel1 (ss_world s))
                    (mkDebounced (Some (S (clk_lastId (db_clock (ss_handler s)))))
                       (mkClock t1 (S (clk_lastId (db_clock (ss_handler s))))
                          [mkTimer (S (clk_lastId (db_clock (ss_handler s)))) (t1 + 200) tt])))
                 time sel) as [Hw Hp].
    + done.
    + intros i u1 b1 u2 b2 H1 H2. apply (Hgap (S i) u1 b1 u2 b2 H1 H2).
    + right. eexists. by split.
    + cbn. constructor; [|constructor]. cbn.
      apply (Hgap O t1 sel1 t2 sel2 eq_refl eq_refl).
    + split; [|exact Hp]. rewrite Hw. apply select_select.
Qed.

(** X27. Selection changes that follow each other by less than 200 ms are
    handled once: the handler runs 200 ms after the last of them, on the
    selection the burst ended with, and it never sees the selections in
    between. *)
Theorem selection_burst_handled_once handler changes w start horizon time sel :
  last changes = Some (time, sel) ->
  (forall (i : nat) t1 s1 t2 s2,
     changes !! i = Some (t1, s1) -> changes !! S i = Some (t2, s2) -> t2 < t1 + 200) ->
  time + 200 <= horizon ->
  ss_world (idle handler horizon (selectionsAt handler changes (startSession start w)))
  = handler (select sel w).
Proof.
  intros Hlast Hgap Hh.
  destruct (selectionsAt_burst handler changes (startSession start w) time sel Hlast Hgap)
    as [Hw [id Hp]]; [by left|by constructor|].
  unfold idle, runTimers. rewrite Hp. cbn [List.filter tm_due].
  rewrite (proj2 (Z.leb_le _ _) Hh). cbn. by rewrite Hw.
Qed.

Lemma selection_burst_handled_once_witness :
  let w := select [] (sampleWorld true None) in
  ss_world (idle (Tracked.handleSelectionChange noIcon) 1000
              (selectionsAt (Tracked.handleSelectionChange noIcon)
                 [(0, ["9:9"%string]); (120, ["1:2"%string])] (startSession 0 w)))
  = Tracked.handleSelectionChange noIcon (select ["1:2"%string] w).
Proof.
  apply (selection_burst_handled_once (Tracked.handleSelectionChange noIcon)
           [(0, ["9:9"%string]); (120, ["1:2"%string])]
           (select [] (sampleWorld true None)) 0 1000 120 ["1:2"%string]).
  - reflexivity.
  - intros [|[|i]] t1 a1 t2 a2 H1 H2; cbn in H1, H2; try done.
    injection H1 as <- <-. injection H2 as <- <-. lia.
  - lia.
Defined.

Lemma restore_without_backup e :
  n_data (e_node e) = None -> Tracked.restorePlaceholdersInNode e = (Ok false, e).
Proof.
  intros H. unfold Tracked.restorePlaceholdersInNode, bind, readNodeBackup, tryCatch,
    getPluginData, ret. by rewrite H.
Qed.

Lemma runOnNode_same {A} i t (c : M A) a w :
  w_nodes w !! i = Some (TextN t) -> c (envOf w t) = (Ok a, envOf w t) ->
  runOnNode i t c w = w.
Proof.
  intros Hi Hc. unfold runOnNode. fold (envOf w t). rewrite Hc. cbn [snd envOf e_node e_loaded
    e_collections]. rewrite insert_id by done. by destruct w.
Qed.

(** X28. The manual restoration on a selection whose text nodes hold no
    backup changes nothing in the document: it posts one [run-result]
    message that reports [restored = false] for each gathered node. *)
Theorem restore_on_selection_without_backups p :
  (forall n t, n ∈ gatherTextNodesFromSelectionOrPage (pl_page p) (pl_world p) true ->
     w_nodes (pl_world p) !! nodeId n = Some (TextN t) -> n_data t = None) ->
  onmessage RestoreOnSelection p
  = postMessage
      (RunResultMsg (map (fun n => Restored (nodeId n) false)
                         (gatherTextNodesFromSelectionOrPage (pl_page p) (pl_world p) true)))
      p.
Proof.
  intros Hnone. unfold onmessage.
  set (nodes := gatherTextNodesFromSelectionOrPage (pl_page p) (pl_world p) true) in *.
  assert (Hloop : forall results,
            forNodes Tracked.restorePlaceholdersInNode Restored nodes results (pl_world p)
            = (Ok (results ++ map (fun n => Restored (nodeId n) false) nodes), pl_world p)).
  { assert (Htext : forall n, n ∈ nodes ->
              exists t, w_nodes (pl_world p) !! nodeId n = Some (TextN t))
      by (intros n; apply gather_only_text).
    clearbody nodes. induction nodes as [|n nodes IH]; intros results.
    - cbn. by rewrite app_nil_r.
    - destruct (Htext n) as [t Ht]; [left|]. cbn [forNodes]. rewrite Ht.
      assert (Hrun : Tracked.restorePlaceholdersInNode (envOf (pl_world p) t)
                     = (Ok false, envOf (pl_world p) t)).
      { apply restore_without_backup. apply (Hnone n t); [left|done]. }
      rewrite Hrun. cbn [fst]. rewrite (runOnNode_same _ _ _ false) by done.
      rewrite IH.
      + by rewrite <- app_assoc.
      + intros m t' Hm. apply Hnone. by right.
      + intros m Hm. apply Htext. by right. }
  rewrite (Hloop []). cbn [app]. by destruct p.
Qed.

Lemma restore_on_selection_without_backups_witness :
  let p := mkPlugin (sampleWorld true None) noIcon
                    (PNode "0:1" (Some [PNode "1:2" None])) NoData [] (420, 450) true false in
  onmessage RestoreOnSelection p
  = postMessage
      (RunResultMsg (map (fun n => Restored (nodeId n) false)
                         (gatherTextNodesFromSelectionOrPage (pl_page p) (pl_world p) true)))
      p.
Proof.
  apply (restore_on_selection_without_backups
           (mkPlugin (sampleWorld true None) noIcon
                     (PNode "0:1" (Some [PNode "1:2" None])) NoData [] (420, 450) true false)).
  intros n t Hn Ht. vm_compute in Hn.
  apply list_elem_of_singleton in Hn. subst n.
  vm_compute in Ht. by injection Ht as <-.
Defined.

(** * A node that is gone *)

(** X29. A node recorded as last selected that is gone, or is no text
    node, is skipped: with the feature on and no pass in flight, the handler
    runs no substitution, restores the newly selected text node if there is
    one, and records the new selection. *)
Theorem handler_skips_missing_node replace restore w i :
  featureEnabled w = true -> processing w = false ->
  lastSelectedNodeId w = Some i ->
  (forall t, w_nodes w !! i <> Some (TextN t)) ->
  handleSelectionChangeWith replace restore w
  = setLastSelected (newSelectedNode w)
      (match newSelectedNode w with
       | Some j => guardedPass j restore w
       | None => w
       end).
Proof.
  intros Hen Hpr Hlast Hgone. unfold handleSelectionChangeWith.
  rewrite Hen, Hpr, Hlast. cbn [negb].
  assert (Hskip : guardedPass i (replace (chosenCollection w)) w = w).
  { unfold guardedPass. cbn [setProcessing w_nodes].
    destruct (w_nodes w !! i) as [[t|]|] eqn:Hi; [by destruct (Hgone t)| |];
      destruct w; cbn in *; by rewrite Hpr. }
  assert (Hw1 : (if truthyId (Some i) && negb (bool_decide (Some i = newSelectedNode w))
                 then guardedPass i (replace (chosenCollection w)) w else w) = w).
  { destruct (truthyId (Some i) && _); [exact Hskip|done]. }
  rewrite Hw1, Hlast.
  destruct (newSelectedNode w) as [j|] eqn:Hnew; [|done].
  rewrite bool_decide_eq_false_2; [done|].
  intros [= ->]. unfold newSelectedNode in Hnew.
  destruct (w_selection w) as [|k [|]]; try done.
  destruct (w_nodes w !! k) as [[t|]|] eqn:Hk; try done.
  injection Hnew as ->. by destruct (Hgone t).
Qed.

Lemma handler_skips_missing_node_witness :
  let w := sampleWorld true (Some "9:9"%string) in
  Tracked.handleSelectionChange noIcon w
  = setLastSelected (newSelectedNode w)
      (match newSelectedNode w with
       | Some j => guardedPass j Tracked.restorePlaceholdersInNode w
       | None => w
       end).
Proof.
  apply (handler_skips_missing_node (Tracked.replacePlaceholdersInNode noIcon)
           Tracked.restorePlaceholdersInNode (sampleWorld true (Some "9:9"%string))
           "9:9"%string); try reflexivity.
  intros t. vm_compute. discriminate.
Defined.

(** * A second pass after a restoration *)

Lemma withChars_withChars e a b : withChars (withChars e a) b = withChars e b.
Proof. reflexivity. Qed.

Lemma charsOnly_ret {A} (a : A) : charsOnly (ret a).
Proof. intros e. exists (n_chars (e_node e)). by rewrite withChars_id. Qed.

Lemma charsOnly_bind {A B} (c : M A) (k : A -> M B) :
  charsOnly c -> (forall a, charsOnly (k a)) -> charsOnly (bind c k).
Proof.
  intros Hc Hk e. unfold bind. destruct (Hc e) as [cs Hcs].
  destruct (c e) as [[a|] e1]; cbn [snd] in Hcs; subst e1.
  - destruct (Hk a (withChars e cs)) as [cs' ->]. by exists cs'.
  - by exists cs.
Qed.

Lemma charsOnly_tryCatch {A} (c h : M A) :
  charsOnly c -> charsOnly h -> charsOnly (tryCatch c h).
Proof.
  intros Hc Hh e. unfold tryCatch. destruct (Hc e) as [cs Hcs].
  destruct (c e) as [[a|] e1]; cbn [snd] in Hcs; subst e1.
  - by exists cs.
  - destruct (Hh (withChars e cs)) as [cs' ->]. by exists cs'.
Qed.

Lemma charsOnly_forEach {X} (step : X -> M unit) l :
  (forall x, charsOnly (step x)) -> charsOnly (forEach step l).
Proof.
  intros Hstep. induction l as [|x l IH]; [apply charsOnly_ret|].
  cbn [forEach]. apply charsOnly_bind; [apply Hstep|by intros _].
Qed.

Lemma charsOnly_insert start s : charsOnly (insertCharacters start s).
Proof.
  intros e. unfold insertCharacters. destruct (inRange _ _ _); [by eexists|].
  exists (n_chars (e_node e)). by rewrite withChars_id.
Qed.

Lemma charsOnly_delete start stop : charsOnly (deleteCharacters start stop).
Proof.
  intros e. unfold deleteCharacters. destruct (inRange _ _ _); [by eexists|].
  exists (n_chars (e_node e)). by rewrite withChars_id.
Qed.

Lemma charsOnly_setRange start stop f : charsOnly (setRangeFontName start stop f).
Proof.
  intros e. unfold setRangeFontName. destruct (_ && _); [by eexists|].
  exists (n_chars (e_node e)). by rewrite withChars_id.
Qed.

Lemma charsOnly_restoreOne rep : charsOnly (Tracked.restoreOne rep).
Proof.
  unfold Tracked.restoreOne.
  apply charsOnly_bind; [apply charsOnly_insert|intros _].
  apply charsOnly_bind; [|intros _; apply charsOnly_delete].
  destruct (r_originalFont rep); [|apply charsOnly_ret].
  apply charsOnly_tryCatch; [apply charsOnly_setRange|apply charsOnly_ret].
Qed.

Lemma charsOnly_applyOp cfg il op : charsOnly (Tracked.applyOp cfg il op).
Proof.
  unfold Tracked.applyOp.
  apply charsOnly_bind; [|intros _; apply charsOnly_delete].
  destruct (0 <? zlen (Tracked.o_insertText op)); [|apply charsOnly_ret].
  apply charsOnly_bind; [apply charsOnly_insert|intros _].
  destruct (Tracked.o_isIcon op && il); [apply charsOnly_setRange|].
  destruct (Tracked.o_originalFont op); [|apply charsOnly_ret].
  apply charsOnly_tryCatch; [apply charsOnly_setRange|apply charsOnly_ret].
Qed.

(** Restoration leaves the collections and the variables alone. *)
Lemma restore_frame e o e' :
  Tracked.restorePlaceholdersInNode e = (o, e') ->
  e_collections e' = e_collections e /\ e_variables e' = e_variables e.
Proof.
  unfold Tracked.restorePlaceholdersInNode.
  unfold bind at 1. unfold readNodeBackup, tryCatch, getPluginData.
  destruct (n_data (e_node e)) as [b|]; [|unfold ret; by intros [= _ <-]].
  unfold bind at 1.
  destruct (safeLoadFontsForNode_keeps e) as (u & e1 & -> & _ & _ & Hc1 & Hv1 & _).
  destruct (b_replacements b) as [recs|].
  - unfold bind at 1.
    destruct (safeLoadFonts_keeps (omap r_originalFont (Tracked.sortDesc recs)) e1)
      as (u2 & e2 & -> & _ & _ & Hc2 & Hv2 & _).
    unfold bind at 1.
    destruct (charsOnly_forEach Tracked.restoreOne (Tracked.sortDesc recs)
                charsOnly_restoreOne e2) as [cs Hcs].
    destruct (forEach Tracked.restoreOne (Tracked.sortDesc recs) e2) as [[[]|] e3];
      cbn [snd] in Hcs; subst e3.
    + unfold bind, clearNodeBackup, tryCatch, setPluginData, ret. intros [= _ <-]. cbn.
      by rewrite Hc2, Hc1, Hv2, Hv1.
    + intros [= _ <-]. cbn. by rewrite Hc2, Hc1, Hv2, Hv1.
  - destruct (b_original b) as [|c t]; [unfold ret; intros [= _ <-]; by rewrite Hc1, Hv1|].
    unfold bind, setCharacters, clearNodeBackup, tryCatch, setPluginData, ret.
    intros [= _ <-]. cbn. by rewrite Hc1, Hv1.
Qed.

Lemma chosen_ext name a b :
  e_collections a = e_collections b -> chosenCollectionOf name a = chosenCollectionOf name b.
Proof.
  intros H. unfold chosenCollectionOf, getOrCreateCollection. rewrite H.
  by destruct (find _ (e_collections b)).
Qed.

Lemma chosen_idem name e :
  chosenCollectionOf name (snd (getOrCreateCollection (orDefault DEFAULT_COLLECTION_NAME name) e))
  = chosenCollectionOf name e.
Proof.
  unfold chosenCollectionOf, getOrCreateCollection.
  destruct (find _ (e_collections e)) as [c|] eqn:Hfind; cbn [snd fst].
  - by rewrite Hfind.
  - cbn [e_collections withCollections]. rewrite (find_app_none _ _ _ Hfind).
    cbn [find c_name]. by rewrite bool_decide_eq_true_2.
Qed.

(** The collections after a substitution pass: as before, or with the
    collection the pass created. *)
Lemma replace_collections cfg name e o e' :
  Tracked.replacePlaceholdersInNode cfg name e = (o, e') ->
  e_collections e' = e_collections e
  \/ e_collections e'
     = e_collections (snd (getOrCreateCollection (orDefault DEFAULT_COLLECTION_NAME name) e)).
Proof.
  unfold Tracked.replacePlaceholdersInNode.
  unfold bind at 1. unfold getCharacters at 1.
  destruct (Tracked.scan (plain (n_chars (e_node e)))) as [|m0 ms0] eqn:Hscan.
  - unfold_m. intros [= _ <-]. by left.
  - rewrite <- Hscan. unfold bind at 1.
    destruct (getOrCreateCollection _ e) as [[c|] e1] eqn:Hg.
    2:{ unfold getOrCreateCollection in Hg. by destruct (find _ _). }
    cbn [snd]. unfold bind at 1. rewrite resolveLoop_spec.
    cbn [Tracked.p_ops Tracked.emptyPass app].
    destruct (map (opOf e1) (actionable c e1 (Tracked.scan (plain (n_chars (e_node e))))))
      as [|op ops] eqn:Hops.
    + unfold_m. intros [= _ <-]. by right.
    + rewrite <- Hops. unfold bind at 1.
      destruct (safeLoadFontsForNode_keeps e1) as (u & e2 & -> & _ & _ & Hc2 & _).
      unfold bind at 1.
      match goal with |- context [Tracked.loadIconFont cfg ?h e2] =>
        destruct (loadIconFont_spec cfg h e2) as (e3 & -> & _ & _ & _ & Hc3 & _) end.
      unfold bind at 1. unfold Tracked.saveNodeBackup at 1, tryCatch at 1, setPluginData at 1.
      unfold bind at 1. unfold Tracked.applyOps.
      match goal with |- context [forEach (Tracked.applyOp cfg ?il) ?l ?E] =>
        destruct (charsOnly_forEach (Tracked.applyOp cfg il) l
                    (charsOnly_applyOp cfg il) E) as [cs Hcs];
        destruct (forEach (Tracked.applyOp cfg il) l E) as [[[]|] e5] end;
        cbn [snd] in Hcs; subst e5; intros [= _ <-]; right; cbn; by rewrite Hc3, Hc2.
Qed.

Lemma textAfter_ext cfg1 cfg2 name a b :
  plain (n_chars (e_node a)) = plain (n_chars (e_node b)) ->
  e_variables a = e_variables b ->
  chosenCollectionOf name a = chosenCollectionOf name b ->
  textAfter cfg1 name a = textAfter cfg2 name b.
Proof.
  intros Hp Hv Hc. rewrite !textAfter_rebuild. unfold actionableIn.
  by rewrite Hp, Hc, (actionable_ext _ a b _ Hv).
Qed.

(** X30. An edit cycle without edits shows the same values again: after a
    substitution pass and the restoration that follows it, a second
    substitution pass leaves the characters the first pass left, where no
    actionable placeholder with an empty value is immediately followed by
    another one. *)
Theorem resubstitution_after_restore cfg name e :
  noEmptyAdjacent (actionableIn name e) ->
  exists r e1 e2,
    Tracked.replacePlaceholdersInNode cfg name e = (Ok r, e1)
    /\ Tracked.restorePlaceholdersInNode e1 = (Ok (changed r), e2)
    /\ textAfter cfg name e2 = plain (n_chars (e_node e1)).
Proof.
  intros Hne.
  destruct (roundtrip_plain cfg name e Hne)
    as (r & e1 & e2 & Hrun & Hrest & _ & Hplain & _ & Hvar).
  exists r, e1, e2. split; [done|]. split; [done|].
  destruct (restore_frame e1 _ e2 Hrest) as [Hc2 Hv2].
  transitivity (textAfter cfg name e).
  - apply textAfter_ext; [done|by rewrite Hv2|].
    destruct (replace_collections cfg name e _ e1 Hrun) as [Hc|Hc].
    + apply chosen_ext. by rewrite Hc2.
    + rewrite <- (chosen_idem name e). apply chosen_ext. by rewrite Hc2.
  - unfold textAfter, afterReplace. by rewrite Hrun.
Qed.

Lemma resubstitution_after_restore_witness :
  let e := sampleEnv (styled Inter (chars "@a @bb")) [stringVar "a" "XXXX"; stringVar "bb" "Y"] in
  exists r e1 e2,
    Tracked.replacePlaceholdersInNode noIcon "Keywords" e = (Ok r, e1)
    /\ Tracked.restorePlaceholdersInNode e1 = (Ok (changed r), e2)
    /\ textAfter noIcon "Keywords" e2 = plain (n_chars (e_node e1)).
Proof.
  apply (resubstitution_after_restore noIcon "Keywords"
           (sampleEnv (styled Inter (chars "@a @bb")) [stringVar "a" "XXXX"; stringVar "bb" "Y"])).
  vm_compute. repeat split. left. reflexivity.
Defined.
